(** * Vectorised quicksort partitioning (avx512-common-qsort.h)

    A shallow embedding of the partitioning core of the AVX-512 quicksort:
    [COEX], [partition_vec], [partition_avx512], [partition_avx512_unrolled]
    and [avx512_partial_qsort], together with the properties their
    specification states about them.

    Conventions.
    - Elements are integers ([Z] with its usual order): the integer
      instantiations of [type_t].
    - Indices are the [int64_t] offsets from the [arr] pointer, as [Z].  On a
      valid range the load cursors and [l_store] stay between the incoming
      [left] and [right], and [r_store] at most [numlanes] below (the
      bounds of [scalar_inv] and [vec_inv]), so no index computation comes
      near the limits of the 64-bit range.
    - The main [while] loops take fuel; the properties state how much is
      enough for a call to return.
    - The buffer behind [arr] is a map from offsets to elements together
      with the chronological record of the offsets that were read or
      written.
    - A [zmm_t] register is the list of its lanes (lane 0 first); an
      [opmask_t] is the list of its bits. *)

From Stdlib Require Import ZArith List Bool Lia Permutation Sorted.
Import ListNotations.
Open Scope Z_scope.

(** ** The buffer *)

Inductive access : Type :=
| Read (i : Z)
| Write (i : Z).

Definition index_of (a : access) : Z :=
  match a with Read i => i | Write i => i end.

(** [cells] is the content of [arr]; [trace] lists the accesses made so far,
    most recent first. *)
Record mem : Type := mkMem { cells : Z -> Z; trace : list access }.

(** [arr[i]] used as a value. *)
Definition load (i : Z) (m : mem) : Z * mem :=
  (cells m i, mkMem (cells m) (Read i :: trace m)).

(** [arr[i] = v]. *)
Definition store (i v : Z) (m : mem) : mem :=
  mkMem (fun j => if j =? i then v else cells m j) (Write i :: trace m).

(** [n] consecutive elements read from offset [p] upwards. *)
Fixpoint load_lanes (p : Z) (n : nat) (m : mem) : list Z * mem :=
  match n with
  | O => ([], m)
  | S k =>
      let (x, m1) := load p m in
      let (xs, m2) := load_lanes (p + 1) k m1 in
      (x :: xs, m2)
  end.

(** The elements [xs] written to consecutive offsets from [p] upwards. *)
Fixpoint store_lanes (p : Z) (xs : list Z) (m : mem) : mem :=
  match xs with
  | [] => m
  | x :: t => store_lanes (p + 1) t (store p x m)
  end.

(** The content of [n] consecutive cells from offset [i]. *)
Fixpoint slice (f : Z -> Z) (i : Z) (n : nat) : list Z :=
  match n with
  | O => []
  | S k => f i :: slice f (i + 1) k
  end.

(** The content of the index range [[l, r)]. *)
Definition window (m : mem) (l r : Z) : list Z :=
  slice (cells m) l (Z.to_nat (r - l)).

Definition in_range (l r : Z) (a : access) : Prop :=
  l <= index_of a < r.

(** ** The vector backend (avx512-zmm-classes.h) *)

Definition zmm_t : Type := list Z.
Definition opmask_t : Type := list bool.

Fixpoint lanewise {A B C : Type} (f : A -> B -> C) (a : list A) (b : list B)
  : list C :=
  match a, b with
  | x :: a', y :: b' => f x y :: lanewise f a' b'
  | _, _ => []
  end.

Module vtype.

(** Modelled from the spec: [vtype::min], the elementwise minimum of two
    registers (section 4.1); the class [vtype] is declared in
    avx512-zmm-classes.h. *)
Definition min (a b : zmm_t) : zmm_t := lanewise Z.min a b.

(** Modelled from the spec: [vtype::max], the elementwise maximum
    (section 4.1). *)
Definition max (a b : zmm_t) : zmm_t := lanewise Z.max a b.

(** Modelled from the spec: [vtype::ge], the elementwise greater-or-equal
    comparison producing a lane mask (section 4.1). *)
Definition ge (a b : zmm_t) : opmask_t := lanewise Z.geb a b.

(** Modelled from the spec: [vtype::knot_opmask], the bitwise complement of
    a mask (section 4.1). *)
Definition knot_opmask (k : opmask_t) : opmask_t := map negb k.

(** Modelled from the spec: [vtype::mask_mov(x, mask, y)], the per-lane
    select between two registers: lane of [y] where the mask bit is set,
    lane of [x] elsewhere (sections 4.1 and 4.6). *)
Fixpoint mask_mov (x : zmm_t) (k : opmask_t) (y : zmm_t) : zmm_t :=
  match x, k, y with
  | a :: x', b :: k', c :: y' => (if b then c else a) :: mask_mov x' k' y'
  | _, _, _ => []
  end.

(** The lanes selected by a mask, in ascending lane order. *)
Fixpoint compress (k : opmask_t) (v : zmm_t) : list Z :=
  match k, v with
  | b :: k', x :: v' => if b then x :: compress k' v' else compress k' v'
  | _, _ => []
  end.

(** Modelled from the spec: [vtype::mask_compressstoreu(ptr, mask, vec)]
    writes only the lanes selected by [mask], packed contiguously in
    ascending lane order, starting at [ptr]; it touches exactly
    [popcount(mask)] elements and no others (section 4.1). *)
Definition mask_compressstoreu (p : Z) (k : opmask_t) (v : zmm_t) (m : mem)
  : mem :=
  store_lanes p (compress k v) m.

(** Modelled from the spec: [vtype::reducemin], the horizontal minimum of a
    register (section 4.1). *)
Definition reducemin (v : zmm_t) : Z :=
  match v with
  | [] => 0
  | x :: t => fold_left Z.min t x
  end.

(** Modelled from the spec: [vtype::reducemax], the horizontal maximum of a
    register (section 4.1). *)
Definition reducemax (v : zmm_t) : Z :=
  match v with
  | [] => 0
  | x :: t => fold_left Z.max t x
  end.

Section Lanes.

(** [vtype::numlanes], the compile-time lane count of the register. *)
Variable numlanes : Z.

(** Modelled from the spec: [vtype::set1], the broadcast of a scalar to all
    lanes (section 4.1). *)
Definition set1 (x : Z) : zmm_t := repeat x (Z.to_nat numlanes).

(** Modelled from the spec: [vtype::loadu], the unaligned load of
    [numlanes] consecutive elements (section 4.1). *)
Definition loadu (p : Z) (m : mem) : zmm_t * mem :=
  load_lanes p (Z.to_nat numlanes) m.

End Lanes.

End vtype.

(** [_mm_popcnt_u32((int32_t)mask)]: the cast keeps the low 32 bits of the
    mask, whose set bits are counted. *)
Definition _mm_popcnt_u32 (k : opmask_t) : Z :=
  Z.of_nat (count_occ bool_dec (firstn 32 k) true).

(** ** Scalar helpers *)

Definition comparison_func (a b : Z) : bool := a <? b.

(** [std::min(a, b, comp)] returns [b] when [comp(b, a)], else [a]. *)
Definition std_min (a b : Z) (comp : Z -> Z -> bool) : Z :=
  if comp b a then b else a.

(** [std::max(a, b, comp)] returns [b] when [comp(a, b)], else [a]. *)
Definition std_max (a b : Z) (comp : Z -> Z -> bool) : Z :=
  if comp a b then b else a.

(** [std::swap(arr[i], arr[j])]. *)
Definition std_swap (i j : Z) (m : mem) : mem :=
  let (a, m1) := load i m in
  let (b, m2) := load j m1 in
  store j a (store i b m2).

(** ** Compare-exchange primitives *)

(** [COEX(a, b)]: the pair of references after the call. *)
Definition COEX (a b : zmm_t) : zmm_t * zmm_t :=
  let temp := a in
  let a := vtype.min a b in
  let b := vtype.max temp b in
  (a, b).

Definition cmp_merge (in1 in2 : zmm_t) (mask : opmask_t) : zmm_t :=
  let min := vtype.min in2 in1 in
  let max := vtype.max in2 in1 in
  vtype.mask_mov min mask max.

(** ** Partitioning *)

(** What a partition call leaves behind: the returned boundary, the values
    of [*smallest] and [*biggest], the buffer, and the outcome of the
    monitor of the main loop ([res_stores_fit], a ghost value: it is [true]
    when no compress-store of the main loop went past a load cursor). *)
Record result : Type := mkResult {
  res_boundary : Z;
  res_smallest : Z;
  res_biggest : Z;
  res_arr : mem;
  res_stores_fit : bool
}.

(** The state of the scalar-remainder loop. *)
Record scalar_state : Type := mkScalar {
  s_left : Z;
  s_right : Z;
  s_smallest : Z;
  s_biggest : Z;
  s_mem : mem
}.

(** The store cursors, the running vector bounds and the buffer. *)
Record cursors : Type := mkCursors {
  c_l_store : Z;
  c_r_store : Z;
  c_min_vec : zmm_t;
  c_max_vec : zmm_t;
  c_mem : mem
}.

(** The state of the main two-cursor loop: the load cursors, the rest, and
    the monitor. *)
Record loop_state : Type := mkLoop {
  ld_left : Z;
  ld_right : Z;
  ld_cur : cursors;
  ld_fit : bool
}.

Section Partition.

Variable numlanes : Z.

Definition partition_vec (m : mem) (left right : Z)
    (curr_vec pivot_vec smallest_vec biggest_vec : zmm_t)
  : Z * zmm_t * zmm_t * mem :=
  let ge_mask := vtype.ge curr_vec pivot_vec in
  let amount_ge_pivot := _mm_popcnt_u32 ge_mask in
  let m1 :=
    vtype.mask_compressstoreu left (vtype.knot_opmask ge_mask) curr_vec m in
  let m2 :=
    vtype.mask_compressstoreu (right - amount_ge_pivot) ge_mask curr_vec m1 in
  (amount_ge_pivot,
   vtype.min curr_vec smallest_vec,
   vtype.max curr_vec biggest_vec,
   m2).

(** One iteration of the scalar-remainder loop. *)
Definition remainder_step (pivot : Z) (st : scalar_state) : scalar_state :=
  let left := s_left st in
  let right := s_right st in
  let (x1, m1) := load left (s_mem st) in
  let smallest := std_min (s_smallest st) x1 comparison_func in
  let (x2, m2) := load left m1 in
  let biggest := std_max (s_biggest st) x2 comparison_func in
  let (x3, m3) := load left m2 in
  if negb (comparison_func x3 pivot)
  then
    let right := right - 1 in
    mkScalar left right smallest biggest (std_swap left right m3)
  else mkScalar (left + 1) right smallest biggest m3.

(** [for (i = count; i > 0; --i) ...] *)
Fixpoint remainder_loop (i : nat) (pivot : Z) (st : scalar_state)
  : scalar_state :=
  match i with
  | O => st
  | S k => remainder_loop k pivot (remainder_step pivot st)
  end.

(** A call of [partition_vec] at the store cursors, followed by the cursor
    updates [l_store += numlanes - amount; r_store -= amount]. *)
Definition store_vec (pivot_vec curr_vec : zmm_t) (c : cursors) : cursors :=
  let '(amount_ge_pivot, mn, mx, m) :=
    partition_vec (c_mem c) (c_l_store c) (c_r_store c + numlanes)
      curr_vec pivot_vec (c_min_vec c) (c_max_vec c) in
  mkCursors (c_l_store c + (numlanes - amount_ge_pivot))
    (c_r_store c - amount_ge_pivot) mn mx m.

(** The monitor: the low lanes of [curr_vec] stored at [l_store] end at or
    before the left load cursor, and the high lanes stored below
    [r_store + numlanes] start at or after the right load cursor. *)
Definition fits (left right : Z) (pivot_vec curr_vec : zmm_t) (c : cursors)
  : bool :=
  let amount_ge_pivot := _mm_popcnt_u32 (vtype.ge curr_vec pivot_vec) in
  (c_l_store c + (numlanes - amount_ge_pivot) <=? left)
  && (right <=? c_r_store c + numlanes - amount_ge_pivot).

(** One iteration of the main loop of [partition_avx512]. *)
Definition loop_body (pivot_vec : zmm_t) (st : loop_state) : loop_state :=
  let left := ld_left st in
  let right := ld_right st in
  let c := ld_cur st in
  let '(left', right', curr_vec, m1) :=
    if (c_r_store c + numlanes) - right <? left - c_l_store c
    then
      let right := right - numlanes in
      let (v, m1) := vtype.loadu numlanes right (c_mem c) in
      (left, right, v, m1)
    else
      let (v, m1) := vtype.loadu numlanes left (c_mem c) in
      (left + numlanes, right, v, m1) in
  let '(amount_ge_pivot, mn, mx, m2) :=
    partition_vec m1 (c_l_store c) (c_r_store c + numlanes)
      curr_vec pivot_vec (c_min_vec c) (c_max_vec c) in
  mkLoop left' right'
    (mkCursors (c_l_store c + (numlanes - amount_ge_pivot))
       (c_r_store c - amount_ge_pivot) mn mx m2)
    (ld_fit st && fits left' right' pivot_vec curr_vec c).

(** [while (right - left != 0) body]; [None] when the fuel runs out before
    the cursors meet. *)
Fixpoint while_loop (fuel : nat) (body : loop_state -> loop_state)
    (st : loop_state) : option loop_state :=
  if ld_right st - ld_left st =? 0 then Some st
  else
    match fuel with
    | O => None
    | S f => while_loop f body (body st)
    end.

Definition partition_avx512 (fuel : nat) (m : mem)
    (left right pivot smallest biggest : Z) : option result :=
  let st :=
    remainder_loop (Z.to_nat (Z.rem (right - left) numlanes)) pivot
      (mkScalar left right smallest biggest m) in
  let left := s_left st in
  let right := s_right st in
  let smallest := s_smallest st in
  let biggest := s_biggest st in
  let m := s_mem st in
  if left =? right then Some (mkResult left smallest biggest m true)
  else
    let pivot_vec := vtype.set1 numlanes pivot in
    let min_vec := vtype.set1 numlanes smallest in
    let max_vec := vtype.set1 numlanes biggest in
    if right - left =? numlanes then
      let (vec, m1) := vtype.loadu numlanes left m in
      let '(amount_ge_pivot, min_vec, max_vec, m2) :=
        partition_vec m1 left (left + numlanes) vec pivot_vec
          min_vec max_vec in
      Some (mkResult (left + (numlanes - amount_ge_pivot))
              (vtype.reducemin min_vec) (vtype.reducemax max_vec) m2 true)
    else
      let (vec_left, m1) := vtype.loadu numlanes left m in
      let (vec_right, m2) := vtype.loadu numlanes (right - numlanes) m1 in
      let r_store := right - numlanes in
      let l_store := left in
      let left := left + numlanes in
      let right := right - numlanes in
      match
        while_loop fuel (loop_body pivot_vec)
          (mkLoop left right
             (mkCursors l_store r_store min_vec max_vec m2) true)
      with
      | None => None
      | Some st =>
          let c := ld_cur st in
          let '(amount_ge_pivot, min_vec, max_vec, m3) :=
            partition_vec (c_mem c) (c_l_store c) (c_r_store c + numlanes)
              vec_left pivot_vec (c_min_vec c) (c_max_vec c) in
          let l_store := c_l_store c + (numlanes - amount_ge_pivot) in
          let '(amount_ge_pivot, min_vec, max_vec, m4) :=
            partition_vec m3 l_store (l_store + numlanes)
              vec_right pivot_vec min_vec max_vec in
          let l_store := l_store + (numlanes - amount_ge_pivot) in
          Some (mkResult l_store (vtype.reducemin min_vec)
                  (vtype.reducemax max_vec) m4 (ld_fit st))
      end.

Section Unrolled.

Variable num_unroll : Z.

(** [for (ii = from; ii < from + n; ++ii) {
       vec_left[ii] = loadu(arr + left + numlanes * ii);
       vec_right[ii] = loadu(arr + (right - numlanes * (num_unroll - ii))); }] *)
Fixpoint load_edges (n : nat) (ii : Z) (left right : Z) (m : mem)
  : list zmm_t * list zmm_t * mem :=
  match n with
  | O => ([], [], m)
  | S k =>
      let (vl, m1) := vtype.loadu numlanes (left + numlanes * ii) m in
      let (vr, m2) :=
        vtype.loadu numlanes (right - numlanes * (num_unroll - ii)) m1 in
      let '(vls, vrs, m3) := load_edges k (ii + 1) left right m2 in
      (vl :: vls, vr :: vrs, m3)
  end.

(** [for (ii = from; ii < from + n; ++ii)
       curr_vec[ii] = loadu(arr + base + ii * numlanes);] *)
Fixpoint load_batch (n : nat) (ii : Z) (base : Z) (m : mem)
  : list zmm_t * mem :=
  match n with
  | O => ([], m)
  | S k =>
      let (v, m1) := vtype.loadu numlanes (base + ii * numlanes) m in
      let (vs, m2) := load_batch k (ii + 1) base m1 in
      (v :: vs, m2)
  end.

(** The partition loop over a batch of registers, in ascending order. *)
Fixpoint store_batch (pivot_vec : zmm_t) (vecs : list zmm_t) (c : cursors)
  : cursors :=
  match vecs with
  | [] => c
  | v :: rest => store_batch pivot_vec rest (store_vec pivot_vec v c)
  end.

(** The same loop inside the main loop, with the monitor. *)
Fixpoint store_batch_watched (left right : Z) (pivot_vec : zmm_t)
    (vecs : list zmm_t) (c : cursors) (fit : bool) : cursors * bool :=
  match vecs with
  | [] => (c, fit)
  | v :: rest =>
      store_batch_watched left right pivot_vec rest
        (store_vec pivot_vec v c)
        (fit && fits left right pivot_vec v c)
  end.

(** One iteration of the main loop of [partition_avx512_unrolled]. *)
Definition loop_body_unrolled (pivot_vec : zmm_t) (st : loop_state)
  : loop_state :=
  let left := ld_left st in
  let right := ld_right st in
  let c := ld_cur st in
  let '(left', right', curr_vec, m1) :=
    if (c_r_store c + numlanes) - right <? left - c_l_store c
    then
      let right := right - num_unroll * numlanes in
      let (vs, m1) :=
        load_batch (Z.to_nat num_unroll) 0 right (c_mem c) in
      (left, right, vs, m1)
    else
      let (vs, m1) :=
        load_batch (Z.to_nat num_unroll) 0 left (c_mem c) in
      (left + num_unroll * numlanes, right, vs, m1) in
  let (c', fit) :=
    store_batch_watched left' right' pivot_vec curr_vec
      (mkCursors (c_l_store c) (c_r_store c) (c_min_vec c) (c_max_vec c) m1)
      (ld_fit st) in
  mkLoop left' right' c' fit.

Definition partition_avx512_unrolled (fuel : nat) (m : mem)
    (left right pivot smallest biggest : Z) : option result :=
  if right - left <=? 2 * num_unroll * numlanes
  then partition_avx512 fuel m left right pivot smallest biggest
  else
    let st :=
      remainder_loop
        (Z.to_nat (Z.rem (right - left) (num_unroll * numlanes))) pivot
        (mkScalar left right smallest biggest m) in
    let left := s_left st in
    let right := s_right st in
    let smallest := s_smallest st in
    let biggest := s_biggest st in
    let m := s_mem st in
    if left =? right then Some (mkResult left smallest biggest m true)
    else
      let pivot_vec := vtype.set1 numlanes pivot in
      let min_vec := vtype.set1 numlanes smallest in
      let max_vec := vtype.set1 numlanes biggest in
      let '(vec_left, vec_right, m1) :=
        load_edges (Z.to_nat num_unroll) 0 left right m in
      let r_store := right - numlanes in
      let l_store := left in
      let left := left + num_unroll * numlanes in
      let right := right - num_unroll * numlanes in
      match
        while_loop fuel (loop_body_unrolled pivot_vec)
          (mkLoop left right
             (mkCursors l_store r_store min_vec max_vec m1) true)
      with
      | None => None
      | Some st =>
          let c := store_batch pivot_vec vec_left (ld_cur st) in
          let c := store_batch pivot_vec vec_right c in
          Some (mkResult (c_l_store c) (vtype.reducemin (c_min_vec c))
                  (vtype.reducemax (c_max_vec c)) (c_mem c) (ld_fit st))
      end.

End Unrolled.

End Partition.

(** ** Running the model on small buffers *)

(** A buffer holding [xs] from offset [base], zero elsewhere, nothing
    accessed yet. *)
Definition buffer (base : Z) (xs : list Z) : mem :=
  mkMem (fun i => nth (Z.to_nat (i - base)) xs 0) [].

(** ** Partial sort to rank k *)

(** The element at offset [k] of [r] is in its sorted place: nothing before
    it is larger, nothing after it is smaller. *)
Definition selected (r : list Z) (k : nat) : Prop :=
  exists front p back,
    r = front ++ p :: back
    /\ length front = k
    /\ Forall (fun x => x <= p) front
    /\ Forall (fun y => p <= y) back.

(** Modelled from the spec: the contract of [avx512_qselect], declared in
    this header and defined elsewhere, "select the k-th order statistic via
    quickselect logic" (section 6): the buffer is permuted so that the
    element at offset [k] is the one a full sort would put there. *)
Definition qselect_contract (qselect : list Z -> Z -> Z -> list Z) : Prop :=
  forall arr k arrsize,
    arrsize = Z.of_nat (length arr) -> 0 <= k < arrsize ->
    Permutation (qselect arr k arrsize) arr
    /\ selected (qselect arr k arrsize) (Z.to_nat k).

(** Modelled from the spec: the contract of [avx512_qsort], declared in
    this header and defined elsewhere, "sort only the prefix" (section 6):
    the first [arrsize] elements are put in ascending order, the rest of
    the buffer is not touched. *)
Definition qsort_contract (qsort : list Z -> Z -> list Z) : Prop :=
  forall arr arrsize,
    arrsize <= Z.of_nat (length arr) ->
    let n := Z.to_nat arrsize in
    Permutation (firstn n (qsort arr arrsize)) (firstn n arr)
    /\ Sorted Z.le (firstn n (qsort arr arrsize))
    /\ skipn n (qsort arr arrsize) = skipn n arr.

Section PartialSort.

(** The two entry points this header declares; the buffer is the list of
    the [arrsize] elements behind [arr]. *)
Variable avx512_qselect : list Z -> Z -> Z -> list Z.
Variable avx512_qsort : list Z -> Z -> list Z.

Definition avx512_partial_qsort (arr : list Z) (k arrsize : Z) : list Z :=
  let arr := avx512_qselect arr (k - 1) arrsize in
  avx512_qsort arr (k - 1).

End PartialSort.

(** Reference implementations that meet the two contracts: insertion sort
    of the whole buffer for the selection, of the prefix for the sort. *)
Fixpoint insert (x : Z) (l : list Z) : list Z :=
  match l with
  | [] => [x]
  | y :: t => if x <=? y then x :: l else y :: insert x t
  end.

Fixpoint isort (l : list Z) : list Z :=
  match l with
  | [] => []
  | x :: t => insert x (isort t)
  end.

Definition ref_qselect (arr : list Z) (k arrsize : Z) : list Z := isort arr.

Definition ref_qsort (arr : list Z) (arrsize : Z) : list Z :=
  isort (firstn (Z.to_nat arrsize) arr) ++ skipn (Z.to_nat arrsize) arr.

(** * Statements

    What the properties below are stated with. *)

(** The minimum, respectively maximum, of [s] and the elements of [l]. *)
Definition lmin (s : Z) (l : list Z) : Z := fold_right Z.min s l.
Definition lmax (s : Z) (l : list Z) : Z := fold_right Z.max s l.

(** The offsets [p, p+1, ..., p+n-1]. *)
Definition offsets (p : Z) (n : nat) : list Z := slice (fun i => i) p n.

(** The lanes of [v] below, respectively at or above, their lane of
    [pivot_vec], in ascending lane order. *)
Definition low_lanes (v pivot_vec : zmm_t) : list Z :=
  map fst (filter (fun xp => fst xp <? snd xp) (combine v pivot_vec)).

Definition high_lanes (v pivot_vec : zmm_t) : list Z :=
  map fst (filter (fun xp => snd xp <=? fst xp) (combine v pivot_vec)).

(** A sample call: 23 elements, registers of 4 lanes. *)
Definition sample : mem :=
  buffer 0 [1; 20; 3; 4; 15; 6; 7; 8; 9; 10; 11; 12; 13; 14; 5; 16; 2; 3; 9;
            9; 9; 1; 30].

(** [b] splits the range: below the pivot before [b], at or above it from
    [b] on. *)
Definition split_at (m : mem) (left right pivot b : Z) : Prop :=
  left <= b <= right
  /\ (forall i, left <= i < b -> cells m i < pivot)
  /\ (forall i, b <= i < right -> pivot <= cells m i).

(** The running bounds after a call: the minimum, respectively maximum, of
    the incoming value and the elements of the range on entry. *)
Definition bounds_of_range (m : mem) (left right s b : Z) (r : result)
  : Prop :=
  res_smallest r = lmin s (window m left right)
  /\ res_biggest r = lmax b (window m left right)
  /\ res_smallest r <= s /\ b <= res_biggest r
  /\ (forall x, In x (window m left right) ->
                res_smallest r <= x <= res_biggest r)
  /\ (res_smallest r = s \/ In (res_smallest r) (window m left right))
  /\ (res_biggest r = b \/ In (res_biggest r) (window m left right)).

(** The width the scalar-remainder loop of [partition_avx512_unrolled]
    aligns to: one register when the call is passed on to
    [partition_avx512], a batch otherwise. *)
Definition unrolled_width (numlanes num_unroll left right : Z) : Z :=
  if right - left <=? 2 * num_unroll * numlanes
  then numlanes
  else num_unroll * numlanes.

(** The most recent access to slot [i] in a log (most recent first). *)
Fixpoint last_access (i : Z) (t : list access) : option access :=
  match t with
  | [] => None
  | a :: rest => if index_of a =? i then Some a else last_access i rest
  end.

Definition is_read (a : access) : bool :=
  match a with Read _ => true | Write _ => false end.

Definition read_of (i : Z) (o : option access) : bool :=
  match o with
  | Some (Read j) => j =? i
  | _ => false
  end.

(** Every write of the log goes to a slot whose previous access, in this
    log, is a read: the content it replaces had been loaded. *)
Fixpoint loads_before_stores (t : list access) : bool :=
  match t with
  | [] => true
  | Write i :: rest => read_of i (last_access i rest) && loads_before_stores rest
  | Read _ :: rest => loads_before_stores rest
  end.

(** What a call returns, with the first [n] cells of the buffer. *)
Definition outcome (n : Z) (r : option result)
  : option (Z * list Z * Z * Z) :=
  match r with
  | Some r => Some (res_boundary r, window (res_arr r) 0 n,
                    res_smallest r, res_biggest r)
  | None => None
  end.

(** The range left by the scalar-remainder loop run on [[left, right)]
    with vector width [width]. *)
Definition after_remainder (width : Z) (m : mem) (left right pivot s b : Z)
  : scalar_state :=
  remainder_loop (Z.to_nat (Z.rem (right - left) width)) pivot
    (mkScalar left right s b m).

(** What one call over [left, right) leaves behind. *)
Definition partitioned (m : mem) (left right pivot s b : Z) (r : result)
  : Prop :=
  left <= res_boundary r <= right
  /\ Forall (fun x => x < pivot) (window (res_arr r) left (res_boundary r))
  /\ Forall (fun x => pivot <= x) (window (res_arr r) (res_boundary r) right)
  /\ Permutation (window (res_arr r) left right) (window m left right)
  /\ (forall j, j < left \/ right <= j -> cells (res_arr r) j = cells m j)
  /\ Permutation (window (res_arr r) left (res_boundary r))
       (filter (fun x => x <? pivot) (window m left right))
  /\ Permutation (window (res_arr r) (res_boundary r) right)
       (filter (fun x => pivot <=? x) (window m left right))
  /\ res_boundary r
     = left + Z.of_nat (length (filter (fun x => x <? pivot)
                                  (window m left right)))
  /\ res_smallest r = lmin s (window m left right)
  /\ res_biggest r = lmax b (window m left right).

(** ** The two routines cut at their loops

    The code of each routine between its loops, so that a run can be
    written with the iterations of each loop counted. *)

(** [partition_avx512] between the scalar loop and the main loop: the two
    edge registers are loaded, the store cursors are put at the ends of
    what the scalar loop left and the load cursors one register inside. *)
Definition main_loop_entry (numlanes : Z) (st : scalar_state)
  : zmm_t * zmm_t * loop_state :=
  let left := s_left st in
  let right := s_right st in
  let min_vec := vtype.set1 numlanes (s_smallest st) in
  let max_vec := vtype.set1 numlanes (s_biggest st) in
  let (vec_left, m1) := vtype.loadu numlanes left (s_mem st) in
  let (vec_right, m2) := vtype.loadu numlanes (right - numlanes) m1 in
  let r_store := right - numlanes in
  let l_store := left in
  let left := left + numlanes in
  let right := right - numlanes in
  (vec_left, vec_right,
   mkLoop left right (mkCursors l_store r_store min_vec max_vec m2) true).

(** [partition_avx512] after the main loop: the two edge registers are
    partitioned into the gap and the bounds reduced. *)
Definition epilogue (numlanes : Z) (pivot_vec vec_left vec_right : zmm_t)
    (st : loop_state) : result :=
  let c := ld_cur st in
  let '(amount_ge_pivot, min_vec, max_vec, m3) :=
    partition_vec (c_mem c) (c_l_store c) (c_r_store c + numlanes)
      vec_left pivot_vec (c_min_vec c) (c_max_vec c) in
  let l_store := c_l_store c + (numlanes - amount_ge_pivot) in
  let '(amount_ge_pivot, min_vec, max_vec, m4) :=
    partition_vec m3 l_store (l_store + numlanes)
      vec_right pivot_vec min_vec max_vec in
  let l_store := l_store + (numlanes - amount_ge_pivot) in
  mkResult l_store (vtype.reducemin min_vec) (vtype.reducemax max_vec) m4
    (ld_fit st).

(** [partition_avx512] run with [k] iterations of its scalar loop and [n]
    iterations of its main loop. *)
Definition counted_partition_avx512 (numlanes : Z) (k n : nat) (m : mem)
    (left right pivot smallest biggest : Z) : result :=
  let st :=
    Nat.iter k (remainder_step pivot)
      (mkScalar left right smallest biggest m) in
  if s_left st =? s_right st
  then mkResult (s_left st) (s_smallest st) (s_biggest st) (s_mem st) true
  else
    let pivot_vec := vtype.set1 numlanes pivot in
    if s_right st - s_left st =? numlanes then
      let min_vec := vtype.set1 numlanes (s_smallest st) in
      let max_vec := vtype.set1 numlanes (s_biggest st) in
      let (vec, m1) := vtype.loadu numlanes (s_left st) (s_mem st) in
      let '(amount_ge_pivot, min_vec, max_vec, m2) :=
        partition_vec m1 (s_left st) (s_left st + numlanes) vec pivot_vec
          min_vec max_vec in
      mkResult (s_left st + (numlanes - amount_ge_pivot))
        (vtype.reducemin min_vec) (vtype.reducemax max_vec) m2 true
    else
      let '(vec_left, vec_right, entry) := main_loop_entry numlanes st in
      epilogue numlanes pivot_vec vec_left vec_right
        (Nat.iter n (loop_body numlanes pivot_vec) entry).

(** [partition_avx512_unrolled], past its delegation test, between the
    scalar loop and the main loop. *)
Definition main_loop_entry_unrolled (numlanes num_unroll : Z)
    (st : scalar_state) : list zmm_t * list zmm_t * loop_state :=
  let left := s_left st in
  let right := s_right st in
  let min_vec := vtype.set1 numlanes (s_smallest st) in
  let max_vec := vtype.set1 numlanes (s_biggest st) in
  let '(vec_left, vec_right, m1) :=
    load_edges numlanes num_unroll (Z.to_nat num_unroll) 0 left right
      (s_mem st) in
  let r_store := right - numlanes in
  let l_store := left in
  let left := left + num_unroll * numlanes in
  let right := right - num_unroll * numlanes in
  (vec_left, vec_right,
   mkLoop left right (mkCursors l_store r_store min_vec max_vec m1) true).

(** [partition_avx512_unrolled] after the main loop. *)
Definition epilogue_unrolled (numlanes : Z) (pivot_vec : zmm_t)
    (vec_left vec_right : list zmm_t) (st : loop_state) : result :=
  let c := store_batch numlanes pivot_vec vec_left (ld_cur st) in
  let c := store_batch numlanes pivot_vec vec_right c in
  mkResult (c_l_store c) (vtype.reducemin (c_min_vec c))
    (vtype.reducemax (c_max_vec c)) (c_mem c) (ld_fit st).

(** [partition_avx512_unrolled], past its delegation test, run with [k]
    iterations of its scalar loop and [n] iterations of its main loop. *)
Definition counted_partition_avx512_unrolled (numlanes num_unroll : Z)
    (k n : nat) (m : mem) (left right pivot smallest biggest : Z) : result :=
  let st :=
    Nat.iter k (remainder_step pivot)
      (mkScalar left right smallest biggest m) in
  if s_left st =? s_right st
  then mkResult (s_left st) (s_smallest st) (s_biggest st) (s_mem st) true
  else
    let pivot_vec := vtype.set1 numlanes pivot in
    let '(vec_left, vec_right, entry) :=
      main_loop_entry_unrolled numlanes num_unroll st in
    epilogue_unrolled numlanes pivot_vec vec_left vec_right
      (Nat.iter n (loop_body_unrolled numlanes num_unroll pivot_vec) entry).

(** A buffer long enough for both main loops to iterate. *)
Definition long_sample : mem :=
  buffer 0 [12; 3; 25; 7; 9; 1; 18; 30; 4; 9; 22; 6; 15; 2; 11; 27; 8; 19;
            5; 9; 14; 0; 21; 10; 3; 29; 16; 7; 13; 24; 9; 2; 17; 6; 28; 1;
            20; 11; 4; 23; 9; 26; 5].

(** * Properties *)

(** ** Lists, multisets and running bounds *)

Ltac multiset :=
  repeat match goal with
         | H : Permutation _ _ |- _ =>
             let x := fresh "x" in
             let Hc := fresh "Hc" in
             pose proof (fun x => proj1 (Permutation_count_occ Z.eq_dec _ _) H x)
               as Hc;
             clear H
         end;
  apply (Permutation_count_occ Z.eq_dec);
  let y := fresh "y" in
  intro y;
  repeat match goal with
         | H : forall x : Z, _ = _ |- _ => specialize (H y)
         end;
  repeat (progress (rewrite ?count_occ_app in *; cbn [count_occ] in *));
  repeat match goal with
         | |- context [Z.eq_dec ?a ?b] => destruct (Z.eq_dec a b)
         | H : context [Z.eq_dec ?a ?b] |- _ => destruct (Z.eq_dec a b)
         end;
  lia.

Lemma lmin_app s a b : lmin s (a ++ b) = lmin (lmin s b) a.
Proof. unfold lmin. apply fold_right_app. Qed.

Lemma lmax_app s a b : lmax s (a ++ b) = lmax (lmax s b) a.
Proof. unfold lmax. apply fold_right_app. Qed.

Lemma lmin_perm s a b : Permutation a b -> lmin s a = lmin s b.
Proof.
  induction 1; simpl; lia.
Qed.

Lemma lmax_perm s a b : Permutation a b -> lmax s a = lmax s b.
Proof.
  induction 1; simpl; lia.
Qed.

Lemma lmin_min a b l : Z.min (lmin a l) b = lmin (Z.min a b) l.
Proof. induction l; simpl; lia. Qed.

Lemma lmax_max a b l : Z.max (lmax a l) b = lmax (Z.max a b) l.
Proof. induction l; simpl; lia. Qed.

Lemma fold_left_min l x : fold_left Z.min l x = lmin x l.
Proof.
  revert x. induction l; intro x; simpl; auto.
  rewrite IHl. rewrite <- lmin_min. lia.
Qed.

Lemma fold_left_max l x : fold_left Z.max l x = lmax x l.
Proof.
  revert x. induction l; intro x; simpl; auto.
  rewrite IHl. rewrite <- lmax_max. lia.
Qed.

Lemma filter_split_perm (f : Z -> bool) l :
  Permutation l (filter f l ++ filter (fun x => negb (f x)) l).
Proof.
  induction l as [|x l IH]; simpl; auto.
  destruct (f x); simpl.
  - now constructor.
  - now apply Permutation_cons_app.
Qed.

Lemma filter_split_length (f : Z -> bool) l :
  (length (filter f l) + length (filter (fun x => negb (f x)) l))%nat
  = length l.
Proof.
  induction l as [|x l IH]; simpl; auto.
  destruct (f x); simpl; lia.
Qed.

Lemma Forall_filter_true (f : Z -> bool) l :
  Forall (fun x => f x = true) (filter f l).
Proof.
  induction l as [|x l IH]; simpl; auto.
  destruct (f x) eqn:E; auto.
Qed.

Lemma filter_all (f : Z -> bool) l :
  Forall (fun x => f x = true) l -> filter f l = l.
Proof.
  induction 1 as [|x l H _ IH]; simpl; auto.
  now rewrite H, IH.
Qed.

Lemma filter_none (f : Z -> bool) l :
  Forall (fun x => f x = false) l -> filter f l = [].
Proof.
  induction 1 as [|x l H _ IH]; simpl; auto.
  now rewrite H.
Qed.

Lemma filter_perm (f : Z -> bool) a b :
  Permutation a b -> Permutation (filter f a) (filter f b).
Proof.
  induction 1; simpl; auto.
  - destruct (f x); auto.
  - destruct (f x), (f y); auto. constructor.
  - eapply Permutation_trans; eauto.
Qed.

(** ** Slices and windows of the buffer *)

Lemma slice_length f i n : length (slice f i n) = n.
Proof. revert i. induction n; intro i; simpl; auto. Qed.

Lemma slice_app f i a b :
  slice f i (a + b) = slice f i a ++ slice f (i + Z.of_nat a) b.
Proof.
  revert i. induction a; intro i.
  - simpl. now rewrite Z.add_0_r.
  - change (S a + b)%nat with (S (a + b)). simpl slice.
    rewrite IHa. simpl. do 3 f_equal. lia.
Qed.

Lemma slice_ext f g i n :
  (forall j, i <= j < i + Z.of_nat n -> f j = g j) ->
  slice f i n = slice g i n.
Proof.
  revert i. induction n; intros i H; simpl; auto.
  f_equal.
  - apply H. lia.
  - apply IHn. intros j Hj. apply H. lia.
Qed.

Lemma slice_nth f i n k d :
  (k < n)%nat -> nth k (slice f i n) d = f (i + Z.of_nat k).
Proof.
  revert i k. induction n; intros i k H; [lia|].
  destruct k; simpl.
  - f_equal. lia.
  - rewrite IHn by lia. f_equal. lia.
Qed.

Lemma window_length m l r : l <= r -> Z.of_nat (length (window m l r)) = r - l.
Proof. intro H. unfold window. rewrite slice_length. lia. Qed.

Lemma window_nil m l r : r <= l -> window m l r = [].
Proof.
  intro H. unfold window.
  replace (Z.to_nat (r - l)) with 0%nat by lia. reflexivity.
Qed.

Lemma window_split m l k r :
  l <= k <= r -> window m l r = window m l k ++ window m k r.
Proof.
  intro H. unfold window.
  replace (Z.to_nat (r - l)) with (Z.to_nat (k - l) + Z.to_nat (r - k))%nat
    by lia.
  rewrite slice_app. do 2 f_equal. lia.
Qed.

Lemma window_ext m m' l r :
  (forall j, l <= j < r -> cells m j = cells m' j) ->
  window m l r = window m' l r.
Proof.
  intro H. unfold window. apply slice_ext. intros j Hj. apply H. lia.
Qed.

Lemma window_one m l : window m l (l + 1) = [cells m l].
Proof.
  unfold window. replace (Z.to_nat (l + 1 - l)) with 1%nat by lia.
  reflexivity.
Qed.

Lemma window_last m l : window m (l - 1) l = [cells m (l - 1)].
Proof.
  unfold window. replace (Z.to_nat (l - (l - 1))) with 1%nat by lia.
  reflexivity.
Qed.

Lemma offsets_range p n :
  Forall (fun i => p <= i < p + Z.of_nat n) (offsets p n).
Proof.
  unfold offsets. revert p. induction n; intro p; simpl; constructor.
  - lia.
  - eapply Forall_impl; [|apply IHn]. simpl. intros; lia.
Qed.

Lemma load_lanes_spec p n m :
  load_lanes p n m
  = (slice (cells m) p n,
     mkMem (cells m) (rev (map Read (offsets p n)) ++ trace m)).
Proof.
  revert p m. induction n; intros p m; simpl.
  - now destruct m.
  - rewrite IHn. simpl. f_equal. f_equal.
    unfold offsets. rewrite <- app_assoc. reflexivity.
Qed.

Lemma store_lanes_trace p xs m :
  trace (store_lanes p xs m)
  = rev (map Write (offsets p (length xs))) ++ trace m.
Proof.
  revert p m. induction xs as [|x xs IH]; intros p m; simpl; auto.
  rewrite IH. simpl. unfold offsets. now rewrite <- app_assoc.
Qed.

Lemma store_lanes_outside p xs m j :
  j < p \/ p + Z.of_nat (length xs) <= j ->
  cells (store_lanes p xs m) j = cells m j.
Proof.
  revert p m. induction xs as [|x xs IH]; intros p m H; simpl; auto.
  rewrite IH by (simpl in H; lia). simpl.
  destruct (Z.eqb_spec j p); auto. simpl in H. lia.
Qed.

Lemma store_lanes_slice p xs m :
  slice (cells (store_lanes p xs m)) p (length xs) = xs.
Proof.
  revert p m. induction xs as [|x xs IH]; intros p m; simpl; auto.
  f_equal.
  - rewrite store_lanes_outside by lia. simpl. now rewrite Z.eqb_refl.
  - apply IH.
Qed.

Lemma store_lanes_window p xs m q :
  q = p + Z.of_nat (length xs) -> window (store_lanes p xs m) p q = xs.
Proof.
  intros ->. unfold window.
  replace (Z.to_nat (p + Z.of_nat (length xs) - p)) with (length xs) by lia.
  apply store_lanes_slice.
Qed.

(** ** Access logs *)

Lemma last_access_reads i t1 t :
  Forall (fun a => is_read a = true) t1 ->
  In (Read i) t1 \/ last_access i t = Some (Read i) ->
  last_access i (t1 ++ t) = Some (Read i).
Proof.
  induction 1 as [|a t1 Ha _ IH]; intro H; simpl.
  - destruct H as [[]|H]; exact H.
  - destruct a as [j|j]; [|discriminate]. simpl.
    destruct (Z.eqb_spec j i) as [->|Hne]; [reflexivity|].
    apply IH. destruct H as [[H|H]|H]; auto. congruence.
Qed.

Lemma last_access_miss i t1 t :
  Forall (fun a => index_of a <> i) t1 ->
  last_access i (t1 ++ t) = last_access i t.
Proof.
  induction 1 as [|a t1 Ha _ IH]; simpl; auto.
  destruct (Z.eqb_spec (index_of a) i); [contradiction|exact IH].
Qed.

Lemma loads_before_stores_reads t1 t :
  Forall (fun a => is_read a = true) t1 ->
  loads_before_stores (t1 ++ t) = loads_before_stores t.
Proof.
  induction 1 as [|a t1 Ha _ IH]; simpl; auto.
  destruct a; [exact IH|discriminate].
Qed.

Lemma writes_miss p n i t :
  i < p \/ p + Z.of_nat n <= i ->
  last_access i (rev (map Write (offsets p n)) ++ t) = last_access i t.
Proof.
  intro H. apply last_access_miss, Forall_rev, Forall_map.
  eapply Forall_impl; [|apply offsets_range]. simpl. intros; lia.
Qed.

Lemma loads_before_stores_writes n : forall p t,
  loads_before_stores t = true ->
  (forall i, p <= i < p + Z.of_nat n -> last_access i t = Some (Read i)) ->
  loads_before_stores (rev (map Write (offsets p n)) ++ t) = true.
Proof.
  induction n as [|n IH]; intros p t Ht Hr; [exact Ht|].
  unfold offsets. cbn [slice map rev]. fold (offsets (p + 1) n).
  rewrite <- app_assoc. cbn [app]. apply IH.
  - cbn [loads_before_stores]. rewrite Hr by lia. cbn [read_of].
    now rewrite Z.eqb_refl.
  - intros i Hi. cbn [last_access index_of].
    destruct (Z.eqb_spec p i); [lia|]. apply Hr. lia.
Qed.

Lemma offsets_In p n i : p <= i < p + Z.of_nat n -> In i (offsets p n).
Proof.
  unfold offsets. revert p. induction n as [|n IH]; intros p H; [lia|].
  simpl. destruct (Z.eq_dec p i); auto. right. apply IH. lia.
Qed.

(** What a sequence of loads adds to the log: reads only, and a read of
    every slot of [cover]. *)
Definition reads_cover (cover : Z -> Prop) (m m1 : mem) : Prop :=
  exists t, trace m1 = t ++ trace m
            /\ Forall (fun a => is_read a = true) t
            /\ forall i, cover i -> In (Read i) t.

Lemma reads_cover_weaken (c c' : Z -> Prop) m m1 :
  reads_cover c m m1 -> (forall i, c' i -> c i) -> reads_cover c' m m1.
Proof.
  intros [t [T [F C]]] H. exists t. repeat split; auto.
Qed.

Lemma reads_cover_trans (c1 c2 : Z -> Prop) m m1 m2 :
  reads_cover c1 m m1 -> reads_cover c2 m1 m2 ->
  reads_cover (fun i => c1 i \/ c2 i) m m2.
Proof.
  intros [t1 [T1 [F1 C1]]] [t2 [T2 [F2 C2]]]. exists (t2 ++ t1).
  split; [now rewrite T2, T1, app_assoc|].
  split; [apply Forall_app; auto|].
  intros i [H|H]; apply in_or_app; auto.
Qed.

Lemma load_lanes_reads p n m :
  reads_cover (fun i => p <= i < p + Z.of_nat n) m (snd (load_lanes p n m)).
Proof.
  rewrite load_lanes_spec. cbn [snd trace]. eexists. split; [reflexivity|].
  split.
  - apply Forall_rev, Forall_map, Forall_forall. reflexivity.
  - intros i Hi. apply in_rev. rewrite rev_involutive.
    apply in_map, offsets_In, Hi.
Qed.

(** ** Registers and masks *)

Lemma lanewise_length {A B C} (f : A -> B -> C) a b :
  length a = length b -> length (lanewise f a b) = length a.
Proof.
  revert b. induction a; destruct b; simpl; intros; auto; lia.
Qed.

Lemma lanewise_repeat {A B C} (f : A -> B -> C) a y n :
  (length a <= n)%nat -> lanewise f a (repeat y n) = map (fun x => f x y) a.
Proof.
  revert n. induction a; intros n H; simpl; auto.
  destruct n; simpl in *; [lia|]. now rewrite IHa by lia.
Qed.

Lemma compress_map (f : Z -> bool) v :
  vtype.compress (map f v) v = filter f v.
Proof.
  induction v as [|x v IH]; simpl; auto.
  now rewrite IH.
Qed.

Lemma compress_knot_map (f : Z -> bool) v :
  vtype.compress (vtype.knot_opmask (map f v)) v
  = filter (fun x => negb (f x)) v.
Proof.
  unfold vtype.knot_opmask.
  induction v as [|x v IH]; simpl; auto.
  rewrite IH. now destruct (f x).
Qed.

Lemma compress_count k v :
  length k = length v ->
  length (vtype.compress k v) = count_occ bool_dec k true.
Proof.
  revert v. induction k as [|b k IH]; destruct v; simpl; intros H;
    auto; try lia.
  destruct b; simpl.
  - destruct (bool_dec true true); [|congruence]. now rewrite IH by lia.
  - destruct (bool_dec false true); [congruence|]. now apply IH; lia.
Qed.

Lemma compress_knot_count k v :
  length k = length v ->
  (length (vtype.compress (vtype.knot_opmask k) v)
   + length (vtype.compress k v))%nat = length v.
Proof.
  unfold vtype.knot_opmask.
  revert v. induction k as [|b k IH]; destruct v; simpl; intros H;
    auto; try lia.
  specialize (IH v ltac:(lia)).
  destruct b; simpl; lia.
Qed.

Lemma compress_perm k v :
  length k = length v ->
  Permutation v (vtype.compress (vtype.knot_opmask k) v ++ vtype.compress k v).
Proof.
  unfold vtype.knot_opmask.
  revert v. induction k as [|b k IH]; destruct v; simpl; intros H;
    auto; try lia.
  specialize (IH v ltac:(lia)).
  destruct b; simpl.
  - now apply Permutation_cons_app.
  - now constructor.
Qed.

Lemma popcnt_count k :
  (length k <= 32)%nat ->
  _mm_popcnt_u32 k = Z.of_nat (count_occ bool_dec k true).
Proof.
  intro H. unfold _mm_popcnt_u32. now rewrite firstn_all2.
Qed.

Lemma ge_length v pv : length v = length pv -> length (vtype.ge v pv) = length v.
Proof. apply lanewise_length. Qed.

Lemma lmin_lanewise x y a b :
  length a = length b ->
  lmin (Z.min x y) (lanewise Z.min a b) = Z.min (lmin x a) (lmin y b).
Proof.
  revert b. induction a as [|a0 a IH]; destruct b as [|b0 b]; simpl;
    intro H; try discriminate; auto.
  rewrite IH by lia. lia.
Qed.

Lemma lmax_lanewise x y a b :
  length a = length b ->
  lmax (Z.max x y) (lanewise Z.max a b) = Z.max (lmax x a) (lmax y b).
Proof.
  revert b. induction a as [|a0 a IH]; destruct b as [|b0 b]; simpl;
    intro H; try discriminate; auto.
  rewrite IH by lia. lia.
Qed.

Lemma reducemin_min v mv :
  length v = length mv -> mv <> [] ->
  vtype.reducemin (vtype.min v mv) = lmin (vtype.reducemin mv) v.
Proof.
  intros Hl Hne.
  destruct mv as [|y mv]; [congruence|]. destruct v as [|x v]; [discriminate|].
  simpl in *. rewrite !fold_left_min.
  rewrite lmin_lanewise by lia.
  rewrite lmin_min, (Z.min_comm x), <- lmin_min. lia.
Qed.

Lemma reducemax_max v mv :
  length v = length mv -> mv <> [] ->
  vtype.reducemax (vtype.max v mv) = lmax (vtype.reducemax mv) v.
Proof.
  intros Hl Hne.
  destruct mv as [|y mv]; [congruence|]. destruct v as [|x v]; [discriminate|].
  simpl in *. rewrite !fold_left_max.
  rewrite lmax_lanewise by lia.
  rewrite lmax_max, (Z.max_comm x), <- lmax_max. lia.
Qed.

(** ** The single-vector partition step *)

Lemma compress_ge v pv :
  vtype.compress (vtype.ge v pv) v = high_lanes v pv.
Proof.
  unfold high_lanes, vtype.ge.
  revert pv. induction v as [|x v IH]; destruct pv as [|p pv]; simpl; auto.
  rewrite IH. rewrite Z.geb_leb. now destruct (p <=? x).
Qed.

Lemma compress_knot_ge v pv :
  vtype.compress (vtype.knot_opmask (vtype.ge v pv)) v = low_lanes v pv.
Proof.
  unfold low_lanes, vtype.ge, vtype.knot_opmask.
  revert pv. induction v as [|x v IH]; destruct pv as [|p pv]; simpl; auto.
  rewrite IH. rewrite Z.geb_leb, Z.leb_antisym, negb_involutive.
  now destruct (x <? p).
Qed.

Lemma lanes_set1 n p v :
  length v = Z.to_nat n ->
  low_lanes v (vtype.set1 n p) = filter (fun x => x <? p) v
  /\ high_lanes v (vtype.set1 n p) = filter (fun x => p <=? x) v.
Proof.
  intro H. unfold low_lanes, high_lanes, vtype.set1. rewrite <- H. clear H.
  induction v as [|x v [IH1 IH2]]; simpl; auto.
  rewrite <- IH1, <- IH2.
  destruct (x <? p), (p <=? x); auto.
Qed.

Lemma partition_vec_effect m l r v pv mn mx :
  length v = length pv -> (length v <= 32)%nat ->
  l + Z.of_nat (length v) <= r ->
  let lows := low_lanes v pv in
  let highs := high_lanes v pv in
  let a := Z.of_nat (length highs) in
  exists m',
    partition_vec m l r v pv mn mx = (a, vtype.min v mn, vtype.max v mx, m')
    /\ Z.of_nat (length lows) + a = Z.of_nat (length v)
    /\ window m' l (l + Z.of_nat (length lows)) = lows
    /\ window m' (r - a) r = highs
    /\ (forall j, j < l \/ l + Z.of_nat (length lows) <= j < r - a \/ r <= j ->
                  cells m' j = cells m j)
    /\ trace m'
       = rev (map Write (offsets (r - a) (length highs)))
           ++ rev (map Write (offsets l (length lows))) ++ trace m.
Proof.
  intros Hl H32 Hr lows highs a.
  pose proof (ge_length v pv Hl) as Hk.
  pose proof (compress_knot_count (vtype.ge v pv) v Hk) as Hsum.
  rewrite compress_knot_ge, compress_ge in Hsum.
  fold lows highs in Hsum.
  assert (Ha : _mm_popcnt_u32 (vtype.ge v pv) = a).
  { rewrite popcnt_count by lia. unfold a, highs.
    now rewrite <- compress_ge, compress_count. }
  unfold partition_vec. rewrite Ha.
  unfold vtype.mask_compressstoreu.
  rewrite compress_knot_ge, compress_ge. fold lows highs.
  eexists. split; [reflexivity|].
  split; [lia|].
  split; [|split; [|split]].
  - erewrite window_ext; [apply store_lanes_window; reflexivity|].
    intros j Hj. apply store_lanes_outside. fold a. lia.
  - apply store_lanes_window. fold a. lia.
  - intros j Hj. rewrite !store_lanes_outside; auto; fold a; lia.
  - now rewrite !store_lanes_trace.
Qed.

Lemma std_swap_cells i j m k :
  cells (std_swap i j m) k
  = if k =? j then cells m i else if k =? i then cells m j else cells m k.
Proof. reflexivity. Qed.

Lemma std_swap_trace i j m :
  trace (std_swap i j m)
  = Write j :: Write i :: Read j :: Read i :: trace m.
Proof. reflexivity. Qed.

Lemma std_swap_perm m i j l r :
  l <= i -> i <= j -> j < r ->
  Permutation (window (std_swap i j m) l r) (window m l r).
Proof.
  intros Hl Hij Hr.
  destruct (Z.eq_dec i j) as [->|Hne].
  - erewrite window_ext; [reflexivity|].
    intros k Hk. rewrite std_swap_cells.
    destruct (Z.eqb_spec k j); subst; auto.
  - rewrite (window_split _ l i r), (window_split _ i (i + 1) r),
      (window_split _ (i + 1) j r), (window_split _ j (j + 1) r) by lia.
    rewrite (window_split m l i r), (window_split m i (i + 1) r),
      (window_split m (i + 1) j r), (window_split m j (j + 1) r) by lia.
    rewrite !window_one, !std_swap_cells, !Z.eqb_refl.
    destruct (Z.eqb_spec i j); [lia|].
    rewrite (window_ext (std_swap i j m) m l i),
      (window_ext (std_swap i j m) m (i + 1) j),
      (window_ext (std_swap i j m) m (j + 1) r).
    + multiset.
    + intros k Hk. rewrite std_swap_cells.
      destruct (Z.eqb_spec k j); [lia|]. destruct (Z.eqb_spec k i); [lia|auto].
    + intros k Hk. rewrite std_swap_cells.
      destruct (Z.eqb_spec k j); [lia|]. destruct (Z.eqb_spec k i); [lia|auto].
    + intros k Hk. rewrite std_swap_cells.
      destruct (Z.eqb_spec k j); [lia|]. destruct (Z.eqb_spec k i); [lia|auto].
Qed.

(** ** Invariants of a partition call *)

Section Correctness.

Variable numlanes : Z.
Hypothesis lanes_pos : 0 < numlanes.
Hypothesis lanes_mask : numlanes <= 32.

(** The call under study: the buffer on entry, the range, the pivot and
    the incoming bounds. *)
Variables (m0 : mem) (L0 R0 pivot s0 b0 : Z).

Let pivot_vec := vtype.set1 numlanes pivot.

(** Outside the range the buffer is as on entry. *)
Definition framed (m : mem) : Prop :=
  forall j, j < L0 \/ R0 <= j -> cells m j = cells m0 j.

(** Every access since entry lies inside the range. *)
Definition touched (m : mem) : Prop :=
  exists t, trace m = t ++ trace m0 /\ Forall (in_range L0 R0) t.

Lemma touched_more m m' t :
  touched m -> trace m' = t ++ trace m -> Forall (in_range L0 R0) t ->
  touched m'.
Proof.
  intros [t0 [E F]] E' F'. exists (t ++ t0). split.
  - now rewrite E', E, app_assoc.
  - apply Forall_app; auto.
Qed.

Lemma reads_in_range p n :
  L0 <= p -> p + Z.of_nat n <= R0 ->
  Forall (in_range L0 R0) (rev (map Read (offsets p n))).
Proof.
  intros H1 H2. apply Forall_rev, Forall_map.
  eapply Forall_impl; [|apply offsets_range].
  unfold in_range; simpl; intros; lia.
Qed.

Lemma writes_in_range p n :
  L0 <= p -> p + Z.of_nat n <= R0 ->
  Forall (in_range L0 R0) (rev (map Write (offsets p n))).
Proof.
  intros H1 H2. apply Forall_rev, Forall_map.
  eapply Forall_impl; [|apply offsets_range].
  unfold in_range; simpl; intros; lia.
Qed.

(** The scalar-remainder loop: everything left of [left] is below the
    pivot, everything from [right] on is at or above it, and the bounds
    cover exactly these two parts. *)
Record scalar_inv (st : scalar_state) : Prop := {
  si_bounds : L0 <= s_left st /\ s_left st <= s_right st /\ s_right st <= R0;
  si_low : Forall (fun x => x < pivot) (window (s_mem st) L0 (s_left st));
  si_high : Forall (fun x => pivot <= x) (window (s_mem st) (s_right st) R0);
  si_perm : Permutation (window (s_mem st) L0 R0) (window m0 L0 R0);
  si_min : s_smallest st
           = lmin s0 (window (s_mem st) L0 (s_left st)
                        ++ window (s_mem st) (s_right st) R0);
  si_max : s_biggest st
           = lmax b0 (window (s_mem st) L0 (s_left st)
                        ++ window (s_mem st) (s_right st) R0);
  si_frame : framed (s_mem st);
  si_trace : touched (s_mem st)
}.

Lemma scalar_inv_init :
  L0 <= R0 -> scalar_inv (mkScalar L0 R0 s0 b0 m0).
Proof.
  intro H. constructor; simpl.
  - lia.
  - rewrite window_nil by lia. constructor.
  - rewrite window_nil by lia. constructor.
  - reflexivity.
  - rewrite !window_nil by lia. reflexivity.
  - rewrite !window_nil by lia. reflexivity.
  - intros j _. reflexivity.
  - exists []. split; auto.
Qed.

Lemma remainder_step_inv st :
  scalar_inv st -> s_left st < s_right st ->
  scalar_inv (remainder_step pivot st)
  /\ s_right (remainder_step pivot st) - s_left (remainder_step pivot st)
     = s_right st - s_left st - 1.
Proof.
  intros [Hb Hlo Hhi Hp Hmin Hmax Hfr Htr] Hlt.
  destruct st as [left right sm bg m]. simpl in *.
  unfold remainder_step, load, comparison_func, std_min, std_max. simpl.
  set (x := cells m left) in *.
  destruct (Z.ltb_spec x pivot) as [Hx|Hx]; simpl.
  - split; [|lia]. constructor; simpl.
    + lia.
    + unfold window at 1; simpl. fold (window m L0 (left + 1)).
      rewrite (window_split m L0 left (left + 1)), window_one by lia.
      apply Forall_app; split; auto.
    + exact Hhi.
    + exact Hp.
    + unfold window; simpl. fold (window m L0 (left + 1)).
      fold (window m right R0).
      rewrite (window_split m L0 left (left + 1)), window_one by lia.
      fold x. rewrite Hmin.
      rewrite (lmin_perm s0 ((window m L0 left ++ [x]) ++ window m right R0)
                 (x :: window m L0 left ++ window m right R0)).
      * simpl. destruct (Z.ltb_spec x (lmin s0 (window m L0 left ++ window m right R0))); lia.
      * multiset.
    + unfold window; simpl. fold (window m L0 (left + 1)).
      fold (window m right R0).
      rewrite (window_split m L0 left (left + 1)), window_one by lia.
      fold x. rewrite Hmax.
      rewrite (lmax_perm b0 ((window m L0 left ++ [x]) ++ window m right R0)
                 (x :: window m L0 left ++ window m right R0)).
      * simpl. destruct (Z.ltb_spec (lmax b0 (window m L0 left ++ window m right R0)) x); lia.
      * multiset.
    + exact Hfr.
    + eapply touched_more with (t := [Read left; Read left; Read left]);
        eauto.
      repeat constructor; simpl; lia.
  - split; [|lia].
    set (m3 := mkMem (cells m)
                 (Read left :: Read left :: Read left :: trace m)).
    assert (Ew : forall a b, window m3 a b = window m a b)
      by (intros; apply window_ext; reflexivity).
    assert (Elow : window (std_swap left (right - 1) m3) L0 left
                   = window m L0 left).
    { rewrite <- Ew. apply window_ext. intros j Hj. rewrite std_swap_cells.
      destruct (Z.eqb_spec j (right - 1)); [lia|].
      destruct (Z.eqb_spec j left); [lia|auto]. }
    assert (Ehigh : window (std_swap left (right - 1) m3) (right - 1) R0
                    = x :: window m right R0).
    { rewrite (window_split _ (right - 1) right R0) by lia.
      rewrite window_last, std_swap_cells, Z.eqb_refl. simpl.
      fold x. f_equal. rewrite <- Ew. apply window_ext.
      intros j Hj. rewrite std_swap_cells.
      destruct (Z.eqb_spec j (right - 1)); [lia|].
      destruct (Z.eqb_spec j left); [lia|auto]. }
    constructor; simpl; fold m3.
    + lia.
    + now rewrite Elow.
    + rewrite Ehigh. constructor; auto.
    + rewrite std_swap_perm by lia. now rewrite Ew.
    + rewrite Elow, Ehigh, Hmin.
      rewrite (lmin_perm s0 (window m L0 left ++ x :: window m right R0)
                 (x :: window m L0 left ++ window m right R0)).
      * simpl. destruct (Z.ltb_spec x (lmin s0 (window m L0 left ++ window m right R0))); lia.
      * multiset.
    + rewrite Elow, Ehigh, Hmax.
      rewrite (lmax_perm b0 (window m L0 left ++ x :: window m right R0)
                 (x :: window m L0 left ++ window m right R0)).
      * simpl. destruct (Z.ltb_spec (lmax b0 (window m L0 left ++ window m right R0)) x); lia.
      * multiset.
    + intros j Hj. rewrite std_swap_cells.
      destruct (Z.eqb_spec j (right - 1)); [lia|].
      destruct (Z.eqb_spec j left); [lia|]. now apply Hfr.
    + eapply touched_more
        with (t := [Write (right - 1); Write left; Read (right - 1);
                    Read left; Read left; Read left; Read left]); eauto.
      repeat constructor; simpl; lia.
Qed.


Lemma remainder_loop_inv i st :
  scalar_inv st -> Z.of_nat i <= s_right st - s_left st ->
  scalar_inv (remainder_loop i pivot st)
  /\ s_right (remainder_loop i pivot st) - s_left (remainder_loop i pivot st)
     = s_right st - s_left st - Z.of_nat i.
Proof.
  revert st. induction i as [|i IH]; intros st Hinv Hi.
  - simpl. split; auto. lia.
  - cbn [remainder_loop].
    destruct (remainder_step_inv st Hinv ltac:(lia)) as [Hinv' Hlen].
    destruct (IH _ Hinv' ltac:(lia)) as [Hinv'' Hlen'].
    split; auto. lia.
Qed.

Section VectorPhase.

(** The buffer when the vector phase starts. *)
Variable ms : mem.

(** Since the vector phase started every write went to a slot that had been
    loaded, and every slot of the free room (between a store cursor and the
    load cursor of its side) has been loaded and not written since. *)
Definition fresh (left right : Z) (c : cursors) : Prop :=
  exists t,
    trace (c_mem c) = t ++ trace ms
    /\ loads_before_stores t = true
    /\ forall i, c_l_store c <= i < left
                 \/ right <= i < c_r_store c + numlanes ->
                 last_access i t = Some (Read i).

(** The vector phase: [c_l_store] and [c_r_store + numlanes] delimit the
    stored parts, [[left, right)] is the part not yet loaded, and [pending]
    are the elements held in registers. *)
Record vec_inv (left right : Z) (pending : list Z) (c : cursors) : Prop := {
  vi_bounds : L0 <= c_l_store c /\ c_l_store c <= left /\ left <= right
              /\ right <= c_r_store c + numlanes
              /\ c_r_store c + numlanes <= R0;
  vi_low : Forall (fun x => x < pivot) (window (c_mem c) L0 (c_l_store c));
  vi_high : Forall (fun x => pivot <= x)
              (window (c_mem c) (c_r_store c + numlanes) R0);
  vi_perm : Permutation
              (window (c_mem c) L0 (c_l_store c)
                 ++ window (c_mem c) (c_r_store c + numlanes) R0
                 ++ window (c_mem c) left right ++ pending)
              (window m0 L0 R0);
  vi_minlen : length (c_min_vec c) = Z.to_nat numlanes;
  vi_maxlen : length (c_max_vec c) = Z.to_nat numlanes;
  vi_min : vtype.reducemin (c_min_vec c)
           = lmin s0 (window (c_mem c) L0 (c_l_store c)
                        ++ window (c_mem c) (c_r_store c + numlanes) R0);
  vi_max : vtype.reducemax (c_max_vec c)
           = lmax b0 (window (c_mem c) L0 (c_l_store c)
                        ++ window (c_mem c) (c_r_store c + numlanes) R0);
  vi_frame : framed (c_mem c);
  vi_trace : touched (c_mem c);
  vi_fresh : fresh left right c
}.

(** The number of lanes of [v] at or above the pivot. *)
Definition count_ge (v : zmm_t) : Z :=
  Z.of_nat (length (filter (fun x => pivot <=? x) v)).

Lemma count_ge_range v : 0 <= count_ge v <= Z.of_nat (length v).
Proof.
  unfold count_ge. pose proof (filter_length_le (fun x => pivot <=? x) v). lia.
Qed.

Lemma nonempty_of_length (v : zmm_t) : length v = Z.to_nat numlanes -> v <> [].
Proof. intros H E. subst. simpl in H. lia. Qed.

Lemma store_vec_inv left right pending v c :
  vec_inv left right (v ++ pending) c ->
  length v = Z.to_nat numlanes ->
  c_l_store c + (numlanes - count_ge v) <= left ->
  right <= c_r_store c + numlanes - count_ge v ->
  vec_inv left right pending (store_vec numlanes pivot_vec v c)
  /\ c_l_store (store_vec numlanes pivot_vec v c)
     = c_l_store c + (numlanes - count_ge v)
  /\ c_r_store (store_vec numlanes pivot_vec v c) = c_r_store c - count_ge v
  /\ fits numlanes left right pivot_vec v c = true.
Proof.
  intros [Hb Hlo Hhi Hp Hnl Hxl Hmin Hmax Hfr Htr Hfresh] Hv Hl Hr.
  destruct c as [ls rs mn mx m]. unfold fresh in Hfresh. simpl in *.
  assert (Hpv : length v = length pivot_vec).
  { unfold pivot_vec, vtype.set1. now rewrite repeat_length. }
  destruct (partition_vec_effect m ls (rs + numlanes) v pivot_vec mn mx Hpv
              ltac:(lia) ltac:(lia))
    as [m' [Heq [Hsum [Hwl [Hwh [Hout Htrace]]]]]].
  destruct (lanes_set1 numlanes pivot v Hv) as [El Eh].
  fold pivot_vec in El, Eh. rewrite El, Eh in *. clear El Eh.
  fold (count_ge v) in *.
  set (lows := filter (fun x => x <? pivot) v) in *.
  set (highs := filter (fun x => pivot <=? x) v) in *.
  assert (Hnl' : Z.of_nat (length lows) = numlanes - count_ge v) by lia.
  rewrite Hnl' in *.
  assert (Ha : _mm_popcnt_u32 (vtype.ge v pivot_vec) = count_ge v).
  { unfold partition_vec in Heq. now injection Heq. }
  assert (Hfit : fits numlanes left right pivot_vec v (mkCursors ls rs mn mx m)
                 = true).
  { unfold fits. simpl. rewrite Ha.
    apply andb_true_intro; split; apply Z.leb_le; lia. }
  unfold store_vec.
  cbn [c_mem c_l_store c_r_store c_min_vec c_max_vec]. rewrite Heq.
  cbn [c_mem c_l_store c_r_store c_min_vec c_max_vec].
  split; [|split; [now rewrite Ha|split; [now rewrite Ha|exact Hfit]]].
  assert (E1 : window m' L0 (ls + (numlanes - count_ge v))
               = window m L0 ls ++ lows).
  { rewrite (window_split m' L0 ls) by lia. rewrite Hwl. f_equal.
    apply window_ext. intros j Hj. apply Hout. lia. }
  assert (E2 : window m' (rs - count_ge v + numlanes) R0
               = highs ++ window m (rs + numlanes) R0).
  { rewrite (window_split m' _ (rs + numlanes)) by (pose proof (count_ge_range v); lia).
    replace (rs - count_ge v + numlanes) with (rs + numlanes - count_ge v)
      by lia.
    rewrite Hwh. f_equal.
    apply window_ext. intros j Hj. apply Hout. lia. }
  assert (E3 : window m' left right = window m left right).
  { apply window_ext. intros j Hj. apply Hout. lia. }
  assert (Pv : Permutation v (lows ++ highs)).
  { unfold lows, highs.
    rewrite (filter_split_perm (fun x => x <? pivot) v) at 1.
    apply Permutation_app_head.
    erewrite filter_ext; [reflexivity|].
    intro x. simpl. now rewrite Z.leb_antisym. }
  constructor; cbn [c_mem c_l_store c_r_store c_min_vec c_max_vec];
    rewrite ?E1, ?E2, ?E3.
  - pose proof (count_ge_range v). lia.
  - apply Forall_app; split; auto.
    eapply Forall_impl; [|apply Forall_filter_true]. simpl. intros; lia.
  - apply Forall_app; split; auto.
    eapply Forall_impl; [|apply Forall_filter_true]. simpl. intros; lia.
  - clear - Hp Pv. multiset.
  - unfold vtype.min. rewrite lanewise_length; lia.
  - unfold vtype.max. rewrite lanewise_length; lia.
  - rewrite reducemin_min by (try apply nonempty_of_length; lia).
    rewrite Hmin, <- lmin_app. apply lmin_perm. clear - Pv. multiset.
  - rewrite reducemax_max by (try apply nonempty_of_length; lia).
    rewrite Hmax, <- lmax_app. apply lmax_perm. clear - Pv. multiset.
  - intros j Hj. rewrite Hout by (pose proof (count_ge_range v); lia).
    now apply Hfr.
  - rewrite app_assoc in Htrace.
    eapply touched_more; [exact Htr|exact Htrace|].
    pose proof (count_ge_range v).
    assert (Hh : Z.of_nat (length highs) = count_ge v) by reflexivity.
    apply Forall_app; split; apply writes_in_range; lia.
  - destruct Hfresh as [t [Ht [Hlbs Hcov]]].
    pose proof (count_ge_range v).
    assert (Hh : Z.of_nat (length highs) = count_ge v) by reflexivity.
    unfold fresh. cbn [c_mem c_l_store c_r_store].
    eexists. split; [|split].
    + rewrite Htrace, Ht, !app_assoc. reflexivity.
    + rewrite <- app_assoc. apply loads_before_stores_writes.
      * apply loads_before_stores_writes; auto.
        intros i Hi. apply Hcov. lia.
      * intros i Hi. rewrite writes_miss by lia. apply Hcov. lia.
    + intros i Hi. rewrite <- app_assoc, !writes_miss by lia.
      apply Hcov. lia.
Qed.


Definition full_vec (v : zmm_t) : Prop := length v = Z.to_nat numlanes.

(** A batch stored inside the main loop: both sides have room for the whole
    batch, so every store fits and the monitor stays set. *)
Lemma store_batch_watched_inv vs : forall left right pending c fit,
  vec_inv left right (concat vs ++ pending) c ->
  Forall full_vec vs ->
  numlanes * Z.of_nat (length vs) <= left - c_l_store c ->
  numlanes * Z.of_nat (length vs) <= c_r_store c + numlanes - right ->
  fit = true ->
  let r := store_batch_watched numlanes left right pivot_vec vs c fit in
  vec_inv left right pending (fst r)
  /\ snd r = true
  /\ c_r_store (fst r) - c_l_store (fst r)
     = c_r_store c - c_l_store c - numlanes * Z.of_nat (length vs).
Proof.
  induction vs as [|v vs IH]; intros left right pending c fit Hinv Hfull Hl Hr Hf.
  - cbn. cbn in Hinv. split; [exact Hinv|split; [exact Hf|lia]].
  - simpl concat in Hinv. rewrite <- app_assoc in Hinv.
    inversion Hfull as [|? ? Hv Hfull']; subst.
    pose proof (count_ge_range v) as Hc. rewrite Hv in Hc.
    cbn [length] in Hl, Hr. rewrite Nat2Z.inj_succ in Hl, Hr.
    assert (Hn : 0 <= numlanes * Z.of_nat (length vs)) by nia.
    destruct (store_vec_inv left right (concat vs ++ pending) v c Hinv Hv
                ltac:(lia) ltac:(lia)) as [Hinv' [El [Er Hfit]]].
    cbn [store_batch_watched]. rewrite Hfit. simpl andb.
    specialize (IH left right pending (store_vec numlanes pivot_vec v c) true
                  Hinv' Hfull' ltac:(lia) ltac:(lia) eq_refl).
    cbn zeta in IH. destruct IH as [H1 [H2 H3]].
    cbn zeta. split; [exact H1|split; [exact H2|]].
    rewrite H3, El, Er. cbn [length]. rewrite Nat2Z.inj_succ. lia.
Qed.

Lemma vec_inv_repoint x y pending c :
  vec_inv x x pending c ->
  c_l_store c <= y <= c_r_store c + numlanes ->
  vec_inv y y pending c.
Proof.
  intros [Hb Hlo Hhi Hp Hnl Hxl Hmin Hmax Hfr Htr Hfresh] Hy.
  constructor; auto; try lia.
  - rewrite (window_nil _ y y) by lia.
    rewrite (window_nil _ x x) in Hp by lia. exact Hp.
  - destruct Hfresh as [t [Ht [Hlbs Hcov]]]. exists t.
    split; [exact Ht|]. split; [exact Hlbs|].
    intros i Hi. apply Hcov.
    destruct (Z.lt_ge_cases i x); [left|right]; lia.
Qed.

(** A batch stored after the main loop, when nothing is left to load and
    the free gap holds the whole batch. *)
Lemma store_batch_inv vs : forall pending c,
  vec_inv (c_l_store c) (c_l_store c) (concat vs ++ pending) c ->
  Forall full_vec vs ->
  numlanes * Z.of_nat (length vs) <= c_r_store c + numlanes - c_l_store c ->
  let c' := store_batch numlanes pivot_vec vs c in
  vec_inv (c_l_store c') (c_l_store c') pending c'
  /\ c_r_store c' - c_l_store c'
     = c_r_store c - c_l_store c - numlanes * Z.of_nat (length vs).
Proof.
  induction vs as [|v vs IH]; intros pending c Hinv Hfull Hgap.
  - cbn. cbn in Hinv. split; auto. lia.
  - simpl concat in Hinv. rewrite <- app_assoc in Hinv.
    inversion Hfull as [|? ? Hv Hfull']; subst.
    pose proof (count_ge_range v) as Hc. rewrite Hv in Hc.
    cbn [length] in Hgap. rewrite Nat2Z.inj_succ in Hgap.
    assert (Hn : 0 <= numlanes * Z.of_nat (length vs)) by nia.
    apply (vec_inv_repoint _ (c_l_store c + (numlanes - count_ge v))) in Hinv;
      [|lia].
    destruct (store_vec_inv _ _ (concat vs ++ pending) v c Hinv Hv
                ltac:(lia) ltac:(lia)) as [Hinv' [El [Er _]]].
    rewrite <- El in Hinv'.
    cbn [store_batch].
    specialize (IH pending (store_vec numlanes pivot_vec v c) Hinv' Hfull'
                  ltac:(lia)).
    cbn zeta in IH. destruct IH as [H1 H2].
    cbn zeta. split; auto.
    rewrite H2, El, Er. cbn [length]. rewrite Nat2Z.inj_succ. lia.
Qed.


(** ** Loads *)

Lemma loadu_spec p m :
  vtype.loadu numlanes p m
  = (window m p (p + numlanes),
     mkMem (cells m)
       (rev (map Read (offsets p (Z.to_nat numlanes))) ++ trace m)).
Proof.
  unfold vtype.loadu, window. rewrite load_lanes_spec.
  now replace (p + numlanes - p) with numlanes by lia.
Qed.

Lemma window_full m p r : r - p = numlanes -> full_vec (window m p r).
Proof. intro H. unfold full_vec, window. rewrite slice_length. f_equal. lia. Qed.

(** What a sequence of loads leaves: the same cells, and reads inside
    [[lo, hi)] only. *)
Definition loaded (lo hi : Z) (m m1 : mem) : Prop :=
  cells m1 = cells m
  /\ exists t, trace m1 = t ++ trace m
               /\ Forall (fun a => lo <= index_of a < hi) t.

Lemma loaded_refl lo hi m : loaded lo hi m m.
Proof. split; auto. exists []. split; auto. Qed.

Lemma loaded_trans lo hi m m1 m2 :
  loaded lo hi m m1 -> loaded lo hi m1 m2 -> loaded lo hi m m2.
Proof.
  intros [E1 [t1 [T1 F1]]] [E2 [t2 [T2 F2]]]. split; [congruence|].
  exists (t2 ++ t1). split.
  - now rewrite T2, T1, app_assoc.
  - apply Forall_app; auto.
Qed.

Lemma loaded_weaken lo hi lo' hi' m m1 :
  loaded lo hi m m1 -> lo' <= lo -> hi <= hi' -> loaded lo' hi' m m1.
Proof.
  intros [E [t [T F]]] Hlo Hhi. split; auto. exists t. split; auto.
  eapply Forall_impl; [|exact F]. simpl. intros; lia.
Qed.

Lemma loaded_window lo hi m m1 a b :
  loaded lo hi m m1 -> window m1 a b = window m a b.
Proof. intros [E _]. unfold window. now rewrite E. Qed.

Lemma loadu_loaded p m :
  loaded p (p + numlanes) m (snd (vtype.loadu numlanes p m)).
Proof.
  rewrite loadu_spec. simpl. split; auto.
  eexists. split; [reflexivity|].
  apply Forall_rev, Forall_map.
  eapply Forall_impl; [|apply offsets_range]. simpl. intros; lia.
Qed.

Lemma loadu_reads p m :
  reads_cover (fun i => p <= i < p + numlanes) m
    (snd (vtype.loadu numlanes p m)).
Proof.
  eapply reads_cover_weaken; [apply load_lanes_reads|].
  simpl. intros; lia.
Qed.

Lemma loadu_parts p m :
  exists m1,
    vtype.loadu numlanes p m = (window m p (p + numlanes), m1)
    /\ loaded p (p + numlanes) m m1
    /\ reads_cover (fun i => p <= i < p + numlanes) m m1.
Proof.
  pose proof (loadu_loaded p m) as H.
  pose proof (loadu_reads p m) as H'. rewrite loadu_spec in *.
  eexists. split; [reflexivity|split; [exact H|exact H']].
Qed.

Lemma load_batch_spec n : forall ii base m,
  0 <= ii ->
  let r := load_batch numlanes n ii base m in
  concat (fst r)
  = window m (base + ii * numlanes) (base + (ii + Z.of_nat n) * numlanes)
  /\ Forall full_vec (fst r)
  /\ length (fst r) = n
  /\ loaded (base + ii * numlanes) (base + (ii + Z.of_nat n) * numlanes)
       m (snd r).
Proof.
  induction n as [|n IH]; intros ii base m Hii; cbn zeta.
  - cbn [load_batch fst snd concat length]. rewrite window_nil by lia.
    repeat split; auto. exists []. split; auto.
  - cbn [load_batch].
    destruct (loadu_parts (base + ii * numlanes) m) as [m1 [Ev [Hld _]]].
    rewrite Ev.
    specialize (IH (ii + 1) base m1 ltac:(lia)). cbn zeta in IH.
    destruct (load_batch numlanes n (ii + 1) base m1) as [vs m2].
    cbn [fst snd] in *. destruct IH as [Hc [Hf [Hn Hl]]].
    rewrite Nat2Z.inj_succ.
    split; [|split; [|split]].
    + cbn [concat]. rewrite Hc.
      rewrite (window_split m (base + ii * numlanes)
                 (base + ii * numlanes + numlanes)
                 (base + (ii + Z.succ (Z.of_nat n)) * numlanes)) by nia.
      f_equal. rewrite (loaded_window _ _ _ _ _ _ Hld). f_equal; lia.
    + constructor; auto. apply window_full; lia.
    + cbn [length]. lia.
    + eapply loaded_trans.
      * eapply loaded_weaken; [exact Hld| |]; nia.
      * eapply loaded_weaken; [exact Hl| |]; nia.
Qed.

Lemma load_edges_spec K n : forall ii left right m,
  0 <= ii -> ii + Z.of_nat n <= K -> left + K * numlanes <= right ->
  let r := load_edges numlanes K n ii left right m in
  concat (fst (fst r))
  = window m (left + numlanes * ii) (left + numlanes * (ii + Z.of_nat n))
  /\ concat (snd (fst r))
     = window m (right - numlanes * (K - ii))
         (right - numlanes * (K - ii - Z.of_nat n))
  /\ Forall full_vec (fst (fst r)) /\ Forall full_vec (snd (fst r))
  /\ length (fst (fst r)) = n /\ length (snd (fst r)) = n
  /\ loaded left right m (snd r).
Proof.
  induction n as [|n IH]; intros ii left right m Hii HK Hlr; cbn zeta.
  - cbn [load_edges fst snd concat length]. rewrite !window_nil by lia.
    repeat split; auto. exists []. split; auto.
  - cbn [load_edges].
    destruct (loadu_parts (left + numlanes * ii) m) as [m1 [Ev1 [Hld1 _]]].
    rewrite Ev1.
    destruct (loadu_parts (right - numlanes * (K - ii)) m1)
      as [m2 [Ev2 [Hld2 _]]].
    rewrite Ev2.
    rewrite Nat2Z.inj_succ in HK.
    specialize (IH (ii + 1) left right m2 ltac:(lia) ltac:(lia) Hlr).
    cbn zeta in IH.
    destruct (load_edges numlanes K n (ii + 1) left right m2)
      as [[vls vrs] m3].
    cbn [fst snd] in *. destruct IH as [Hc1 [Hc2 [Hf1 [Hf2 [Hn1 [Hn2 Hl]]]]]].
    rewrite Nat2Z.inj_succ.
    assert (E12 : forall a b, window m2 a b = window m a b).
    { intros. rewrite (loaded_window _ _ _ _ _ _ Hld2).
      apply (loaded_window _ _ _ _ _ _ Hld1). }
    split; [|split; [|split; [|split; [|split; [|split]]]]].
    + cbn [concat]. rewrite Hc1, E12.
      rewrite (window_split m (left + numlanes * ii)
                 (left + numlanes * ii + numlanes)
                 (left + numlanes * (ii + Z.succ (Z.of_nat n)))) by nia.
      f_equal. f_equal; lia.
    + cbn [concat]. rewrite Hc2, E12.
      rewrite (window_split m (right - numlanes * (K - ii))
                 (right - numlanes * (K - ii) + numlanes)
                 (right - numlanes * (K - ii - Z.succ (Z.of_nat n)))) by nia.
      f_equal.
      * apply (loaded_window _ _ _ _ _ _ Hld1).
      * f_equal; lia.
    + constructor; auto. apply window_full; lia.
    + constructor; auto. apply window_full; lia.
    + cbn [length]. lia.
    + cbn [length]. lia.
    + eapply loaded_trans; [|exact Hl].
      eapply loaded_trans.
      * eapply loaded_weaken; [exact Hld1| |]; nia.
      * eapply loaded_weaken; [exact Hld2| |]; nia.
Qed.


Lemma load_batch_reads n : forall ii base m,
  reads_cover
    (fun i => base + ii * numlanes <= i
              < base + (ii + Z.of_nat n) * numlanes)
    m (snd (load_batch numlanes n ii base m)).
Proof.
  induction n as [|n IH]; intros ii base m; cbn [load_batch].
  - exists []. repeat split; auto. intros; lia.
  - pose proof (loadu_reads (base + ii * numlanes) m) as H1.
    destruct (vtype.loadu numlanes (base + ii * numlanes) m) as [v m1].
    pose proof (IH (ii + 1) base m1) as H2.
    destruct (load_batch numlanes n (ii + 1) base m1) as [vs m2].
    cbn [snd] in *.
    eapply reads_cover_weaken; [exact (reads_cover_trans _ _ _ _ _ H1 H2)|].
    simpl. intros; lia.
Qed.

Lemma load_edges_reads K n : forall ii left right m,
  reads_cover
    (fun i => left + numlanes * ii <= i
              < left + numlanes * (ii + Z.of_nat n)
              \/ right - numlanes * (K - ii) <= i
                 < right - numlanes * (K - ii - Z.of_nat n))
    m (snd (load_edges numlanes K n ii left right m)).
Proof.
  induction n as [|n IH]; intros ii left right m; cbn [load_edges].
  - exists []. repeat split; auto. intros; lia.
  - pose proof (loadu_reads (left + numlanes * ii) m) as H1.
    destruct (vtype.loadu numlanes (left + numlanes * ii) m) as [vl m1].
    pose proof (loadu_reads (right - numlanes * (K - ii)) m1) as H2.
    destruct (vtype.loadu numlanes (right - numlanes * (K - ii)) m1)
      as [vr m2].
    pose proof (IH (ii + 1) left right m2) as H3.
    destruct (load_edges numlanes K n (ii + 1) left right m2)
      as [[vls vrs] m3].
    cbn [snd] in *.
    eapply reads_cover_weaken;
      [exact (reads_cover_trans _ _ _ _ _
                (reads_cover_trans _ _ _ _ _ H1 H2) H3)|].
    simpl. intros; lia.
Qed.

Lemma loaded_touched lo hi m m1 :
  loaded lo hi m m1 -> L0 <= lo -> hi <= R0 -> touched m -> touched m1.
Proof.
  intros [_ [t [T F]]] Hlo Hhi Ht.
  eapply touched_more; [exact Ht|exact T|].
  eapply Forall_impl; [|exact F]. unfold in_range. simpl. intros; lia.
Qed.

Lemma loaded_framed lo hi m m1 : loaded lo hi m m1 -> framed m -> framed m1.
Proof. intros [E _] Hf j Hj. rewrite E. now apply Hf. Qed.

(** Loading part of the unloaded range into registers. *)
Lemma vec_inv_consume left right left' right' pending c vs m1 lo hi :
  vec_inv left right pending c ->
  left <= left' -> left' <= right' -> right' <= right ->
  Permutation (window (c_mem c) left right)
    (window (c_mem c) left' right' ++ concat vs) ->
  loaded lo hi (c_mem c) m1 -> L0 <= lo -> hi <= R0 ->
  reads_cover (fun i => left <= i < left' \/ right' <= i < right)
    (c_mem c) m1 ->
  vec_inv left' right' (concat vs ++ pending)
    (mkCursors (c_l_store c) (c_r_store c) (c_min_vec c) (c_max_vec c) m1).
Proof.
  intros [Hb Hlo Hhi Hp Hnl Hxl Hmin Hmax Hfr Htr Hfresh]
    H1 H2 H3 Hperm Hld Hl Hh Hrc.
  constructor; cbn [c_mem c_l_store c_r_store c_min_vec c_max_vec];
    rewrite ?(loaded_window _ _ _ _ _ _ Hld); auto.
  - lia.
  - clear - Hp Hperm. multiset.
  - eapply loaded_framed; eauto.
  - eapply loaded_touched; eauto.
  - destruct Hfresh as [t [Ht [Hlbs Hcov]]].
    destruct Hrc as [t1 [T1 [F1 C1]]].
    unfold fresh. cbn [c_mem c_l_store c_r_store].
    exists (t1 ++ t). split; [now rewrite T1, Ht, app_assoc|].
    split; [now rewrite loads_before_stores_reads|].
    intros i Hi. apply last_access_reads; auto.
    destruct (Z.lt_ge_cases i left); [right; apply Hcov; lia|].
    destruct (Z.lt_ge_cases i right); [left; apply C1; lia|].
    right; apply Hcov; lia.
Qed.

Lemma reducemin_set1 x : vtype.reducemin (vtype.set1 numlanes x) = x.
Proof.
  unfold vtype.set1. destruct (Z.to_nat numlanes) as [|n] eqn:E; [lia|].
  simpl. rewrite fold_left_min. clear. induction n; simpl; lia.
Qed.

Lemma reducemax_set1 x : vtype.reducemax (vtype.set1 numlanes x) = x.
Proof.
  unfold vtype.set1. destruct (Z.to_nat numlanes) as [|n] eqn:E; [lia|].
  simpl. rewrite fold_left_max. clear. induction n; simpl; lia.
Qed.

(** Entering the vector phase: the edge registers are loaded, the store
    cursors sit at the ends of the remaining range. *)
Lemma vec_inv_init st left' right' rs vs m1 lo hi :
  scalar_inv st ->
  s_left st <= left' -> left' <= right' -> right' <= s_right st ->
  rs + numlanes = s_right st ->
  Permutation (window (s_mem st) (s_left st) (s_right st))
    (window (s_mem st) left' right' ++ vs) ->
  loaded lo hi (s_mem st) m1 -> L0 <= lo -> hi <= R0 ->
  s_mem st = ms ->
  reads_cover (fun i => s_left st <= i < left' \/ right' <= i < s_right st)
    (s_mem st) m1 ->
  vec_inv left' right' vs
    (mkCursors (s_left st) rs
       (vtype.set1 numlanes (s_smallest st))
       (vtype.set1 numlanes (s_biggest st)) m1).
Proof.
  intros [Hb Hlo Hhi Hp Hmin Hmax Hfr Htr] H1 H2 H3 Hrs Hperm Hld Hl Hh
    Hms Hrc.
  constructor; cbn [c_mem c_l_store c_r_store c_min_vec c_max_vec];
    rewrite ?Hrs, ?(loaded_window _ _ _ _ _ _ Hld); auto.
  - lia.
  - rewrite (window_split (s_mem st) L0 (s_left st) R0),
      (window_split (s_mem st) (s_left st) (s_right st) R0) in Hp by lia.
    clear - Hp Hperm. multiset.
  - unfold vtype.set1. now rewrite repeat_length.
  - unfold vtype.set1. now rewrite repeat_length.
  - now rewrite reducemin_set1.
  - now rewrite reducemax_set1.
  - eapply loaded_framed; eauto.
  - eapply loaded_touched; eauto.
  - destruct Hrc as [t1 [T1 [F1 C1]]].
    unfold fresh. cbn [c_mem c_l_store c_r_store].
    exists t1. split; [now rewrite T1, Hms|].
    rewrite <- (app_nil_r t1).
    split; [now rewrite loads_before_stores_reads|].
    intros i Hi. apply last_access_reads; auto.
    left. apply C1. lia.
Qed.

(** ** The main loop *)

Section Loop.

Variable num_unroll : Z.
Hypothesis unroll_pos : 1 <= num_unroll.

(** Between iterations: the edge registers are pending, the free room on
    the two sides adds up to the two edge batches, the unloaded range is a
    whole number [n] of batches, and no store has crossed a load cursor. *)
Record loop_inv (edges : list Z) (n : nat) (st : loop_state) : Prop := {
  li_vec : vec_inv (ld_left st) (ld_right st) edges (ld_cur st);
  li_free : (ld_left st - c_l_store (ld_cur st))
            + (c_r_store (ld_cur st) + numlanes - ld_right st)
            = 2 * num_unroll * numlanes;
  li_len : ld_right st - ld_left st = Z.of_nat n * (num_unroll * numlanes);
  li_fit : ld_fit st = true
}.

Lemma loop_body_unrolled_inv edges n st :
  loop_inv edges (S n) st ->
  loop_inv edges n (loop_body_unrolled numlanes num_unroll pivot_vec st).
Proof.
  intros [Hv Hfree Hlen Hfit]. destruct st as [left right c fit].
  cbn [ld_left ld_right ld_cur ld_fit] in *. subst fit.
  unfold loop_body_unrolled. cbn [ld_left ld_right ld_cur ld_fit].
  rewrite Nat2Z.inj_succ in Hlen.
  assert (HK : Z.of_nat (Z.to_nat num_unroll) = num_unroll) by lia.
  assert (Hn : 0 <= Z.of_nat n * (num_unroll * numlanes)) by nia.
  pose proof (vi_bounds _ _ _ _ Hv) as Hb.
  destruct (Z.ltb_spec (c_r_store c + numlanes - right) (left - c_l_store c))
    as [Hlt|Hge].
  - pose proof (load_batch_spec (Z.to_nat num_unroll) 0
                  (right - num_unroll * numlanes) (c_mem c) ltac:(lia)) as Hb'.
    cbn zeta in Hb'.
    pose proof (load_batch_reads (Z.to_nat num_unroll) 0
                  (right - num_unroll * numlanes) (c_mem c)) as Hrd.
    destruct (load_batch numlanes (Z.to_nat num_unroll) 0
                (right - num_unroll * numlanes) (c_mem c)) as [vs m1].
    cbn [fst snd] in Hb', Hrd. destruct Hb' as [Hc [Hf [Hlen' Hld]]].
    rewrite HK in *.
    replace (right - num_unroll * numlanes + 0 * numlanes)
      with (right - num_unroll * numlanes) in * by lia.
    replace (right - num_unroll * numlanes + (0 + num_unroll) * numlanes)
      with right in * by lia.
    assert (Hinv1 :
      vec_inv left (right - num_unroll * numlanes) (concat vs ++ edges)
        (mkCursors (c_l_store c) (c_r_store c) (c_min_vec c) (c_max_vec c) m1)).
    { eapply vec_inv_consume; try exact Hld; try exact Hv; try lia.
      - rewrite Hc.
        rewrite (window_split (c_mem c) left
                   (right - num_unroll * numlanes) right) by lia.
        reflexivity.
      - eapply reads_cover_weaken; [exact Hrd|]. simpl. intros; lia. }
    pose proof (store_batch_watched_inv vs _ _ _ _ true Hinv1 Hf) as Hs.
    cbn [c_l_store c_r_store] in Hs. unfold zmm_t in *.
    rewrite Hlen', HK in Hs.
    specialize (Hs ltac:(lia) ltac:(lia) eq_refl). cbn zeta in Hs.
    destruct (store_batch_watched numlanes left
                (right - num_unroll * numlanes) pivot_vec vs _ true)
      as [c' fit'].
    cbn [fst snd] in Hs. destruct Hs as [Hinv2 [Hfit2 Hgap]].
    constructor; cbn [ld_left ld_right ld_cur ld_fit]; auto; lia.
  - pose proof (load_batch_spec (Z.to_nat num_unroll) 0 left (c_mem c)
                  ltac:(lia)) as Hb'.
    cbn zeta in Hb'.
    pose proof (load_batch_reads (Z.to_nat num_unroll) 0 left (c_mem c))
      as Hrd.
    destruct (load_batch numlanes (Z.to_nat num_unroll) 0 left (c_mem c))
      as [vs m1].
    cbn [fst snd] in Hb', Hrd. destruct Hb' as [Hc [Hf [Hlen' Hld]]].
    rewrite HK in *.
    replace (left + 0 * numlanes) with left in * by lia.
    replace (left + (0 + num_unroll) * numlanes)
      with (left + num_unroll * numlanes) in * by lia.
    assert (Hinv1 :
      vec_inv (left + num_unroll * numlanes) right (concat vs ++ edges)
        (mkCursors (c_l_store c) (c_r_store c) (c_min_vec c) (c_max_vec c) m1)).
    { eapply vec_inv_consume; try exact Hld; try exact Hv; try lia.
      - rewrite Hc.
        rewrite (window_split (c_mem c) left
                   (left + num_unroll * numlanes) right) by lia.
        apply Permutation_app_comm.
      - eapply reads_cover_weaken; [exact Hrd|]. simpl. intros; lia. }
    pose proof (store_batch_watched_inv vs _ _ _ _ true Hinv1 Hf) as Hs.
    cbn [c_l_store c_r_store] in Hs. unfold zmm_t in *.
    rewrite Hlen', HK in Hs.
    specialize (Hs ltac:(lia) ltac:(lia) eq_refl). cbn zeta in Hs.
    destruct (store_batch_watched numlanes (left + num_unroll * numlanes)
                right pivot_vec vs _ true)
      as [c' fit'].
    cbn [fst snd] in Hs. destruct Hs as [Hinv2 [Hfit2 Hgap]].
    constructor; cbn [ld_left ld_right ld_cur ld_fit]; auto; lia.
Qed.

Lemma while_loop_unrolled edges n : forall fuel st,
  loop_inv edges n st -> (n <= fuel)%nat ->
  exists st',
    while_loop fuel (loop_body_unrolled numlanes num_unroll pivot_vec) st
    = Some st'
    /\ loop_inv edges 0 st'.
Proof.
  induction n as [|n IH]; intros fuel st Hinv Hfuel.
  - exists st. split; auto.
    pose proof (li_len _ _ _ Hinv) as Hlen.
    destruct fuel; cbn [while_loop];
      destruct (Z.eqb_spec (ld_right st - ld_left st) 0); auto; lia.
  - destruct fuel as [|fuel]; [lia|]. cbn [while_loop].
    pose proof (li_len _ _ _ Hinv) as Hlen.
    destruct (Z.eqb_spec (ld_right st - ld_left st) 0); [nia|].
    apply IH; [|lia]. now apply loop_body_unrolled_inv.
Qed.

End Loop.


(** ** The outcome of a call *)

Record partition_post (r : result) : Prop := {
  pp_bounds : L0 <= res_boundary r <= R0;
  pp_low : Forall (fun x => x < pivot) (window (res_arr r) L0 (res_boundary r));
  pp_high : Forall (fun x => pivot <= x)
              (window (res_arr r) (res_boundary r) R0);
  pp_perm : Permutation (window (res_arr r) L0 R0) (window m0 L0 R0);
  pp_min : res_smallest r = lmin s0 (window m0 L0 R0);
  pp_max : res_biggest r = lmax b0 (window m0 L0 R0);
  pp_frame : framed (res_arr r);
  pp_trace : touched (res_arr r);
  pp_fit : res_stores_fit r = true;
  pp_fresh : exists t, trace (res_arr r) = t ++ trace ms
                       /\ loads_before_stores t = true
}.

Lemma post_of_scalar st :
  scalar_inv st -> s_left st = s_right st -> s_mem st = ms ->
  partition_post
    (mkResult (s_left st) (s_smallest st) (s_biggest st) (s_mem st) true).
Proof.
  intros [Hb Hlo Hhi Hp Hmin Hmax Hfr Htr] E Hms.
  rewrite <- E in *.
  rewrite <- (window_split (s_mem st) L0 (s_left st) R0) in Hmin, Hmax by lia.
  constructor; cbn [res_boundary res_smallest res_biggest res_arr
                      res_stores_fit]; auto.
  - lia.
  - rewrite Hmin. now apply lmin_perm.
  - rewrite Hmax. now apply lmax_perm.
  - exists []. now rewrite Hms.
Qed.

Lemma post_of_vec x c :
  vec_inv x x [] c -> c_r_store c + numlanes = c_l_store c ->
  partition_post
    (mkResult (c_l_store c) (vtype.reducemin (c_min_vec c))
       (vtype.reducemax (c_max_vec c)) (c_mem c) true).
Proof.
  intros [Hb Hlo Hhi Hp Hnl Hxl Hmin Hmax Hfr Htr Hfresh] E.
  rewrite E in *. rewrite (window_nil _ x x), app_nil_r in Hp by lia.
  rewrite <- (window_split (c_mem c) L0 (c_l_store c) R0) in Hmin, Hmax, Hp
    by lia.
  constructor; cbn [res_boundary res_smallest res_biggest res_arr
                      res_stores_fit]; auto.
  - lia.
  - rewrite Hmin. now apply lmin_perm.
  - rewrite Hmax. now apply lmax_perm.
  - destruct Hfresh as [t [Ht [Hlbs _]]]. exists t. auto.
Qed.

Lemma while_loop_ext (b1 b2 : loop_state -> loop_state) :
  (forall st, b1 st = b2 st) ->
  forall fuel st, while_loop fuel b1 st = while_loop fuel b2 st.
Proof.
  intros E fuel. induction fuel as [|fuel IH]; intro st; cbn [while_loop].
  - reflexivity.
  - destruct (_ =? _); auto. now rewrite E, IH.
Qed.

(** The loop body of [partition_avx512] is the unrolled one at factor 1. *)
Lemma loop_body_eq pv st :
  loop_body numlanes pv st = loop_body_unrolled numlanes 1 pv st.
Proof.
  destruct st as [left right c fit].
  unfold loop_body, loop_body_unrolled.
  cbn [ld_left ld_right ld_cur ld_fit].
  change (Z.to_nat 1) with 1%nat. cbn [load_batch].
  rewrite Z.mul_1_l, Z.mul_0_l, !Z.add_0_r.
  destruct (_ <? _).
  - destruct (vtype.loadu _ _ _) as [v m1].
    cbn [store_batch_watched]. unfold store_vec.
    cbn [c_mem c_l_store c_r_store c_min_vec c_max_vec].
    destruct (partition_vec _ _ _ _ _ _ _) as [[[a mn] mx] m2].
    reflexivity.
  - destruct (vtype.loadu _ _ _) as [v m1].
    cbn [store_batch_watched]. unfold store_vec.
    cbn [c_mem c_l_store c_r_store c_min_vec c_max_vec].
    destruct (partition_vec _ _ _ _ _ _ _) as [[[a mn] mx] m2].
    reflexivity.
Qed.

(** The two stores that end [partition_avx512] are a batch of two: after
    the first one the free gap is exactly one register wide. *)
Lemma epilogue_eq c vl vr fit :
  c_r_store (store_vec numlanes pivot_vec vl c)
  = c_l_store (store_vec numlanes pivot_vec vl c) ->
  (let '(amount_ge_pivot, mn, mx, m3) :=
     partition_vec (c_mem c) (c_l_store c) (c_r_store c + numlanes)
       vl pivot_vec (c_min_vec c) (c_max_vec c) in
   let l_store := c_l_store c + (numlanes - amount_ge_pivot) in
   let '(amount_ge_pivot, mn, mx, m4) :=
     partition_vec m3 l_store (l_store + numlanes) vr pivot_vec mn mx in
   let l_store := l_store + (numlanes - amount_ge_pivot) in
   Some (mkResult l_store (vtype.reducemin mn) (vtype.reducemax mx) m4 fit))
  = (let c2 := store_batch numlanes pivot_vec [vl; vr] c in
     Some (mkResult (c_l_store c2) (vtype.reducemin (c_min_vec c2))
             (vtype.reducemax (c_max_vec c2)) (c_mem c2) fit)).
Proof.
  cbn [store_batch]. unfold store_vec.
  destruct (partition_vec (c_mem c) _ _ vl _ _ _) as [[[a mn] mx] m3].
  cbn [c_mem c_l_store c_r_store c_min_vec c_max_vec]. intro E.
  replace (c_r_store c - a + numlanes)
    with (c_l_store c + (numlanes - a) + numlanes) by lia.
  destruct (partition_vec m3 _ _ vr _ _ _) as [[[a2 mn2] mx2] m4].
  reflexivity.
Qed.

(** After the main loop: the two edge batches fill the free gap. *)
Lemma finish_batches K vl vr st :
  1 <= K ->
  loop_inv K (concat vl ++ concat vr) 0 st ->
  Forall full_vec vl -> Forall full_vec vr ->
  Z.of_nat (length vl) = K -> Z.of_nat (length vr) = K ->
  let c := store_batch numlanes pivot_vec vr
             (store_batch numlanes pivot_vec vl (ld_cur st)) in
  partition_post
    (mkResult (c_l_store c) (vtype.reducemin (c_min_vec c))
       (vtype.reducemax (c_max_vec c)) (c_mem c) (ld_fit st)).
Proof.
  intros HK [Hv Hfree Hlen Hfit] Hfl Hfr Hl Hr. cbn zeta.
  rewrite Hfit.
  assert (E : ld_right st = ld_left st) by lia. rewrite E in *.
  pose proof (vi_bounds _ _ _ _ Hv) as Hb.
  apply (vec_inv_repoint _ (c_l_store (ld_cur st))) in Hv; [|lia].
  pose proof (store_batch_inv vl (concat vr) (ld_cur st) Hv Hfl) as H1.
  unfold zmm_t in *. rewrite Hl in H1.
  specialize (H1 ltac:(nia)). cbn zeta in H1. destruct H1 as [Hv1 Hg1].
  rewrite <- (app_nil_r (concat vr)) in Hv1.
  pose proof (store_batch_inv vr [] _ Hv1 Hfr) as H2.
  unfold zmm_t in *. rewrite Hr in H2.
  specialize (H2 ltac:(nia)). cbn zeta in H2. destruct H2 as [Hv2 Hg2].
  eapply post_of_vec; [exact Hv2|]. nia.
Qed.


End VectorPhase.

Lemma remainder_aligned (k : Z) :
  L0 <= R0 -> 0 < k ->
  let st := remainder_loop (Z.to_nat (Z.rem (R0 - L0) k)) pivot
              (mkScalar L0 R0 s0 b0 m0) in
  scalar_inv st
  /\ s_right st - s_left st = k * ((R0 - L0) / k)
  /\ s_right st - s_left st = R0 - L0 - (R0 - L0) mod k.
Proof.
  intros Hle Hk. cbn zeta.
  rewrite Z.rem_mod_nonneg by lia.
  pose proof (Z.mod_pos_bound (R0 - L0) k Hk) as Hm.
  pose proof (Z.div_mod (R0 - L0) k ltac:(lia)) as Hdm.
  pose proof (Z.mod_le (R0 - L0) k ltac:(lia) Hk) as Hml.
  destruct (remainder_loop_inv (Z.to_nat ((R0 - L0) mod k))
              (mkScalar L0 R0 s0 b0 m0) (scalar_inv_init Hle)
              ltac:(cbn [s_left s_right]; lia)) as [Hs Hlen].
  cbn [s_left s_right] in Hlen.
  split; [exact Hs|]. lia.
Qed.

Theorem partition_avx512_correct fuel :
  L0 <= R0 -> (Z.to_nat ((R0 - L0) / numlanes) <= fuel)%nat ->
  exists r,
    partition_avx512 numlanes fuel m0 L0 R0 pivot s0 b0 = Some r
    /\ partition_post
         (s_mem (after_remainder numlanes m0 L0 R0 pivot s0 b0)) r.
Proof.
  intros Hle Hfuel. unfold partition_avx512, after_remainder.
  destruct (remainder_aligned numlanes Hle lanes_pos) as [Hs [Hlen _]].
  remember (remainder_loop (Z.to_nat (Z.rem (R0 - L0) numlanes)) pivot
              (mkScalar L0 R0 s0 b0 m0)) as st eqn:Est. clear Est.
  pose proof (si_bounds _ Hs) as Hb.
  set (q := (R0 - L0) / numlanes) in *.
  destruct (Z.eqb_spec (s_left st) (s_right st)) as [E|Hne].
  { eexists. split; [reflexivity|]. now apply post_of_scalar. }
  destruct (Z.eqb_spec (s_right st - s_left st) numlanes) as [E1|Hne1].
  - (* exactly one register *)
    destruct (loadu_parts (s_left st) (s_mem st)) as [m1 [Ev [Hld Hrd]]].
    rewrite Ev.
    set (v := window (s_mem st) (s_left st) (s_left st + numlanes)) in *.
    set (c0 := mkCursors (s_left st) (s_left st)
                 (vtype.set1 numlanes (s_smallest st))
                 (vtype.set1 numlanes (s_biggest st)) m1).
    assert (Hinv0 : vec_inv (s_mem st) (c_l_store c0) (c_l_store c0)
                      (concat [v] ++ []) c0).
    { unfold c0. cbn [c_l_store concat]. rewrite !app_nil_r.
      eapply vec_inv_init; try exact Hs; try exact Hld; try lia.
      - rewrite (window_nil _ (s_left st) (s_left st)) by lia. unfold v.
        replace (s_left st + numlanes) with (s_right st) by lia.
        reflexivity.
      - reflexivity.
      - eapply reads_cover_weaken; [exact Hrd|]. simpl. intros; lia. }
    pose proof (store_batch_inv _ [v] [] c0 Hinv0) as H1.
    specialize (H1 ltac:(repeat constructor; apply window_full; lia)
                  ltac:(unfold c0; cbn [c_l_store c_r_store length]; lia)).
    cbn zeta in H1. destruct H1 as [Hv1 Hg1].
    pose proof (post_of_vec _ _ _ Hv1) as Hpost.
    revert Hpost Hg1. cbn [store_batch]. unfold store_vec, c0.
    cbn [c_mem c_l_store c_r_store c_min_vec c_max_vec].
    fold pivot_vec.
    destruct (partition_vec _ _ _ _ _ _ _) as [[[a mn] mx] m2].
    cbn [c_mem c_l_store c_r_store c_min_vec c_max_vec length].
    intros Hpost Hg1.
    eexists. split; [reflexivity|]. apply Hpost. lia.
  - (* two registers or more *)
    assert (Hq : 2 <= q) by nia.
    assert (H2 : 2 * numlanes <= s_right st - s_left st) by nia.
    destruct (loadu_parts (s_left st) (s_mem st)) as [m1 [Ev1 [Hld1 Hrd1]]].
    rewrite Ev1.
    destruct (loadu_parts (s_right st - numlanes) m1)
      as [m2 [Ev2 [Hld2 Hrd2]]].
    rewrite Ev2.
    rewrite (loaded_window _ _ _ _ _ _ Hld1).
    replace (s_right st - numlanes + numlanes) with (s_right st) in * by lia.
    set (vl := window (s_mem st) (s_left st) (s_left st + numlanes)).
    set (vr := window (s_mem st) (s_right st - numlanes) (s_right st)).
    rewrite (while_loop_ext _ _ (loop_body_eq _)).
    set (st0 := mkLoop _ _ _ _).
    assert (Hinv0 : loop_inv (s_mem st) 1 (concat [vl] ++ concat [vr])
                      (Z.to_nat (q - 2)) st0).
    { unfold st0. constructor; cbn [ld_left ld_right ld_cur ld_fit
                                    c_l_store c_r_store]; try lia.
      - cbn [concat]. rewrite !app_nil_r.
        eapply (vec_inv_init _ st _ _ _ _ m2 (s_left st) (s_right st));
          try exact Hs; try lia.
        + rewrite (window_split (s_mem st) (s_left st)
                     (s_left st + numlanes) (s_right st)) by lia.
          rewrite (window_split (s_mem st) (s_left st + numlanes)
                     (s_right st - numlanes) (s_right st)) by lia.
          fold vl vr. clear. multiset.
        + eapply loaded_trans; eapply loaded_weaken; eauto; lia.
        + reflexivity.
        + eapply reads_cover_weaken;
            [exact (reads_cover_trans _ _ _ _ _ Hrd1 Hrd2)|].
          simpl. intros; lia.
      - rewrite Z2Nat.id by lia. lia. }
    destruct (while_loop_unrolled _ 1 ltac:(lia) _ _ fuel st0 Hinv0)
      as [st' [Ew Hinv']].
    { unfold q in *. lia. }
    fold pivot_vec. rewrite Ew.
    pose proof (finish_batches _ 1 [vl] [vr] st' ltac:(lia) Hinv') as Hpost.
    specialize (Hpost ltac:(repeat constructor; apply window_full; lia)
                  ltac:(repeat constructor; apply window_full; lia)
                  eq_refl eq_refl).
    cbn zeta in Hpost.
    rewrite epilogue_eq.
    + eexists. split; [reflexivity|]. exact Hpost.
    + destruct Hinv' as [Hv Hfree Hlen' Hfit].
      assert (E : ld_right st' = ld_left st') by lia. rewrite E in *.
      pose proof (vi_bounds _ _ _ _ _ Hv) as Hb'.
      apply (vec_inv_repoint _ _ (c_l_store (ld_cur st'))) in Hv; [|lia].
      pose proof (store_batch_inv _ [vl] (concat [vr]) (ld_cur st') Hv)
        as H1.
      specialize (H1 ltac:(repeat constructor; apply window_full; lia)
                    ltac:(cbn [length]; lia)).
      cbn zeta in H1. destruct H1 as [_ Hg1].
      cbn [store_batch length] in Hg1. lia.
Qed.


Theorem partition_avx512_unrolled_correct num_unroll fuel :
  1 <= num_unroll -> L0 <= R0 ->
  (Z.to_nat ((R0 - L0) / numlanes) <= fuel)%nat ->
  exists r,
    partition_avx512_unrolled numlanes num_unroll fuel m0 L0 R0 pivot s0 b0
    = Some r
    /\ partition_post
         (s_mem (after_remainder (unrolled_width numlanes num_unroll L0 R0)
                   m0 L0 R0 pivot s0 b0)) r.
Proof.
  intros HK Hle Hfuel.
  unfold partition_avx512_unrolled, unrolled_width, after_remainder.
  destruct (Z.leb_spec (R0 - L0) (2 * num_unroll * numlanes)) as [Hsmall|Hbig].
  { now apply partition_avx512_correct. }
  assert (Hkn : 0 < num_unroll * numlanes) by nia.
  destruct (remainder_aligned (num_unroll * numlanes) Hle Hkn)
    as [Hs [Hlen Hlen']].
  remember (remainder_loop
              (Z.to_nat (Z.rem (R0 - L0) (num_unroll * numlanes))) pivot
              (mkScalar L0 R0 s0 b0 m0)) as st eqn:Est. clear Est.
  pose proof (si_bounds _ Hs) as Hb.
  pose proof (Z.mod_pos_bound (R0 - L0) (num_unroll * numlanes) Hkn) as Hm.
  set (q := (R0 - L0) / (num_unroll * numlanes)) in *.
  assert (Hq : 2 <= q) by nia.
  assert (H2 : 2 * (num_unroll * numlanes) <= s_right st - s_left st) by nia.
  destruct (Z.eqb_spec (s_left st) (s_right st)) as [E|Hne]; [lia|].
  assert (HKn : Z.of_nat (Z.to_nat num_unroll) = num_unroll) by lia.
  pose proof (load_edges_spec num_unroll (Z.to_nat num_unroll) 0
                (s_left st) (s_right st) (s_mem st)
                ltac:(lia) ltac:(lia) ltac:(lia)) as He.
  cbn zeta in He.
  pose proof (load_edges_reads num_unroll (Z.to_nat num_unroll) 0
                (s_left st) (s_right st) (s_mem st)) as Hrd.
  destruct (load_edges numlanes num_unroll (Z.to_nat num_unroll) 0
              (s_left st) (s_right st) (s_mem st)) as [[vl vr] m1].
  cbn [fst snd] in He, Hrd. rewrite HKn in Hrd.
  destruct He as [Hc1 [Hc2 [Hf1 [Hf2 [Hn1 [Hn2 Hld]]]]]].
  rewrite HKn in Hc1, Hc2.
  replace (s_left st + numlanes * 0) with (s_left st) in Hc1 by lia.
  replace (s_left st + numlanes * (0 + num_unroll))
    with (s_left st + num_unroll * numlanes) in Hc1 by lia.
  replace (s_right st - numlanes * (num_unroll - 0))
    with (s_right st - num_unroll * numlanes) in Hc2 by lia.
  replace (s_right st - numlanes * (num_unroll - 0 - num_unroll))
    with (s_right st) in Hc2 by lia.
  set (st0 := mkLoop _ _ _ _).
  assert (Hinv0 : loop_inv (s_mem st) num_unroll (concat vl ++ concat vr)
                    (Z.to_nat (q - 2)) st0).
  { unfold st0. constructor; cbn [ld_left ld_right ld_cur ld_fit
                                  c_l_store c_r_store]; try lia.
    - eapply (vec_inv_init _ st _ _ _ _ m1 (s_left st) (s_right st));
        try exact Hs; try exact Hld; try lia.
      + rewrite Hc1, Hc2.
        rewrite (window_split (s_mem st) (s_left st)
                   (s_left st + num_unroll * numlanes) (s_right st)) by lia.
        rewrite (window_split (s_mem st) (s_left st + num_unroll * numlanes)
                   (s_right st - num_unroll * numlanes) (s_right st)) by lia.
        clear. multiset.
      + reflexivity.
      + eapply reads_cover_weaken; [exact Hrd|]. simpl. intros; lia.
    - rewrite Z2Nat.id by lia. lia. }
  destruct (while_loop_unrolled _ num_unroll HK _ _ fuel st0 Hinv0)
    as [st' [Ew Hinv']].
  { assert (q <= (R0 - L0) / numlanes); [|lia].
    apply Z.div_le_compat_l; nia. }
  fold pivot_vec. rewrite Ew.
  eexists. split; [reflexivity|].
  unfold zmm_t in *.
  apply (finish_batches _ num_unroll vl vr st' HK Hinv' Hf1 Hf2); lia.
Qed.

(** At unroll factor 1 the unrolled routine runs the very steps of
    [partition_avx512]. *)
Lemma unrolled_once_eq fuel :
  L0 <= R0 -> (Z.to_nat ((R0 - L0) / numlanes) <= fuel)%nat ->
  partition_avx512_unrolled numlanes 1 fuel m0 L0 R0 pivot s0 b0
  = partition_avx512 numlanes fuel m0 L0 R0 pivot s0 b0.
Proof.
  intros Hle Hfuel. unfold partition_avx512_unrolled.
  destruct (Z.leb_spec (R0 - L0) (2 * 1 * numlanes)) as [Hsmall|Hbig];
    [reflexivity|].
  unfold partition_avx512. rewrite !Z.mul_1_l.
  destruct (remainder_aligned numlanes Hle lanes_pos) as [Hs [Hlen Hlen']].
  remember (remainder_loop (Z.to_nat (Z.rem (R0 - L0) numlanes)) pivot
              (mkScalar L0 R0 s0 b0 m0)) as st eqn:Est. clear Est.
  pose proof (si_bounds _ Hs) as Hb.
  pose proof (Z.mod_pos_bound (R0 - L0) numlanes lanes_pos) as Hm.
  set (q := (R0 - L0) / numlanes) in *.
  assert (Hq : 2 <= q) by nia.
  assert (H2 : 2 * numlanes <= s_right st - s_left st) by nia.
  destruct (Z.eqb_spec (s_left st) (s_right st)) as [E|Hne]; [lia|].
  destruct (Z.eqb_spec (s_right st - s_left st) numlanes) as [E1|Hne1];
    [lia|].
  change (Z.to_nat 1) with 1%nat. cbn [load_edges].
  replace (s_left st + numlanes * 0) with (s_left st) by lia.
  replace (s_right st - numlanes * (1 - 0)) with (s_right st - numlanes)
    by lia.
  destruct (loadu_parts (s_left st) (s_mem st)) as [m1 [Ev1 [Hld1 Hrd1]]].
  rewrite Ev1.
  destruct (loadu_parts (s_right st - numlanes) m1)
    as [m2 [Ev2 [Hld2 Hrd2]]].
  rewrite Ev2.
  rewrite (loaded_window _ _ _ _ _ _ Hld1).
  replace (s_right st - numlanes + numlanes) with (s_right st) in * by lia.
  set (vl := window (s_mem st) (s_left st) (s_left st + numlanes)).
  set (vr := window (s_mem st) (s_right st - numlanes) (s_right st)).
  rewrite (while_loop_ext (loop_body numlanes _) _ (loop_body_eq _)).
  set (st0 := mkLoop _ _ _ _).
  assert (Hinv0 : loop_inv (s_mem st) 1 (concat [vl] ++ concat [vr])
                    (Z.to_nat (q - 2)) st0).
  { unfold st0. constructor; cbn [ld_left ld_right ld_cur ld_fit
                                  c_l_store c_r_store]; try lia.
    - cbn [concat]. rewrite !app_nil_r.
      eapply (vec_inv_init _ st _ _ _ _ m2 (s_left st) (s_right st));
        try exact Hs; try lia.
      + rewrite (window_split (s_mem st) (s_left st)
                   (s_left st + numlanes) (s_right st)) by lia.
        rewrite (window_split (s_mem st) (s_left st + numlanes)
                   (s_right st - numlanes) (s_right st)) by lia.
        fold vl vr. clear. multiset.
      + eapply loaded_trans; eapply loaded_weaken; eauto; lia.
      + reflexivity.
      + eapply reads_cover_weaken;
          [exact (reads_cover_trans _ _ _ _ _ Hrd1 Hrd2)|].
        simpl. intros; lia.
    - rewrite Z2Nat.id by lia. lia. }
  destruct (while_loop_unrolled _ 1 ltac:(lia) _ _ fuel st0 Hinv0)
    as [st' [Ew Hinv']].
  { unfold q in *. lia. }
  fold pivot_vec. rewrite Ew.
  rewrite epilogue_eq; [reflexivity|].
  destruct Hinv' as [Hv Hfree Hlen'' Hfit].
  assert (E : ld_right st' = ld_left st') by lia. rewrite E in *.
  pose proof (vi_bounds _ _ _ _ _ Hv) as Hb'.
  apply (vec_inv_repoint _ _ (c_l_store (ld_cur st'))) in Hv; [|lia].
  pose proof (store_batch_inv _ [vl] (concat [vr]) (ld_cur st') Hv) as H1.
  specialize (H1 ltac:(repeat constructor; apply window_full; lia)
                ltac:(cbn [length]; lia)).
  cbn zeta in H1. destruct H1 as [_ Hg1].
  cbn [store_batch length] in Hg1. lia.
Qed.

End Correctness.

Lemma slice_Forall (P : Z -> Prop) f l n :
  Forall P (slice f l n) <-> (forall i, l <= i < l + Z.of_nat n -> P (f i)).
Proof.
  revert l. induction n as [|n IH]; intro l; simpl slice.
  - split; [intros _ i Hi; lia|constructor].
  - split.
    + intros H i Hi. inversion H as [|? ? Hx Hr]; subst.
      destruct (Z.eq_dec i l) as [->|Hne]; auto.
      apply (proj1 (IH (l + 1)) Hr). lia.
    + intro H. constructor; [apply H; lia|].
      apply IH. intros i Hi. apply H. lia.
Qed.

Lemma window_Forall (P : Z -> Prop) m l r :
  Forall P (window m l r) <-> (forall i, l <= i < r -> P (cells m i)).
Proof.
  unfold window. rewrite slice_Forall. split; intros H i Hi; apply H; lia.
Qed.

Lemma lmin_spec s l :
  lmin s l <= s /\ Forall (fun x => lmin s l <= x) l
  /\ (lmin s l = s \/ In (lmin s l) l).
Proof.
  induction l as [|x l [H1 [H2 H3]]]; simpl.
  - repeat split; auto. lia.
  - split; [lia|]. split.
    + constructor; [lia|]. eapply Forall_impl; [|exact H2]. simpl; intros; lia.
    + destruct (Z.min_spec x (lmin s l)) as [[_ E]|[_ E]]; rewrite E; tauto.
Qed.

Lemma lmax_spec s l :
  s <= lmax s l /\ Forall (fun x => x <= lmax s l) l
  /\ (lmax s l = s \/ In (lmax s l) l).
Proof.
  induction l as [|x l [H1 [H2 H3]]]; simpl.
  - repeat split; auto. lia.
  - split; [lia|]. split.
    + constructor; [lia|]. eapply Forall_impl; [|exact H2]. simpl; intros; lia.
    + destruct (Z.max_spec x (lmax s l)) as [[_ E]|[_ E]]; rewrite E; tauto.
Qed.

(** The two sides of a partitioned range are determined, as multisets, by
    the range on entry, and so is the boundary. *)
Lemma post_sides m0 L0 R0 pivot s0 b0 ms r :
  partition_post m0 L0 R0 pivot s0 b0 ms r ->
  Permutation (window (res_arr r) L0 (res_boundary r))
    (filter (fun x => x <? pivot) (window m0 L0 R0))
  /\ Permutation (window (res_arr r) (res_boundary r) R0)
       (filter (fun x => pivot <=? x) (window m0 L0 R0))
  /\ res_boundary r
     = L0 + Z.of_nat (length (filter (fun x => x <? pivot) (window m0 L0 R0))).
Proof.
  intros [Hb Hlo Hhi Hp _ _ _ _ _ _].
  rewrite (window_split (res_arr r) L0 (res_boundary r) R0) in Hp by lia.
  assert (E1 : filter (fun x => x <? pivot)
                 (window (res_arr r) L0 (res_boundary r)
                    ++ window (res_arr r) (res_boundary r) R0)
               = window (res_arr r) L0 (res_boundary r)).
  { rewrite filter_app, filter_all, filter_none, app_nil_r; auto.
    - eapply Forall_impl; [|exact Hhi]. simpl; intros; lia.
    - eapply Forall_impl; [|exact Hlo]. simpl; intros; lia. }
  assert (E2 : filter (fun x => pivot <=? x)
                 (window (res_arr r) L0 (res_boundary r)
                    ++ window (res_arr r) (res_boundary r) R0)
               = window (res_arr r) (res_boundary r) R0).
  { rewrite filter_app, filter_none, filter_all; auto.
    - eapply Forall_impl; [|exact Hhi]. simpl; intros; lia.
    - eapply Forall_impl; [|exact Hlo]. simpl; intros; lia. }
  pose proof (filter_perm (fun x => x <? pivot) _ _ Hp) as P1.
  pose proof (filter_perm (fun x => pivot <=? x) _ _ Hp) as P2.
  rewrite E1 in P1. rewrite E2 in P2.
  split; [exact P1|split; [exact P2|]].
  rewrite <- (Permutation_length P1).
  pose proof (window_length (res_arr r) L0 (res_boundary r)). lia.
Qed.

(** Both entry points on the same call. *)
Lemma both_correct numlanes num_unroll fuel m left right pivot s b :
  0 < numlanes <= 32 -> 1 <= num_unroll -> left <= right ->
  (Z.to_nat ((right - left) / numlanes) <= fuel)%nat ->
  exists r1 r2,
    partition_avx512 numlanes fuel m left right pivot s b = Some r1
    /\ partition_avx512_unrolled numlanes num_unroll fuel m left right pivot
         s b = Some r2
    /\ partition_post m left right pivot s b
         (s_mem (after_remainder numlanes m left right pivot s b)) r1
    /\ partition_post m left right pivot s b
         (s_mem (after_remainder
                   (unrolled_width numlanes num_unroll left right)
                   m left right pivot s b)) r2.
Proof.
  intros [Hn Hm] HK Hle Hfuel.
  destruct (partition_avx512_correct numlanes Hn Hm m left right pivot s b
              fuel Hle Hfuel) as [r1 [E1 P1]].
  destruct (partition_avx512_unrolled_correct numlanes Hn Hm m left right
              pivot s b num_unroll fuel HK Hle Hfuel) as [r2 [E2 P2]].
  exists r1, r2. auto.
Qed.

(** * The properties of the specification *)

Lemma post_split m0 L0 R0 pivot s0 b0 ms r :
  partition_post m0 L0 R0 pivot s0 b0 ms r ->
  split_at (res_arr r) L0 R0 pivot (res_boundary r).
Proof.
  intros [Hb Hlo Hhi _ _ _ _ _ _ _]. split; [exact Hb|].
  split.
  - exact (proj1 (window_Forall _ _ _ _) Hlo).
  - exact (proj1 (window_Forall _ _ _ _) Hhi).
Qed.

(** The worked examples of the specification (section 8): one full
    register, all elements equal to the pivot, and sixteen increasing
    elements at unroll factors 1 and 2. *)

Example one_full_register :
  outcome 8 (partition_avx512 8 0 (buffer 0 [5; 3; 8; 1; 9; 2; 7; 4])
               0 8 5 5 5)
  = Some (4, [3; 1; 2; 4; 5; 8; 9; 7], 1, 9).
Proof. vm_compute. reflexivity. Qed.

Example ties_go_high :
  outcome 4 (partition_avx512 8 0 (buffer 0 [5; 5; 5; 5]) 0 4 5 5 5)
  = Some (0, [5; 5; 5; 5], 5, 5).
Proof. vm_compute. reflexivity. Qed.

Example sixteen_increasing :
  outcome 16
    (partition_avx512_unrolled 8 1 0
       (buffer 0 [1; 2; 3; 4; 5; 6; 7; 8; 9; 10; 11; 12; 13; 14; 15; 16])
       0 16 9 9 9)
  = Some (8, [1; 2; 3; 4; 5; 6; 7; 8; 9; 10; 11; 12; 13; 14; 15; 16], 1, 16)
  /\ outcome 16
       (partition_avx512_unrolled 8 2 0
          (buffer 0 [1; 2; 3; 4; 5; 6; 7; 8; 9; 10; 11; 12; 13; 14; 15; 16])
          0 16 9 9 9)
     = Some (8, [1; 2; 3; 4; 5; 6; 7; 8; 9; 10; 11; 12; 13; 14; 15; 16], 1,
             16).
Proof. split; vm_compute; reflexivity. Qed.

(** C1. On a valid range, [partition_avx512] and
    [partition_avx512_unrolled] return a boundary [b] such that every
    element at an index of [[left, b)] is below the pivot and every element
    at an index of [[b, right)] is at or above it; elements equal to the
    pivot are on the high side. *)
Theorem partition_splits_at_boundary
    numlanes num_unroll fuel m left right pivot s b :
  0 < numlanes <= 32 -> 1 <= num_unroll -> left <= right ->
  (Z.to_nat ((right - left) / numlanes) <= fuel)%nat ->
  (exists r,
      partition_avx512 numlanes fuel m left right pivot s b = Some r
      /\ split_at (res_arr r) left right pivot (res_boundary r))
  /\ (exists r,
         partition_avx512_unrolled numlanes num_unroll fuel m left right
           pivot s b = Some r
         /\ split_at (res_arr r) left right pivot (res_boundary r)).
Proof.
  intros Hn HK Hle Hfuel.
  destruct (both_correct numlanes num_unroll fuel m left right pivot s b
              Hn HK Hle Hfuel) as [r1 [r2 [E1 [E2 [P1 P2]]]]].
  split; [exists r1|exists r2]; split; auto; eapply post_split; eauto.
Qed.

Lemma partition_splits_at_boundary_witness :
  (exists r,
      partition_avx512 4 5 sample 0 23 9 100 (-100) = Some r
      /\ split_at (res_arr r) 0 23 9 (res_boundary r))
  /\ (exists r,
         partition_avx512_unrolled 4 2 5 sample 0 23 9 100 (-100) = Some r
         /\ split_at (res_arr r) 0 23 9 (res_boundary r)).
Proof.
  apply (partition_splits_at_boundary 4 2 5 sample 0 23 9 100 (-100));
    [lia|lia|lia|vm_compute; lia].
Defined.

(** C2. A partition call keeps the multiset of the elements stored in
    [[left, right)], leaves every slot outside the range as it was, and
    neither reads nor writes a slot outside the range. *)
Theorem partition_conserves_range
    numlanes num_unroll fuel m left right pivot s b :
  0 < numlanes <= 32 -> 1 <= num_unroll -> left <= right ->
  (Z.to_nat ((right - left) / numlanes) <= fuel)%nat ->
  (exists r,
      partition_avx512 numlanes fuel m left right pivot s b = Some r
      /\ Permutation (window (res_arr r) left right) (window m left right)
      /\ (forall j, j < left \/ right <= j ->
                    cells (res_arr r) j = cells m j)
      /\ exists t, trace (res_arr r) = t ++ trace m
                   /\ Forall (in_range left right) t)
  /\ (exists r,
         partition_avx512_unrolled numlanes num_unroll fuel m left right
           pivot s b = Some r
         /\ Permutation (window (res_arr r) left right) (window m left right)
         /\ (forall j, j < left \/ right <= j ->
                       cells (res_arr r) j = cells m j)
         /\ exists t, trace (res_arr r) = t ++ trace m
                      /\ Forall (in_range left right) t).
Proof.
  intros Hn HK Hle Hfuel.
  destruct (both_correct numlanes num_unroll fuel m left right pivot s b
              Hn HK Hle Hfuel) as [r1 [r2 [E1 [E2 [P1 P2]]]]].
  split; [exists r1|exists r2]; (split; [assumption|]).
  - destruct P1 as [_ _ _ Hp _ _ Hfr Htr _ _]. auto.
  - destruct P2 as [_ _ _ Hp _ _ Hfr Htr _ _]. auto.
Qed.

Lemma partition_conserves_range_witness :
  (exists r,
      partition_avx512 4 5 sample 0 23 9 100 (-100) = Some r
      /\ Permutation (window (res_arr r) 0 23) (window sample 0 23)
      /\ (forall j, j < 0 \/ 23 <= j -> cells (res_arr r) j = cells sample j)
      /\ exists t, trace (res_arr r) = t ++ trace sample
                   /\ Forall (in_range 0 23) t)
  /\ (exists r,
         partition_avx512_unrolled 4 2 5 sample 0 23 9 100 (-100) = Some r
         /\ Permutation (window (res_arr r) 0 23) (window sample 0 23)
         /\ (forall j, j < 0 \/ 23 <= j ->
                       cells (res_arr r) j = cells sample j)
         /\ exists t, trace (res_arr r) = t ++ trace sample
                      /\ Forall (in_range 0 23) t).
Proof.
  apply (partition_conserves_range 4 2 5 sample 0 23 9 100 (-100));
    [lia|lia|lia|vm_compute; lia].
Defined.

Lemma post_bounds m0 L0 R0 pivot s0 b0 ms r :
  partition_post m0 L0 R0 pivot s0 b0 ms r ->
  bounds_of_range m0 L0 R0 s0 b0 r.
Proof.
  intros [_ _ _ _ Hmin Hmax _ _ _ _].
  destruct (lmin_spec s0 (window m0 L0 R0)) as [A1 [A2 A3]].
  destruct (lmax_spec b0 (window m0 L0 R0)) as [B1 [B2 B3]].
  unfold bounds_of_range. rewrite Hmin, Hmax.
  repeat split; auto.
  - exact (proj1 (Forall_forall _ _) A2 x H).
  - exact (proj1 (Forall_forall _ _) B2 x H).
Qed.

(** C3. After a partition call [*smallest] is the minimum of its incoming
    value and the elements of the range, and [*biggest] the maximum of its
    incoming value and the elements of the range; the incoming values are
    never reset, so the result is never worse than what was passed in. *)
Theorem partition_bounds_sound
    numlanes num_unroll fuel m left right pivot s b :
  0 < numlanes <= 32 -> 1 <= num_unroll -> left <= right ->
  (Z.to_nat ((right - left) / numlanes) <= fuel)%nat ->
  (exists r,
      partition_avx512 numlanes fuel m left right pivot s b = Some r
      /\ bounds_of_range m left right s b r)
  /\ (exists r,
         partition_avx512_unrolled numlanes num_unroll fuel m left right
           pivot s b = Some r
         /\ bounds_of_range m left right s b r).
Proof.
  intros Hn HK Hle Hfuel.
  destruct (both_correct numlanes num_unroll fuel m left right pivot s b
              Hn HK Hle Hfuel) as [r1 [r2 [E1 [E2 [P1 P2]]]]].
  split; [exists r1|exists r2]; split; auto; eapply post_bounds; eauto.
Qed.

Lemma partition_bounds_sound_witness :
  (exists r,
      partition_avx512 4 5 sample 0 23 9 100 (-100) = Some r
      /\ bounds_of_range sample 0 23 100 (-100) r)
  /\ (exists r,
         partition_avx512_unrolled 4 2 5 sample 0 23 9 100 (-100) = Some r
         /\ bounds_of_range sample 0 23 100 (-100) r).
Proof.
  apply (partition_bounds_sound 4 2 5 sample 0 23 9 100 (-100));
    [lia|lia|lia|vm_compute; lia].
Defined.

(** C4. For every unroll factor [num_unroll >= 1] (1, 2, 4 and 8 among
    them) [partition_avx512_unrolled] returns the same boundary as
    [partition_avx512] on the same input, and the low side [[left, b)] and
    the high side [[b, right)] hold the same multisets of elements; the
    order inside a side may differ. *)
Theorem unrolled_agrees_with_plain
    numlanes num_unroll fuel m left right pivot s b :
  0 < numlanes <= 32 -> 1 <= num_unroll -> left <= right ->
  (Z.to_nat ((right - left) / numlanes) <= fuel)%nat ->
  exists r1 r2,
    partition_avx512 numlanes fuel m left right pivot s b = Some r1
    /\ partition_avx512_unrolled numlanes num_unroll fuel m left right
         pivot s b = Some r2
    /\ res_boundary r2 = res_boundary r1
    /\ Permutation (window (res_arr r2) left (res_boundary r2))
         (window (res_arr r1) left (res_boundary r1))
    /\ Permutation (window (res_arr r2) (res_boundary r2) right)
         (window (res_arr r1) (res_boundary r1) right).
Proof.
  intros Hn HK Hle Hfuel.
  destruct (both_correct numlanes num_unroll fuel m left right pivot s b
              Hn HK Hle Hfuel) as [r1 [r2 [E1 [E2 [P1 P2]]]]].
  exists r1, r2. split; [exact E1|]. split; [exact E2|].
  destruct (post_sides _ _ _ _ _ _ _ _ P1) as [L1 [H1 B1]].
  destruct (post_sides _ _ _ _ _ _ _ _ P2) as [L2 [H2 B2]].
  split; [congruence|]. split.
  - rewrite L2. symmetry. exact L1.
  - rewrite H2. symmetry. exact H1.
Qed.

Lemma unrolled_agrees_with_plain_witness :
  exists r1 r2,
    partition_avx512 4 5 sample 0 23 9 100 (-100) = Some r1
    /\ partition_avx512_unrolled 4 2 5 sample 0 23 9 100 (-100) = Some r2
    /\ res_boundary r2 = res_boundary r1
    /\ Permutation (window (res_arr r2) 0 (res_boundary r2))
         (window (res_arr r1) 0 (res_boundary r1))
    /\ Permutation (window (res_arr r2) (res_boundary r2) 23)
         (window (res_arr r1) (res_boundary r1) 23).
Proof.
  apply (unrolled_agrees_with_plain 4 2 5 sample 0 23 9 100 (-100));
    [lia|lia|lia|vm_compute; lia].
Defined.

(** C5. [partition_vec] writes the lanes of [curr_vec] below their pivot
    lane, packed in ascending lane order, from index [left] on, and the
    lanes at or above it, packed in ascending lane order, into the slots
    that end at index [right]; it returns the number of the latter.  It
    writes [numlanes] elements in all, and when [right - left >= numlanes]
    the two regions do not overlap. *)
Theorem partition_vec_packs_both_sides
    numlanes m left right curr_vec pivot_vec smallest_vec biggest_vec :
  0 < numlanes <= 32 ->
  length curr_vec = Z.to_nat numlanes ->
  length pivot_vec = Z.to_nat numlanes ->
  numlanes <= right - left ->
  let lows := low_lanes curr_vec pivot_vec in
  let highs := high_lanes curr_vec pivot_vec in
  let count_ge := Z.of_nat (length highs) in
  exists m',
    partition_vec m left right curr_vec pivot_vec smallest_vec biggest_vec
    = (count_ge, vtype.min curr_vec smallest_vec,
       vtype.max curr_vec biggest_vec, m')
    /\ window m' left (left + Z.of_nat (length lows)) = lows
    /\ window m' (right - count_ge) right = highs
    /\ Z.of_nat (length lows) + count_ge = numlanes
    /\ left + Z.of_nat (length lows) <= right - count_ge
    /\ trace m'
       = rev (map Write (offsets (right - count_ge) (length highs)))
           ++ rev (map Write (offsets left (length lows))) ++ trace m
    /\ (forall j, j < left \/ left + Z.of_nat (length lows) <= j
                               < right - count_ge \/ right <= j ->
                  cells m' j = cells m j).
Proof.
  intros Hn Hv Hp Hlr lows highs count_ge.
  destruct (partition_vec_effect m left right curr_vec pivot_vec
              smallest_vec biggest_vec ltac:(congruence) ltac:(lia)
              ltac:(lia))
    as [m' [Heq [Hsum [Hwl [Hwh [Hout Htrace]]]]]].
  fold lows highs count_ge in Heq, Hsum, Hwl, Hwh, Hout, Htrace.
  exists m'. repeat split; auto; lia.
Qed.

Lemma partition_vec_packs_both_sides_witness :
  let lows := low_lanes [5; 3; 8; 1] [5; 5; 5; 5] in
  let highs := high_lanes [5; 3; 8; 1] [5; 5; 5; 5] in
  let count_ge := Z.of_nat (length highs) in
  exists m',
    partition_vec sample 0 4 [5; 3; 8; 1] [5; 5; 5; 5] [0; 0; 0; 0]
      [9; 9; 9; 9]
    = (count_ge, vtype.min [5; 3; 8; 1] [0; 0; 0; 0],
       vtype.max [5; 3; 8; 1] [9; 9; 9; 9], m')
    /\ window m' 0 (0 + Z.of_nat (length lows)) = lows
    /\ window m' (4 - count_ge) 4 = highs
    /\ Z.of_nat (length lows) + count_ge = 4
    /\ 0 + Z.of_nat (length lows) <= 4 - count_ge
    /\ trace m'
       = rev (map Write (offsets (4 - count_ge) (length highs)))
           ++ rev (map Write (offsets 0 (length lows))) ++ trace sample
    /\ (forall j, j < 0 \/ 0 + Z.of_nat (length lows) <= j
                            < 4 - count_ge \/ 4 <= j ->
                  cells m' j = cells sample j).
Proof.
  apply (partition_vec_packs_both_sides 4 sample 0 4 [5; 3; 8; 1]
           [5; 5; 5; 5] [0; 0; 0; 0] [9; 9; 9; 9]);
    [lia|reflexivity|reflexivity|lia].
Defined.

(** C6. In every iteration of the main loops of [partition_avx512] and
    [partition_avx512_unrolled] each compress-store stays behind the load
    cursors: [l_store] plus the number of low lanes does not exceed the
    left load cursor, and [r_store + numlanes] minus the number of high
    lanes does not fall below the right load cursor.  The model evaluates
    this condition ([fits]) at every [partition_vec] of the main loop, with
    the store cursors of that call and the load cursors of that iteration,
    and returns the conjunction as [res_stores_fit].  Hence no element that
    is not yet loaded is overwritten: in the accesses made after the
    scalar-remainder loop, every write goes to a slot whose previous access
    is a load. *)
Theorem stores_never_cross_loads
    numlanes num_unroll fuel m left right pivot s b :
  0 < numlanes <= 32 -> 1 <= num_unroll -> left <= right ->
  (Z.to_nat ((right - left) / numlanes) <= fuel)%nat ->
  (forall ld_l ld_r pv v c,
      fits numlanes ld_l ld_r pv v c = true <->
      c_l_store c + (numlanes - _mm_popcnt_u32 (vtype.ge v pv)) <= ld_l
      /\ ld_r <= c_r_store c + numlanes - _mm_popcnt_u32 (vtype.ge v pv))
  /\ (exists r t,
         partition_avx512 numlanes fuel m left right pivot s b = Some r
         /\ res_stores_fit r = true
         /\ trace (res_arr r)
            = t ++ trace (s_mem (after_remainder numlanes m left right
                                   pivot s b))
         /\ loads_before_stores t = true)
  /\ (exists r t,
         partition_avx512_unrolled numlanes num_unroll fuel m left right
           pivot s b = Some r
         /\ res_stores_fit r = true
         /\ trace (res_arr r)
            = t ++ trace (s_mem (after_remainder
                                   (unrolled_width numlanes num_unroll
                                      left right)
                                   m left right pivot s b))
         /\ loads_before_stores t = true).
Proof.
  intros Hn HK Hle Hfuel.
  destruct (both_correct numlanes num_unroll fuel m left right pivot s b
              Hn HK Hle Hfuel) as [r1 [r2 [E1 [E2 [P1 P2]]]]].
  split.
  { intros ld_l ld_r pv v c. unfold fits.
    rewrite andb_true_iff, !Z.leb_le. reflexivity. }
  split.
  - destruct P1 as [_ _ _ _ _ _ _ _ Hfit [t [Ht Hlbs]]].
    exists r1, t. auto.
  - destruct P2 as [_ _ _ _ _ _ _ _ Hfit [t [Ht Hlbs]]].
    exists r2, t. auto.
Qed.

Lemma stores_never_cross_loads_witness :
  (exists r t,
      partition_avx512 4 5 sample 0 23 9 100 (-100) = Some r
      /\ res_stores_fit r = true
      /\ trace (res_arr r)
         = t ++ trace (s_mem (after_remainder 4 sample 0 23 9 100 (-100)))
      /\ loads_before_stores t = true)
  /\ (exists r t,
         partition_avx512_unrolled 4 2 5 sample 0 23 9 100 (-100) = Some r
         /\ res_stores_fit r = true
         /\ trace (res_arr r)
            = t ++ trace (s_mem (after_remainder
                                   (unrolled_width 4 2 0 23)
                                   sample 0 23 9 100 (-100)))
         /\ loads_before_stores t = true).
Proof.
  apply (stores_never_cross_loads 4 2 5 sample 0 23 9 100 (-100));
    [lia|lia|lia|vm_compute; lia].
Defined.

Lemma remainder_step_shrinks pivot st :
  s_right (remainder_step pivot st) - s_left (remainder_step pivot st)
  = s_right st - s_left st - 1.
Proof.
  unfold remainder_step, load. cbn [fst snd].
  destruct (negb _); cbn [s_left s_right]; lia.
Qed.

Lemma remainder_loop_shrinks i pivot st :
  s_right (remainder_loop i pivot st) - s_left (remainder_loop i pivot st)
  = s_right st - s_left st - Z.of_nat i.
Proof.
  revert st. induction i as [|i IH]; intro st; cbn [remainder_loop].
  - lia.
  - rewrite IH, remainder_step_shrinks. lia.
Qed.

Lemma loop_body_unrolled_shrinks numlanes num_unroll pv st :
  ld_right (loop_body_unrolled numlanes num_unroll pv st)
  - ld_left (loop_body_unrolled numlanes num_unroll pv st)
  = ld_right st - ld_left st - num_unroll * numlanes.
Proof.
  unfold loop_body_unrolled.
  destruct (_ <? _);
    destruct (load_batch _ _ _ _ _) as [vs m1];
    destruct (store_batch_watched _ _ _ _ _ _ _) as [c' fit'];
    cbn [ld_left ld_right]; lia.
Qed.

Lemma loop_body_shrinks numlanes pv st :
  ld_right (loop_body numlanes pv st) - ld_left (loop_body numlanes pv st)
  = ld_right st - ld_left st - numlanes.
Proof.
  rewrite loop_body_eq, loop_body_unrolled_shrinks. lia.
Qed.

Lemma while_loop_exit fuel body : forall st st',
  while_loop fuel body st = Some st' -> ld_right st' - ld_left st' = 0.
Proof.
  induction fuel as [|fuel IH]; intros st st'; cbn [while_loop];
    destruct (Z.eqb_spec (ld_right st - ld_left st) 0) as [E|E];
    intro H; try discriminate.
  - now injection H as <-.
  - now injection H as <-.
  - eapply IH; eauto.
Qed.

Lemma remainder_loop_iter i pivot st :
  remainder_loop i pivot st = Nat.iter i (remainder_step pivot) st.
Proof.
  revert st. induction i as [|i IH]; intro st; cbn [remainder_loop].
  - reflexivity.
  - rewrite IH. symmetry. apply Nat.iter_succ_r.
Qed.

(** A loop whose body shrinks the load window by [width] runs exactly as
    many iterations as the window holds widths. *)
Lemma while_loop_iter (width : Z) (body : loop_state -> loop_state) :
  0 < width ->
  (forall st, ld_right (body st) - ld_left (body st)
              = ld_right st - ld_left st - width) ->
  forall n fuel st,
    ld_right st - ld_left st = Z.of_nat n * width -> (n <= fuel)%nat ->
    while_loop fuel body st = Some (Nat.iter n body st).
Proof.
  intros Hw Hbody. induction n as [|n IH]; intros fuel st Hlen Hfuel.
  - destruct fuel; cbn [while_loop Nat.iter nat_rect];
      destruct (Z.eqb_spec (ld_right st - ld_left st) 0); auto; lia.
  - destruct fuel as [|fuel]; [lia|]. cbn [while_loop].
    destruct (Z.eqb_spec (ld_right st - ld_left st) 0); [nia|].
    rewrite Nat.iter_succ_r. apply IH; [|lia].
    rewrite Hbody, Hlen. lia.
Qed.

Lemma while_loop_short (width : Z) (body : loop_state -> loop_state) :
  0 < width ->
  (forall st, ld_right (body st) - ld_left (body st)
              = ld_right st - ld_left st - width) ->
  forall fuel n st,
    ld_right st - ld_left st = Z.of_nat n * width -> (fuel < n)%nat ->
    while_loop fuel body st = None.
Proof.
  intros Hw Hbody. induction fuel as [|fuel IH]; intros n st Hlen Hfuel;
    cbn [while_loop];
    destruct (Z.eqb_spec (ld_right st - ld_left st) 0); try nia; auto.
  destruct n as [|n]; [lia|].
  apply (IH n); [|lia]. rewrite Hbody, Hlen. lia.
Qed.

(** The main loop on a window of [n] widths: [n] iterations of its body
    when the fuel allows them, no result otherwise. *)
Lemma while_loop_counted (width : Z) (body : loop_state -> loop_state) :
  0 < width ->
  (forall st, ld_right (body st) - ld_left (body st)
              = ld_right st - ld_left st - width) ->
  forall n fuel st,
    ld_right st - ld_left st = Z.of_nat n * width ->
    while_loop fuel body st
    = if (n <=? fuel)%nat then Some (Nat.iter n body st) else None.
Proof.
  intros Hw Hbody n fuel st Hlen.
  destruct (Nat.leb_spec n fuel).
  - now apply (while_loop_iter width).
  - now apply (while_loop_short width body Hw Hbody fuel n).
Qed.

Lemma iter_shrinks (width : Z) (body : loop_state -> loop_state) :
  (forall st, ld_right (body st) - ld_left (body st)
              = ld_right st - ld_left st - width) ->
  forall j st,
    ld_right (Nat.iter j body st) - ld_left (Nat.iter j body st)
    = ld_right st - ld_left st - Z.of_nat j * width.
Proof.
  intros Hbody. induction j as [|j IH]; intro st.
  - cbn [Nat.iter nat_rect]. lia.
  - rewrite Nat.iter_succ, Hbody, IH. lia.
Qed.

Lemma iter_remainder_shrinks i pivot st :
  s_right (Nat.iter i (remainder_step pivot) st)
  - s_left (Nat.iter i (remainder_step pivot) st)
  = s_right st - s_left st - Z.of_nat i.
Proof. rewrite <- remainder_loop_iter. apply remainder_loop_shrinks. Qed.

(** What the scalar loop leaves is a whole number of widths. *)
Lemma scalar_loop_aligns width pivot left right s b m :
  0 < width -> left <= right ->
  let st :=
    Nat.iter (Z.to_nat ((right - left) mod width)) (remainder_step pivot)
      (mkScalar left right s b m) in
  s_right st - s_left st = width * ((right - left) / width)
  /\ 0 <= (right - left) / width
  /\ (s_right st - s_left st) / width = (right - left) / width
  /\ (s_right st - s_left st) mod width = 0.
Proof.
  intros Hw Hle st.
  pose proof (Z.mod_pos_bound (right - left) width Hw) as Hm.
  pose proof (Z.div_mod (right - left) width ltac:(lia)) as Hdm.
  assert (E : s_right st - s_left st = width * ((right - left) / width)).
  { unfold st. rewrite iter_remainder_shrinks. cbn [s_left s_right]. lia. }
  split; [exact E|]. split; [apply Z.div_pos; lia|].
  rewrite E, Z.mul_comm. split.
  - apply Z.div_mul. lia.
  - apply Z.mod_mul. lia.
Qed.

Lemma main_loop_entry_distance numlanes st :
  let entry := snd (main_loop_entry numlanes st) in
  ld_right entry - ld_left entry = s_right st - s_left st - 2 * numlanes.
Proof.
  unfold main_loop_entry.
  destruct (vtype.loadu numlanes (s_left st) (s_mem st)) as [vl m1].
  destruct (vtype.loadu numlanes (s_right st - numlanes) m1) as [vr m2].
  cbn [snd ld_left ld_right]. lia.
Qed.

Lemma main_loop_entry_unrolled_distance numlanes num_unroll st :
  let entry := snd (main_loop_entry_unrolled numlanes num_unroll st) in
  ld_right entry - ld_left entry
  = s_right st - s_left st - 2 * (num_unroll * numlanes).
Proof.
  unfold main_loop_entry_unrolled.
  destruct (load_edges _ _ _ _ _ _ _) as [[vl vr] m1].
  cbn [snd ld_left ld_right]. lia.
Qed.

(** [partition_avx512] is its counted run. *)
Lemma partition_avx512_counted numlanes fuel m left right pivot s b :
  0 < numlanes -> left <= right ->
  let k := Z.to_nat ((right - left) mod numlanes) in
  let st := Nat.iter k (remainder_step pivot) (mkScalar left right s b m) in
  let n := Z.to_nat ((s_right st - s_left st) / numlanes - 2) in
  partition_avx512 numlanes fuel m left right pivot s b
  = if (n <=? fuel)%nat
    then Some (counted_partition_avx512 numlanes k n m left right pivot s b)
    else None.
Proof.
  intros Hn Hle k st n.
  destruct (scalar_loop_aligns numlanes pivot left right s b m Hn Hle)
    as [Hd [Hq [Hdiv _]]].
  fold k in Hd, Hdiv. fold st in Hd, Hdiv.
  pose proof (main_loop_entry_distance numlanes st) as Hentry.
  unfold partition_avx512, counted_partition_avx512.
  rewrite Z.rem_mod_nonneg by lia. fold k.
  rewrite remainder_loop_iter. fold st.
  destruct (Z.eqb_spec (s_left st) (s_right st)) as [E0|E0].
  { assert (n = 0%nat) as -> by (unfold n; rewrite Hdiv; nia).
    reflexivity. }
  destruct (Z.eqb_spec (s_right st - s_left st) numlanes) as [E1|E1].
  { assert (n = 0%nat) as -> by (unfold n; rewrite Hdiv; nia).
    cbn [Nat.leb].
    destruct (vtype.loadu numlanes (s_left st) (s_mem st)) as [vec m1].
    destruct (partition_vec _ _ _ _ _ _ _) as [[[a mn] mx] m2].
    reflexivity. }
  unfold main_loop_entry in *.
  destruct (vtype.loadu numlanes (s_left st) (s_mem st)) as [vl m1].
  destruct (vtype.loadu numlanes (s_right st - numlanes) m1) as [vr m2].
  cbn [snd ld_left ld_right] in Hentry.
  rewrite (while_loop_counted numlanes _ Hn
             (loop_body_shrinks numlanes _) n).
  - destruct (n <=? fuel)%nat; [|reflexivity].
    unfold epilogue.
    destruct (partition_vec _ _ _ vl _ _ _) as [[[a mn] mx] m3].
    destruct (partition_vec _ _ _ vr _ _ _) as [[[a2 mn2] mx2] m4].
    reflexivity.
  - cbn [ld_left ld_right]. unfold n. rewrite Hdiv.
    assert (2 <= (right - left) / numlanes).
    { destruct (Z.eq_dec ((right - left) / numlanes) 0) as [Q|Q];
        [rewrite Q in Hd; lia|].
      destruct (Z.eq_dec ((right - left) / numlanes) 1) as [Q1|Q1];
        [rewrite Q1 in Hd; lia|lia]. }
    rewrite Z2Nat.id by lia. lia.
Qed.

(** [partition_avx512_unrolled], past its delegation test, is its counted
    run. *)
Lemma partition_avx512_unrolled_counted
    numlanes num_unroll fuel m left right pivot s b :
  0 < numlanes -> 1 <= num_unroll ->
  2 * (num_unroll * numlanes) < right - left ->
  let width := num_unroll * numlanes in
  let k := Z.to_nat ((right - left) mod width) in
  let st := Nat.iter k (remainder_step pivot) (mkScalar left right s b m) in
  let n := Z.to_nat ((s_right st - s_left st) / width - 2) in
  partition_avx512_unrolled numlanes num_unroll fuel m left right pivot s b
  = if (n <=? fuel)%nat
    then Some (counted_partition_avx512_unrolled numlanes num_unroll k n
                 m left right pivot s b)
    else None.
Proof.
  intros Hn HK Hlong width k st n.
  assert (Hw : 0 < width) by (unfold width; nia).
  destruct (scalar_loop_aligns width pivot left right s b m Hw ltac:(lia))
    as [Hd [Hq [Hdiv _]]].
  fold k in Hd, Hdiv. fold st in Hd, Hdiv.
  assert (Hq2 : 2 <= (right - left) / width).
  { apply Z.div_le_lower_bound; lia. }
  pose proof (main_loop_entry_unrolled_distance numlanes num_unroll st)
    as Hentry.
  unfold partition_avx512_unrolled, counted_partition_avx512_unrolled.
  destruct (Z.leb_spec (right - left) (2 * num_unroll * numlanes));
    [unfold width in *; lia|].
  fold width. rewrite Z.rem_mod_nonneg by lia. fold k.
  rewrite remainder_loop_iter. fold st.
  destruct (Z.eqb_spec (s_left st) (s_right st)) as [E0|E0]; [nia|].
  unfold main_loop_entry_unrolled in *.
  destruct (load_edges _ _ _ _ _ _ _) as [[vl vr] m1].
  cbn [snd ld_left ld_right] in Hentry.
  rewrite (while_loop_counted width _ Hw
             (loop_body_unrolled_shrinks numlanes num_unroll _) n).
  - destruct (n <=? fuel)%nat; reflexivity.
  - cbn [ld_left ld_right]. unfold n. rewrite Hdiv.
    rewrite Z2Nat.id by lia. fold width. lia.
Qed.

(** C8. Every call on a valid range terminates, and each routine is its
    run with the iterations counted.  [partition_avx512] is
    [(right - left) mod numlanes] iterations of its scalar loop, each one
    shrinking the range by exactly one element and together leaving a
    whole number of registers (possibly none: the cursors met), followed,
    past the edge loads, by exactly [n] iterations of its main loop, each
    one shrinking the load window by one register until the load cursors
    meet; it returns if and only if the fuel allows these [n] iterations,
    and [n] is at most [(right - left) / numlanes].
    [partition_avx512_unrolled] is the plain routine on a range of at most
    [2 * num_unroll * numlanes] elements, and otherwise the same with
    [num_unroll * numlanes] for the width. *)
Theorem partition_terminates
    numlanes num_unroll fuel m left right pivot s b :
  0 < numlanes -> 1 <= num_unroll -> left <= right ->
  let pivot_vec := vtype.set1 numlanes pivot in
  let init := mkScalar left right s b m in
  let width := num_unroll * numlanes in
  let k := Z.to_nat ((right - left) mod numlanes) in
  let st := Nat.iter k (remainder_step pivot) init in
  let n := Z.to_nat ((s_right st - s_left st) / numlanes - 2) in
  let entry := snd (main_loop_entry numlanes st) in
  let k' := Z.to_nat ((right - left) mod width) in
  let st' := Nat.iter k' (remainder_step pivot) init in
  let n' := Z.to_nat ((s_right st' - s_left st') / width - 2) in
  let entry' := snd (main_loop_entry_unrolled numlanes num_unroll st') in
  (partition_avx512 numlanes fuel m left right pivot s b
   = if (n <=? fuel)%nat
     then Some (counted_partition_avx512 numlanes k n m left right pivot s b)
     else None)
  /\ (forall i, (i <= k)%nat ->
        let sti := Nat.iter i (remainder_step pivot) init in
        s_right sti - s_left sti = right - left - Z.of_nat i)
  /\ (s_right st - s_left st) mod numlanes = 0
  /\ (2 * numlanes <= s_right st - s_left st ->
      forall j, (j <= n)%nat ->
        let stj := Nat.iter j (loop_body numlanes pivot_vec) entry in
        ld_right stj - ld_left stj = Z.of_nat (n - j) * numlanes)
  /\ (n <= Z.to_nat ((right - left) / numlanes))%nat
  /\ (right - left <= 2 * width ->
      partition_avx512_unrolled numlanes num_unroll fuel m left right
        pivot s b
      = partition_avx512 numlanes fuel m left right pivot s b)
  /\ (2 * width < right - left ->
      partition_avx512_unrolled numlanes num_unroll fuel m left right
        pivot s b
      = (if (n' <=? fuel)%nat
         then Some (counted_partition_avx512_unrolled numlanes num_unroll
                      k' n' m left right pivot s b)
         else None)
      /\ (forall i, (i <= k')%nat ->
            let sti := Nat.iter i (remainder_step pivot) init in
            s_right sti - s_left sti = right - left - Z.of_nat i)
      /\ (s_right st' - s_left st') mod width = 0
      /\ (forall j, (j <= n')%nat ->
            let stj :=
              Nat.iter j (loop_body_unrolled numlanes num_unroll pivot_vec)
                entry' in
            ld_right stj - ld_left stj = Z.of_nat (n' - j) * width)
      /\ (n' <= Z.to_nat ((right - left) / numlanes))%nat).
Proof.
  intros Hn HK Hle pivot_vec init width k st n entry k' st' n' entry'.
  assert (Hw : 0 < width) by (unfold width; nia).
  destruct (scalar_loop_aligns numlanes pivot left right s b m Hn Hle)
    as [Hd [Hq [Hdiv Hmod]]].
  fold init k in Hd, Hdiv, Hmod. fold st in Hd, Hdiv, Hmod.
  destruct (scalar_loop_aligns width pivot left right s b m Hw Hle)
    as [Hd' [Hq' [Hdiv' Hmod']]].
  fold init k' in Hd', Hdiv', Hmod'. fold st' in Hd', Hdiv', Hmod'.
  split; [now apply partition_avx512_counted|].
  split.
  { intros i _ sti. unfold sti. rewrite iter_remainder_shrinks.
    unfold init. cbn [s_left s_right]. lia. }
  split; [exact Hmod|].
  split.
  { intros Hvec j Hj stj. unfold stj.
    rewrite (iter_shrinks numlanes _ (loop_body_shrinks numlanes _)).
    unfold entry. rewrite main_loop_entry_distance.
    assert (Z.of_nat n = (right - left) / numlanes - 2)
      by (unfold n; rewrite Hdiv; nia).
    rewrite Nat2Z.inj_sub by lia. nia. }
  split; [unfold n; rewrite Hdiv; lia|].
  split.
  { intro Hshort. unfold partition_avx512_unrolled.
    destruct (Z.leb_spec (right - left) (2 * num_unroll * numlanes));
      [reflexivity|unfold width in *; lia]. }
  intro Hlong.
  assert (Hq2 : 2 <= (right - left) / width)
    by (apply Z.div_le_lower_bound; lia).
  assert (Hsub : (right - left) / width <= (right - left) / numlanes).
  { apply Z.div_le_compat_l; [lia|]. unfold width. nia. }
  split.
  { apply partition_avx512_unrolled_counted; auto. }
  split.
  { intros i _ sti. unfold sti. rewrite iter_remainder_shrinks.
    unfold init. cbn [s_left s_right]. lia. }
  split; [exact Hmod'|].
  split.
  { intros j Hj stj. unfold stj.
    rewrite (iter_shrinks width _
               (loop_body_unrolled_shrinks numlanes num_unroll _)).
    unfold entry'. rewrite main_loop_entry_unrolled_distance.
    assert (Z.of_nat n' = (right - left) / width - 2)
      by (unfold n'; rewrite Hdiv'; nia).
    rewrite Nat2Z.inj_sub by lia. fold width. nia. }
  unfold n'. rewrite Hdiv'. lia.
Qed.

Lemma partition_terminates_witness :
  let pivot_vec := vtype.set1 4 9 in
  let init := mkScalar 0 43 100 (-100) long_sample in
  let width := 2 * 4 in
  let k := Z.to_nat ((43 - 0) mod 4) in
  let st := Nat.iter k (remainder_step 9) init in
  let n := Z.to_nat ((s_right st - s_left st) / 4 - 2) in
  let entry := snd (main_loop_entry 4 st) in
  let k' := Z.to_nat ((43 - 0) mod width) in
  let st' := Nat.iter k' (remainder_step 9) init in
  let n' := Z.to_nat ((s_right st' - s_left st') / width - 2) in
  let entry' := snd (main_loop_entry_unrolled 4 2 st') in
  (partition_avx512 4 8 long_sample 0 43 9 100 (-100)
   = if (n <=? 8)%nat
     then Some (counted_partition_avx512 4 k n long_sample 0 43 9 100
                  (-100))
     else None)
  /\ (forall i, (i <= k)%nat ->
        let sti := Nat.iter i (remainder_step 9) init in
        s_right sti - s_left sti = 43 - 0 - Z.of_nat i)
  /\ (s_right st - s_left st) mod 4 = 0
  /\ (2 * 4 <= s_right st - s_left st ->
      forall j, (j <= n)%nat ->
        let stj := Nat.iter j (loop_body 4 pivot_vec) entry in
        ld_right stj - ld_left stj = Z.of_nat (n - j) * 4)
  /\ (n <= Z.to_nat ((43 - 0) / 4))%nat
  /\ (43 - 0 <= 2 * width ->
      partition_avx512_unrolled 4 2 8 long_sample 0 43 9 100 (-100)
      = partition_avx512 4 8 long_sample 0 43 9 100 (-100))
  /\ (2 * width < 43 - 0 ->
      partition_avx512_unrolled 4 2 8 long_sample 0 43 9 100 (-100)
      = (if (n' <=? 8)%nat
         then Some (counted_partition_avx512_unrolled 4 2 k' n'
                      long_sample 0 43 9 100 (-100))
         else None)
      /\ (forall i, (i <= k')%nat ->
            let sti := Nat.iter i (remainder_step 9) init in
            s_right sti - s_left sti = 43 - 0 - Z.of_nat i)
      /\ (s_right st' - s_left st') mod width = 0
      /\ (forall j, (j <= n')%nat ->
            let stj := Nat.iter j (loop_body_unrolled 4 2 pivot_vec) entry' in
            ld_right stj - ld_left stj = Z.of_nat (n' - j) * width)
      /\ (n' <= Z.to_nat ((43 - 0) / 4))%nat).
Proof.
  apply (partition_terminates 4 2 8 long_sample 0 43 9 100 (-100)); lia.
Defined.

(** C9. On an empty range ([right = left]) both entry points return
    [left] and leave [*smallest], [*biggest] and the buffer as they were:
    nothing is read, nothing is written. *)
Theorem empty_range_untouched numlanes num_unroll fuel m left pivot s b :
  partition_avx512 numlanes fuel m left left pivot s b
  = Some (mkResult left s b m true)
  /\ partition_avx512_unrolled numlanes num_unroll fuel m left left pivot s b
     = Some (mkResult left s b m true).
Proof.
  assert (E : partition_avx512 numlanes fuel m left left pivot s b
              = Some (mkResult left s b m true)).
  { unfold partition_avx512. rewrite Z.sub_diag.
    change (Z.rem 0 numlanes) with 0.
    cbn [Z.to_nat remainder_loop s_left s_right s_smallest s_biggest s_mem].
    now rewrite Z.eqb_refl. }
  split; [exact E|].
  unfold partition_avx512_unrolled.
  destruct (_ <=? _); [exact E|].
  rewrite Z.sub_diag. change (Z.rem 0 (num_unroll * numlanes)) with 0.
  cbn [Z.to_nat remainder_loop s_left s_right s_smallest s_biggest s_mem].
  now rewrite Z.eqb_refl.
Qed.

(** ** Compare-exchange *)

Lemma nth_error_lanewise {A B C} (f : A -> B -> C) a b i x y :
  nth_error a i = Some x -> nth_error b i = Some y ->
  nth_error (lanewise f a b) i = Some (f x y).
Proof.
  revert b i. induction a as [|a0 a IH]; intros b i Ha Hb.
  - destruct i; discriminate.
  - destruct b as [|b0 b]; [destruct i; discriminate|].
    destruct i as [|i]; simpl in *.
    + congruence.
    + now apply IH.
Qed.

Lemma lanewise_min_idem a b :
  lanewise Z.min (lanewise Z.min a b) (lanewise Z.max a b)
  = lanewise Z.min a b.
Proof.
  revert b. induction a as [|x a IH]; destruct b as [|y b]; simpl; auto.
  rewrite IH. f_equal. lia.
Qed.

Lemma lanewise_max_idem a b :
  lanewise Z.max (lanewise Z.min a b) (lanewise Z.max a b)
  = lanewise Z.max a b.
Proof.
  revert b. induction a as [|x a IH]; destruct b as [|y b]; simpl; auto.
  rewrite IH. f_equal. lia.
Qed.

(** C10. After [COEX(a, b)] every lane pair is ordered and conserved: the
    new lane of [a] is at most the new lane of [b], and the two new lanes
    are the two old ones; a second [COEX] on the result changes nothing. *)
Theorem COEX_orders_and_conserves (a b : zmm_t) :
  (forall i x y,
      nth_error a i = Some x -> nth_error b i = Some y ->
      exists x' y',
        nth_error (fst (COEX a b)) i = Some x'
        /\ nth_error (snd (COEX a b)) i = Some y'
        /\ x' <= y'
        /\ Permutation [x'; y'] [x; y])
  /\ COEX (fst (COEX a b)) (snd (COEX a b)) = COEX a b.
Proof.
  unfold COEX, vtype.min, vtype.max. cbn [fst snd]. split.
  - intros i x y Ha Hb. exists (Z.min x y), (Z.max x y).
    split; [now apply nth_error_lanewise|].
    split; [now apply nth_error_lanewise|].
    split; [lia|].
    destruct (Z.le_ge_cases x y).
    + rewrite Z.min_l, Z.max_r by lia. reflexivity.
    + rewrite Z.min_r, Z.max_l by lia. constructor.
  - now rewrite lanewise_min_idem, lanewise_max_idem.
Qed.

Lemma COEX_orders_and_conserves_witness :
  exists x' y',
    nth_error (fst (COEX [3; 1; 4; 1] [2; 7; 1; 8])) 2 = Some x'
    /\ nth_error (snd (COEX [3; 1; 4; 1] [2; 7; 1; 8])) 2 = Some y'
    /\ x' <= y'
    /\ Permutation [x'; y'] [4; 1].
Proof.
  apply (proj1 (COEX_orders_and_conserves [3; 1; 4; 1] [2; 7; 1; 8])
           2%nat 4 1); reflexivity.
Defined.

(** ** Partial sort *)

Lemma firstn_length_app {A} (f l : list A) :
  firstn (length f) (f ++ l) = f /\ skipn (length f) (f ++ l) = l.
Proof. induction f as [|x f [IH1 IH2]]; simpl; auto. now rewrite IH1. Qed.

Lemma firstn_succ_length_app {A} (f : list A) p l :
  firstn (S (length f)) (f ++ p :: l) = f ++ [p]
  /\ skipn (S (length f)) (f ++ p :: l) = l.
Proof.
  induction f as [|x f [IH1 IH2]]; [auto|].
  split; [|exact IH2].
  change (firstn (S (length (x :: f))) ((x :: f) ++ p :: l))
    with (x :: firstn (S (length f)) (f ++ p :: l)).
  now rewrite IH1.
Qed.

Lemma StronglySorted_snoc l p :
  StronglySorted Z.le l -> Forall (fun x => x <= p) l ->
  StronglySorted Z.le (l ++ [p]).
Proof.
  induction 1 as [|x l Hs IH Hx]; intro Hp; simpl.
  - repeat constructor.
  - inversion Hp; subst. constructor; auto.
    apply Forall_app; split; auto.
Qed.

(** C7. [avx512_partial_qsort(arr, k, arrsize)] is the composition of the
    two calls: it selects the k-th order statistic (offset [k - 1]) and
    then sorts the prefix in front of it; given the contracts of
    [avx512_qselect] and [avx512_qsort], the first [k] positions afterwards
    hold the [k] smallest elements of the buffer in ascending order, and
    the positions from [k] on are as the selection left them. *)
Theorem partial_qsort_sorts_smallest
    (qselect : list Z -> Z -> Z -> list Z) (qsort : list Z -> Z -> list Z)
    arr k arrsize :
  qselect_contract qselect -> qsort_contract qsort ->
  arrsize = Z.of_nat (length arr) -> 1 <= k <= arrsize ->
  let r := avx512_partial_qsort qselect qsort arr k arrsize in
  let n := Z.to_nat k in
  r = qsort (qselect arr (k - 1) arrsize) (k - 1)
  /\ Permutation r arr
  /\ length (firstn n r) = n
  /\ StronglySorted Z.le (firstn n r)
  /\ (forall x y, In x (firstn n r) -> In y (skipn n r) -> x <= y)
  /\ skipn n r = skipn n (qselect arr (k - 1) arrsize).
Proof.
  intros Hsel Hsort Hsize Hk r n.
  unfold avx512_partial_qsort in r.
  destruct (Hsel arr (k - 1) arrsize Hsize ltac:(lia))
    as [Hp1 [front [p [back [E1 [Hlen [Hfront Hback]]]]]]].
  set (r1 := qselect arr (k - 1) arrsize) in *.
  pose proof (Permutation_length Hp1) as Hl1.
  destruct (Hsort r1 (k - 1) ltac:(lia)) as [Hp2 [Hs2 Hk2]].
  fold r in Hp2, Hs2, Hk2.
  destruct (firstn_length_app front (p :: back)) as [F1 F2].
  rewrite Hlen, <- E1 in F1, F2. rewrite F1 in Hp2. rewrite F2 in Hk2.
  set (sorted := firstn (Z.to_nat (k - 1)) r) in *.
  assert (Er : r = sorted ++ p :: back).
  { rewrite <- Hk2. symmetry. apply firstn_skipn. }
  pose proof (Permutation_length Hp2) as Hl2.
  assert (En : n = S (length sorted)) by (unfold n; lia).
  destruct (firstn_succ_length_app sorted p back) as [G1 G2].
  rewrite <- Er, <- En in G1, G2.
  destruct (firstn_succ_length_app front p back) as [_ G3].
  rewrite <- E1, <- Hl2, <- En in G3.
  assert (Hle : Forall (fun x => x <= p) sorted).
  { eapply Permutation_Forall; [symmetry; exact Hp2|exact Hfront]. }
  split; [reflexivity|].
  split.
  { rewrite Er, <- Hp1, E1. now apply Permutation_app_tail. }
  split; [rewrite G1, length_app; simpl; lia|].
  split.
  { rewrite G1. apply StronglySorted_snoc; auto.
    apply Sorted_StronglySorted; auto. intros x y z; apply Z.le_trans. }
  split.
  { rewrite G1, G2. intros x y Hx Hy.
    assert (x <= p).
    { apply in_app_or in Hx. destruct Hx as [Hx|Hx].
      - exact (proj1 (Forall_forall _ _) Hle x Hx).
      - simpl in Hx. destruct Hx as [Hx|[]]. lia. }
    assert (p <= y) by exact (proj1 (Forall_forall _ _) Hback y Hy).
    lia. }
  now rewrite G2, G3.
Qed.

Lemma insert_perm x l : Permutation (insert x l) (x :: l).
Proof.
  induction l as [|y l IH]; simpl; auto.
  destruct (x <=? y); auto.
  rewrite IH. constructor.
Qed.

Lemma isort_perm l : Permutation (isort l) l.
Proof.
  induction l as [|x l IH]; simpl; auto.
  rewrite insert_perm. now constructor.
Qed.

Lemma insert_sorted x l :
  StronglySorted Z.le l -> StronglySorted Z.le (insert x l).
Proof.
  induction 1 as [|y l Hs IH Hy]; simpl.
  - repeat constructor.
  - destruct (Z.leb_spec x y).
    + constructor; [now constructor|].
      constructor; auto. eapply Forall_impl; [|exact Hy]. simpl; intros; lia.
    + constructor; auto.
      eapply Permutation_Forall; [symmetry; apply insert_perm|].
      constructor; auto. lia.
Qed.

Lemma isort_sorted l : StronglySorted Z.le (isort l).
Proof.
  induction l as [|x l IH]; simpl; [constructor|now apply insert_sorted].
Qed.

Lemma StronglySorted_around front p back :
  StronglySorted Z.le (front ++ p :: back) ->
  Forall (fun x => x <= p) front /\ Forall (fun y => p <= y) back.
Proof.
  induction front as [|a front IH]; simpl; intro H;
    inversion H as [|? ? Hs Hall]; subst.
  - auto.
  - destruct (IH Hs) as [H1 H2]. split; auto.
    constructor; auto.
    apply (proj1 (Forall_forall _ _) Hall). apply in_elt.
Qed.

Lemma ref_qselect_meets_contract : qselect_contract ref_qselect.
Proof.
  intros arr k arrsize Hsize Hk. unfold ref_qselect.
  split; [apply isort_perm|].
  pose proof (Permutation_length (isort_perm arr)) as Hlen.
  pose proof (isort_sorted arr) as Hs.
  rewrite <- (firstn_skipn (Z.to_nat k) (isort arr)) in Hs |- *.
  destruct (skipn (Z.to_nat k) (isort arr)) as [|p back] eqn:E.
  - pose proof (length_skipn (Z.to_nat k) (isort arr)) as Hl.
    rewrite E in Hl. simpl in Hl. lia.
  - destruct (StronglySorted_around _ _ _ Hs) as [H1 H2].
    exists (firstn (Z.to_nat k) (isort arr)), p, back.
    repeat split; auto.
    rewrite length_firstn. lia.
Qed.

Lemma ref_qsort_meets_contract : qsort_contract ref_qsort.
Proof.
  intros arr arrsize Hsize n. unfold ref_qsort. fold n.
  assert (Hn : length (isort (firstn n arr)) = n).
  { rewrite (Permutation_length (isort_perm _)), length_firstn. lia. }
  destruct (firstn_length_app (isort (firstn n arr)) (skipn n arr))
    as [F1 F2].
  rewrite Hn in F1, F2. rewrite F1, F2.
  split; [apply isort_perm|]. split; auto.
  apply StronglySorted_Sorted, isort_sorted.
Qed.

Lemma partial_qsort_sorts_smallest_witness :
  let r := avx512_partial_qsort ref_qselect ref_qsort [5; 2; 9; 1; 7] 3 5 in
  r = ref_qsort (ref_qselect [5; 2; 9; 1; 7] (3 - 1) 5) (3 - 1)
  /\ Permutation r [5; 2; 9; 1; 7]
  /\ length (firstn 3 r) = 3%nat
  /\ StronglySorted Z.le (firstn 3 r)
  /\ (forall x y, In x (firstn 3 r) -> In y (skipn 3 r) -> x <= y)
  /\ skipn 3 r = skipn 3 (ref_qselect [5; 2; 9; 1; 7] (3 - 1) 5).
Proof.
  apply (partial_qsort_sorts_smallest ref_qselect ref_qsort
           [5; 2; 9; 1; 7] 3 5 ref_qselect_meets_contract
           ref_qsort_meets_contract); [reflexivity|lia].
Defined.

(** * Further properties of the code *)

(** ** [COEX] and [cmp_merge] *)

Lemma lanewise_min_comm a b : lanewise Z.min a b = lanewise Z.min b a.
Proof.
  revert b. induction a as [|x a IH]; destruct b as [|y b]; simpl; auto.
  rewrite IH. f_equal. lia.
Qed.

Lemma lanewise_max_comm a b : lanewise Z.max a b = lanewise Z.max b a.
Proof.
  revert b. induction a as [|x a IH]; destruct b as [|y b]; simpl; auto.
  rewrite IH. f_equal. lia.
Qed.

(** X1. [COEX] does not depend on the order of its two registers, and a
    pair that is already ordered lane by lane is left as it is. *)
Theorem COEX_symmetric_and_fixes_ordered (a b : zmm_t) :
  COEX b a = COEX a b
  /\ (Forall2 Z.le a b -> COEX a b = (a, b)).
Proof.
  unfold COEX, vtype.min, vtype.max. split.
  - now rewrite lanewise_min_comm, lanewise_max_comm.
  - induction 1 as [|x y a b Hxy _ IH]; simpl; auto.
    injection IH as E1 E2. rewrite E1, E2.
    now rewrite Z.min_l, Z.max_r by lia.
Qed.

Lemma COEX_symmetric_and_fixes_ordered_witness :
  COEX [2; 7; 4; 8] [1; 5; 3; 6] = COEX [1; 5; 3; 6] [2; 7; 4; 8]
  /\ COEX [1; 5; 3; 6] [2; 7; 4; 8] = ([1; 5; 3; 6], [2; 7; 4; 8]).
Proof.
  destruct (COEX_symmetric_and_fixes_ordered [1; 5; 3; 6] [2; 7; 4; 8])
    as [H1 H2].
  split; [exact H1|]. apply H2. repeat constructor; lia.
Defined.

(** X2. [cmp_merge] does not depend on the order of its two registers. *)
Theorem cmp_merge_symmetric (in1 in2 : zmm_t) (mask : opmask_t) :
  cmp_merge in1 in2 mask = cmp_merge in2 in1 mask.
Proof.
  unfold cmp_merge, vtype.min, vtype.max.
  now rewrite lanewise_min_comm, lanewise_max_comm.
Qed.

Lemma mask_mov_lanes : forall (k : opmask_t) (a b : zmm_t),
  length a = length b -> length k = length a ->
  lanewise Z.min
    (vtype.mask_mov (lanewise Z.min a b) k (lanewise Z.max a b))
    (vtype.mask_mov (lanewise Z.min a b) (vtype.knot_opmask k)
       (lanewise Z.max a b))
  = lanewise Z.min a b
  /\ lanewise Z.max
       (vtype.mask_mov (lanewise Z.min a b) k (lanewise Z.max a b))
       (vtype.mask_mov (lanewise Z.min a b) (vtype.knot_opmask k)
          (lanewise Z.max a b))
     = lanewise Z.max a b.
Proof.
  unfold vtype.knot_opmask.
  induction k as [|bit k IH]; intros a b Hab Hk;
    destruct a as [|u a]; destruct b as [|v b]; try discriminate; auto.
  simpl in Hab, Hk. destruct (IH a b ltac:(lia) ltac:(lia)) as [E1 E2].
  simpl. rewrite E1, E2. destruct bit; simpl; split; f_equal; lia.
Qed.

(** X3. A merge under a mask and the merge under the complement of the
    mask split every lane pair between them: compare-exchanging the two
    results gives the compare-exchange of the two inputs. *)
Theorem cmp_merge_complement_conserves (in1 in2 : zmm_t) (mask : opmask_t) :
  length in1 = length in2 -> length mask = length in1 ->
  COEX (cmp_merge in1 in2 mask)
    (cmp_merge in1 in2 (vtype.knot_opmask mask))
  = COEX in1 in2.
Proof.
  intros H12 Hm. unfold COEX, cmp_merge, vtype.min, vtype.max.
  destruct (mask_mov_lanes mask in2 in1 ltac:(lia) ltac:(lia))
    as [E1 E2].
  rewrite E1, E2.
  now rewrite lanewise_min_comm, lanewise_max_comm.
Qed.

Lemma cmp_merge_complement_conserves_witness :
  COEX (cmp_merge [3; 1; 4; 1] [2; 7; 1; 8] [true; false; false; true])
    (cmp_merge [3; 1; 4; 1] [2; 7; 1; 8]
       (vtype.knot_opmask [true; false; false; true]))
  = COEX [3; 1; 4; 1] [2; 7; 1; 8].
Proof.
  apply (cmp_merge_complement_conserves [3; 1; 4; 1] [2; 7; 1; 8]
           [true; false; false; true]); reflexivity.
Defined.

Lemma mask_mov_uniform (bit : bool) : forall (x y : zmm_t),
  length x = length y ->
  vtype.mask_mov x (repeat bit (length x)) y = if bit then y else x.
Proof.
  induction x as [|a x IH]; destruct y as [|c y]; try discriminate.
  - now destruct bit.
  - intro H. simpl. rewrite IH by (simpl in H; lia). now destruct bit.
Qed.

(** X4. With no mask bit set [cmp_merge] is the low side of [COEX], with
    every bit set it is the high side. *)
Theorem cmp_merge_uniform_masks (in1 in2 : zmm_t) :
  length in1 = length in2 ->
  cmp_merge in1 in2 (repeat false (length in1)) = fst (COEX in1 in2)
  /\ cmp_merge in1 in2 (repeat true (length in1)) = snd (COEX in1 in2).
Proof.
  intro H. unfold COEX, cmp_merge, vtype.min, vtype.max. cbn [fst snd].
  assert (E : length in1 = length (lanewise Z.min in2 in1))
    by (rewrite lanewise_length; lia).
  rewrite E, !mask_mov_uniform
    by (rewrite !lanewise_length; lia).
  now rewrite lanewise_min_comm, lanewise_max_comm.
Qed.

Lemma cmp_merge_uniform_masks_witness :
  cmp_merge [3; 1; 4; 1] [2; 7; 1; 8] (repeat false 4)
  = fst (COEX [3; 1; 4; 1] [2; 7; 1; 8])
  /\ cmp_merge [3; 1; 4; 1] [2; 7; 1; 8] (repeat true 4)
     = snd (COEX [3; 1; 4; 1] [2; 7; 1; 8]).
Proof.
  apply (cmp_merge_uniform_masks [3; 1; 4; 1] [2; 7; 1; 8]); reflexivity.
Defined.

(** ** [partition_vec] *)

Lemma lanewise_min_le a b :
  length a = length b ->
  Forall2 Z.le (lanewise Z.min a b) a /\ Forall2 Z.le (lanewise Z.min a b) b.
Proof.
  revert b. induction a as [|x a IH]; destruct b as [|y b]; simpl;
    intro H; try discriminate; auto.
  destruct (IH b ltac:(lia)). split; constructor; auto; lia.
Qed.

Lemma lanewise_max_ge a b :
  length a = length b ->
  Forall2 Z.le a (lanewise Z.max a b) /\ Forall2 Z.le b (lanewise Z.max a b).
Proof.
  revert b. induction a as [|x a IH]; destruct b as [|y b]; simpl;
    intro H; try discriminate; auto.
  destruct (IH b ltac:(lia)). split; constructor; auto; lia.
Qed.

(** X5. [partition_vec] only narrows [*smallest_vec] and widens
    [*biggest_vec], lane by lane, and the deferred reduction is sound: the
    horizontal minimum (maximum) of the new register is the minimum
    (maximum) of the old reduction and the lanes of [curr_vec]. *)
Theorem partition_vec_accumulates_bounds
    m left right (curr_vec pivot_vec smallest_vec biggest_vec : zmm_t) :
  length curr_vec = length smallest_vec ->
  length curr_vec = length biggest_vec ->
  curr_vec <> [] ->
  let r := partition_vec m left right curr_vec pivot_vec smallest_vec
             biggest_vec in
  let mn := snd (fst (fst r)) in
  let mx := snd (fst r) in
  Forall2 Z.le mn smallest_vec /\ Forall2 Z.le mn curr_vec
  /\ Forall2 Z.le biggest_vec mx /\ Forall2 Z.le curr_vec mx
  /\ vtype.reducemin mn = lmin (vtype.reducemin smallest_vec) curr_vec
  /\ vtype.reducemax mx = lmax (vtype.reducemax biggest_vec) curr_vec
  /\ vtype.reducemin mn <= vtype.reducemin smallest_vec
  /\ vtype.reducemax biggest_vec <= vtype.reducemax mx.
Proof.
  intros Hs Hb Hne. unfold partition_vec. cbn [fst snd].
  destruct (lanewise_min_le curr_vec smallest_vec Hs) as [A1 A2].
  destruct (lanewise_max_ge curr_vec biggest_vec Hb) as [B1 B2].
  assert (Hs' : smallest_vec <> []) by (destruct smallest_vec, curr_vec;
                                        simpl in *; congruence).
  assert (Hb' : biggest_vec <> []) by (destruct biggest_vec, curr_vec;
                                       simpl in *; congruence).
  pose proof (reducemin_min curr_vec smallest_vec Hs Hs') as E1.
  pose proof (reducemax_max curr_vec biggest_vec Hb Hb') as E2.
  pose proof (lmin_spec (vtype.reducemin smallest_vec) curr_vec) as [L1 _].
  pose proof (lmax_spec (vtype.reducemax biggest_vec) curr_vec) as [L2 _].
  unfold vtype.min, vtype.max in *.
  repeat split; auto; lia.
Qed.

Lemma partition_vec_accumulates_bounds_witness :
  let r := partition_vec sample 0 4 [5; 3; 8; 1] [5; 5; 5; 5] [4; 4; 4; 4]
             [6; 6; 6; 6] in
  let mn := snd (fst (fst r)) in
  let mx := snd (fst r) in
  Forall2 Z.le mn [4; 4; 4; 4] /\ Forall2 Z.le mn [5; 3; 8; 1]
  /\ Forall2 Z.le [6; 6; 6; 6] mx /\ Forall2 Z.le [5; 3; 8; 1] mx
  /\ vtype.reducemin mn = lmin (vtype.reducemin [4; 4; 4; 4]) [5; 3; 8; 1]
  /\ vtype.reducemax mx = lmax (vtype.reducemax [6; 6; 6; 6]) [5; 3; 8; 1]
  /\ vtype.reducemin mn <= vtype.reducemin [4; 4; 4; 4]
  /\ vtype.reducemax [6; 6; 6; 6] <= vtype.reducemax mx.
Proof.
  apply (partition_vec_accumulates_bounds sample 0 4 [5; 3; 8; 1]
           [5; 5; 5; 5] [4; 4; 4; 4] [6; 6; 6; 6]);
    [reflexivity|reflexivity|discriminate].
Defined.

(** X6. Partitioning a register into a window of exactly [numlanes] slots
    against a broadcast pivot fills the whole window, whatever it held: the
    lanes below the pivot first, then the others, each group in lane
    order; the window is a permutation of the register and is split at
    [left + numlanes - count]. *)
Theorem partition_vec_fills_window
    numlanes m left pivot (curr_vec smallest_vec biggest_vec : zmm_t) :
  0 < numlanes <= 32 ->
  length curr_vec = Z.to_nat numlanes ->
  let lows := filter (fun x => x <? pivot) curr_vec in
  let highs := filter (fun x => pivot <=? x) curr_vec in
  let count := Z.of_nat (length highs) in
  exists m',
    partition_vec m left (left + numlanes) curr_vec
      (vtype.set1 numlanes pivot) smallest_vec biggest_vec
    = (count, vtype.min curr_vec smallest_vec,
       vtype.max curr_vec biggest_vec, m')
    /\ window m' left (left + numlanes) = lows ++ highs
    /\ Permutation (window m' left (left + numlanes)) curr_vec
    /\ split_at m' left (left + numlanes) pivot (left + (numlanes - count))
    /\ (forall j, j < left \/ left + numlanes <= j -> cells m' j = cells m j).
Proof.
  intros Hn Hv lows highs count.
  assert (Hpv : length curr_vec = length (vtype.set1 numlanes pivot)).
  { unfold vtype.set1. now rewrite repeat_length. }
  destruct (partition_vec_effect m left (left + numlanes) curr_vec
              (vtype.set1 numlanes pivot) smallest_vec biggest_vec Hpv
              ltac:(lia) ltac:(lia))
    as [m' [Heq [Hsum [Hwl [Hwh [Hout _]]]]]].
  destruct (lanes_set1 numlanes pivot curr_vec Hv) as [El Eh].
  rewrite El, Eh in *. fold lows highs count in Heq, Hsum, Hwl, Hwh, Hout.
  assert (Hc : 0 <= count <= numlanes) by lia.
  assert (Ew : window m' left (left + numlanes) = lows ++ highs).
  { rewrite (window_split m' left (left + Z.of_nat (length lows))) by lia.
    rewrite Hwl.
    replace (left + Z.of_nat (length lows)) with (left + numlanes - count)
      by lia.
    now rewrite Hwh. }
  exists m'. split; [exact Heq|]. split; [exact Ew|].
  split; [|split].
  - rewrite Ew. symmetry. unfold lows, highs.
    rewrite (filter_split_perm (fun x => x <? pivot) curr_vec) at 1.
    apply Permutation_app_head.
    erewrite filter_ext; [reflexivity|].
    intro x. simpl. now rewrite Z.leb_antisym.
  - split; [lia|]. split.
    + apply (proj1 (window_Forall (fun x => x < pivot) m' _ _)).
      replace (left + (numlanes - count))
        with (left + Z.of_nat (length lows)) by lia.
      rewrite Hwl. eapply Forall_impl; [|apply Forall_filter_true].
      simpl. intros; lia.
    + apply (proj1 (window_Forall (fun x => pivot <= x) m' _ _)).
      replace (left + (numlanes - count)) with (left + numlanes - count)
        by lia.
      rewrite Hwh. eapply Forall_impl; [|apply Forall_filter_true].
      simpl. intros; lia.
  - intros j Hj. apply Hout. lia.
Qed.

Lemma partition_vec_fills_window_witness :
  let lows := filter (fun x => x <? 5) [5; 3; 8; 1] in
  let highs := filter (fun x => 5 <=? x) [5; 3; 8; 1] in
  let count := Z.of_nat (length highs) in
  exists m',
    partition_vec sample 2 (2 + 4) [5; 3; 8; 1] (vtype.set1 4 5)
      [0; 0; 0; 0] [9; 9; 9; 9]
    = (count, vtype.min [5; 3; 8; 1] [0; 0; 0; 0],
       vtype.max [5; 3; 8; 1] [9; 9; 9; 9], m')
    /\ window m' 2 (2 + 4) = lows ++ highs
    /\ Permutation (window m' 2 (2 + 4)) [5; 3; 8; 1]
    /\ split_at m' 2 (2 + 4) 5 (2 + (4 - count))
    /\ (forall j, j < 2 \/ 2 + 4 <= j -> cells m' j = cells sample j).
Proof.
  apply (partition_vec_fills_window 4 sample 2 5 [5; 3; 8; 1] [0; 0; 0; 0]
           [9; 9; 9; 9]); [lia|reflexivity].
Defined.

Lemma slice_firstn f i n k :
  (k <= n)%nat -> firstn k (slice f i n) = slice f i k.
Proof.
  revert i k. induction n as [|n IH]; intros i k H.
  - replace k with 0%nat by lia. reflexivity.
  - destruct k as [|k]; [reflexivity|]. simpl. f_equal. apply IH. lia.
Qed.

(** X7. [partition_vec] stores the low lanes first and the high lanes
    second.  Without room for a whole register between [left] and [right]
    the second store wins: the high lanes are always intact in the slots
    that end at [right], and the low lanes survive only below
    [right - count]. *)
Theorem partition_vec_high_store_wins
    m left right (curr_vec pivot_vec smallest_vec biggest_vec : zmm_t) :
  length curr_vec = length pivot_vec -> (length curr_vec <= 32)%nat ->
  let lows := low_lanes curr_vec pivot_vec in
  let highs := high_lanes curr_vec pivot_vec in
  let count := Z.of_nat (length highs) in
  let m' := snd (partition_vec m left right curr_vec pivot_vec
                   smallest_vec biggest_vec) in
  fst (fst (fst (partition_vec m left right curr_vec pivot_vec
                   smallest_vec biggest_vec))) = count
  /\ window m' (right - count) right = highs
  /\ (forall x, left <= x <= left + Z.of_nat (length lows) ->
                x <= right - count ->
                window m' left x = firstn (Z.to_nat (x - left)) lows)
  /\ (forall j, (j < left \/ left + Z.of_nat (length lows) <= j) ->
                (j < right - count \/ right <= j) ->
                cells m' j = cells m j).
Proof.
  intros Hl H32 lows highs count m'.
  pose proof (ge_length curr_vec pivot_vec Hl) as Hk.
  assert (Ha : _mm_popcnt_u32 (vtype.ge curr_vec pivot_vec) = count).
  { rewrite popcnt_count by lia. unfold count, highs.
    now rewrite <- compress_ge, compress_count. }
  unfold m', partition_vec. cbn [fst snd]. rewrite Ha.
  unfold vtype.mask_compressstoreu.
  rewrite compress_knot_ge, compress_ge. fold lows highs.
  split; [reflexivity|]. split; [|split].
  - apply store_lanes_window. unfold count. lia.
  - intros x Hx Hx'.
    erewrite window_ext.
    2:{ intros j Hj. apply store_lanes_outside. lia. }
    unfold window.
    rewrite <- (store_lanes_slice left lows m) at 2.
    rewrite slice_firstn by lia. reflexivity.
  - intros j Hj1 Hj2. rewrite !store_lanes_outside; auto; unfold count; lia.
Qed.

Lemma partition_vec_high_store_wins_witness :
  let lows := low_lanes [5; 3; 8; 1] [5; 5; 5; 5] in
  let highs := high_lanes [5; 3; 8; 1] [5; 5; 5; 5] in
  let count := Z.of_nat (length highs) in
  let m' := snd (partition_vec sample 0 3 [5; 3; 8; 1] [5; 5; 5; 5]
                   [0; 0; 0; 0] [9; 9; 9; 9]) in
  fst (fst (fst (partition_vec sample 0 3 [5; 3; 8; 1] [5; 5; 5; 5]
                   [0; 0; 0; 0] [9; 9; 9; 9]))) = count
  /\ window m' (3 - count) 3 = highs
  /\ (forall x, 0 <= x <= 0 + Z.of_nat (length lows) ->
                x <= 3 - count ->
                window m' 0 x = firstn (Z.to_nat (x - 0)) lows)
  /\ (forall j, (j < 0 \/ 0 + Z.of_nat (length lows) <= j) ->
                (j < 3 - count \/ 3 <= j) ->
                cells m' j = cells sample j).
Proof.
  apply (partition_vec_high_store_wins sample 0 3 [5; 3; 8; 1] [5; 5; 5; 5]
           [0; 0; 0; 0] [9; 9; 9; 9]); [reflexivity|simpl; lia].
Defined.

(** ** The scalar-remainder loop *)

(** X8. However many iterations it is run for (at most the length of the
    range), the scalar-remainder loop classifies exactly that many
    elements: what lies left of its left cursor is below the pivot, what
    lies from its right cursor on is at or above it, the range keeps its
    elements and the running bounds cover exactly the classified ones. *)
Theorem scalar_remainder_classifies m left right pivot s b (i : nat) :
  Z.of_nat i <= right - left ->
  let st := remainder_loop i pivot (mkScalar left right s b m) in
  left <= s_left st /\ s_left st <= s_right st /\ s_right st <= right
  /\ s_right st - s_left st = right - left - Z.of_nat i
  /\ (forall j, left <= j < s_left st -> cells (s_mem st) j < pivot)
  /\ (forall j, s_right st <= j < right -> pivot <= cells (s_mem st) j)
  /\ Permutation (window (s_mem st) left right) (window m left right)
  /\ s_smallest st
     = lmin s (window (s_mem st) left (s_left st)
                 ++ window (s_mem st) (s_right st) right)
  /\ s_biggest st
     = lmax b (window (s_mem st) left (s_left st)
                 ++ window (s_mem st) (s_right st) right)
  /\ (forall j, j < left \/ right <= j -> cells (s_mem st) j = cells m j).
Proof.
  intros Hi st.
  destruct (remainder_loop_inv m left right pivot s b i
              (mkScalar left right s b m)
              (scalar_inv_init m left right pivot s b ltac:(lia))
              ltac:(cbn [s_left s_right]; lia)) as [Hinv Hlen].
  fold st in Hinv, Hlen. cbn [s_left s_right] in Hlen.
  destruct Hinv as [Hb Hlo Hhi Hp Hmin Hmax Hfr _].
  repeat split; try lia; auto.
  - exact (proj1 (window_Forall (fun x => x < pivot) _ _ _) Hlo).
  - exact (proj1 (window_Forall (fun x => pivot <= x) _ _ _) Hhi).
Qed.

Lemma scalar_remainder_classifies_witness :
  let st := remainder_loop 3 9 (mkScalar 0 23 100 (-100) sample) in
  0 <= s_left st /\ s_left st <= s_right st /\ s_right st <= 23
  /\ s_right st - s_left st = 23 - 0 - Z.of_nat 3
  /\ (forall j, 0 <= j < s_left st -> cells (s_mem st) j < 9)
  /\ (forall j, s_right st <= j < 23 -> 9 <= cells (s_mem st) j)
  /\ Permutation (window (s_mem st) 0 23) (window sample 0 23)
  /\ s_smallest st
     = lmin 100 (window (s_mem st) 0 (s_left st)
                   ++ window (s_mem st) (s_right st) 23)
  /\ s_biggest st
     = lmax (-100) (window (s_mem st) 0 (s_left st)
                      ++ window (s_mem st) (s_right st) 23)
  /\ (forall j, j < 0 \/ 23 <= j -> cells (s_mem st) j = cells sample j).
Proof.
  apply (scalar_remainder_classifies sample 0 23 9 100 (-100) 3). simpl. lia.
Defined.

(** X9. A range shorter than one register is handled by the scalar loop
    alone: both routines return what [right - left] scalar iterations
    leave, with the cursors met, whatever the fuel; no register is loaded
    or stored. *)
Theorem short_range_is_scalar
    numlanes num_unroll fuel m left right pivot s b :
  0 <= right - left < numlanes -> 1 <= num_unroll ->
  let st := remainder_loop (Z.to_nat (right - left)) pivot
              (mkScalar left right s b m) in
  s_left st = s_right st
  /\ partition_avx512 numlanes fuel m left right pivot s b
     = Some (mkResult (s_left st) (s_smallest st) (s_biggest st) (s_mem st)
               true)
  /\ partition_avx512_unrolled numlanes num_unroll fuel m left right
       pivot s b
     = Some (mkResult (s_left st) (s_smallest st) (s_biggest st) (s_mem st)
               true).
Proof.
  intros Hlen HK st.
  assert (Hmeet : s_left st = s_right st).
  { pose proof (remainder_loop_shrinks (Z.to_nat (right - left)) pivot
                  (mkScalar left right s b m)) as H.
    fold st in H. cbn [s_left s_right] in H. lia. }
  assert (E : partition_avx512 numlanes fuel m left right pivot s b
              = Some (mkResult (s_left st) (s_smallest st) (s_biggest st)
                        (s_mem st) true)).
  { unfold partition_avx512. rewrite Z.rem_small by lia. fold st.
    destruct (Z.eqb_spec (s_left st) (s_right st)); [reflexivity|lia]. }
  split; [exact Hmeet|]. split; [exact E|].
  unfold partition_avx512_unrolled.
  destruct (Z.leb_spec (right - left) (2 * num_unroll * numlanes));
    [exact E|nia].
Qed.

Lemma short_range_is_scalar_witness :
  let st := remainder_loop (Z.to_nat (3 - 0)) 9
              (mkScalar 0 3 100 (-100) sample) in
  s_left st = s_right st
  /\ partition_avx512 4 0 sample 0 3 9 100 (-100)
     = Some (mkResult (s_left st) (s_smallest st) (s_biggest st) (s_mem st)
               true)
  /\ partition_avx512_unrolled 4 2 0 sample 0 3 9 100 (-100)
     = Some (mkResult (s_left st) (s_smallest st) (s_biggest st) (s_mem st)
               true).
Proof.
  apply (short_range_is_scalar 4 2 0 sample 0 3 9 100 (-100)); lia.
Defined.

(** ** Whole calls and how they compose *)

Lemma post_partitioned m left right pivot s b ms r :
  partition_post m left right pivot s b ms r ->
  partitioned m left right pivot s b r.
Proof.
  intro H. destruct (post_sides _ _ _ _ _ _ _ _ H) as [S1 [S2 S3]].
  destruct H as [Hb Hlo Hhi Hp Hmin Hmax Hfr _ _ _].
  unfold partitioned. repeat split; auto; lia.
Qed.

Lemma calls_partition numlanes num_unroll fuel m left right pivot s b :
  0 < numlanes <= 32 -> 1 <= num_unroll -> left <= right ->
  (Z.to_nat ((right - left) / numlanes) <= fuel)%nat ->
  exists r1 r2,
    partition_avx512 numlanes fuel m left right pivot s b = Some r1
    /\ partition_avx512_unrolled numlanes num_unroll fuel m left right pivot
         s b = Some r2
    /\ partitioned m left right pivot s b r1
    /\ partitioned m left right pivot s b r2.
Proof.
  intros Hn HK Hlr Hf.
  destruct (both_correct numlanes num_unroll fuel m left right pivot s b
              Hn HK Hlr Hf) as [r1 [r2 [E1 [E2 [P1 P2]]]]].
  exists r1, r2. repeat split; auto; eapply post_partitioned; eauto.
Qed.

Lemma fuel_of_subrange numlanes fuel left l' r' right :
  0 < numlanes -> left <= l' -> l' <= r' -> r' <= right ->
  (Z.to_nat ((right - left) / numlanes) <= fuel)%nat ->
  (Z.to_nat ((r' - l') / numlanes) <= fuel)%nat.
Proof.
  intros Hn H1 H2 H3 Hf.
  assert ((r' - l') / numlanes <= (right - left) / numlanes)
    by (apply Z.div_le_mono; lia).
  lia.
Qed.

Lemma lmin_absorb a l : Forall (fun x => a <= x) l -> lmin a l = a.
Proof. induction 1; simpl; lia. Qed.

Lemma lmax_absorb a l : Forall (fun x => x <= a) l -> lmax a l = a.
Proof. induction 1; simpl; lia. Qed.

(** A call over a sub-range, seen from the enclosing range. *)
Lemma subrange_lifts m m' left l' r' right :
  left <= l' -> l' <= r' -> r' <= right ->
  Permutation (window m' l' r') (window m l' r') ->
  (forall j, j < l' \/ r' <= j -> cells m' j = cells m j) ->
  window m' left l' = window m left l'
  /\ window m' r' right = window m r' right
  /\ Permutation (window m' left right) (window m left right)
  /\ (forall j, j < left \/ right <= j -> cells m' j = cells m j).
Proof.
  intros H1 H2 H3 Hp Hfr.
  assert (E1 : window m' left l' = window m left l')
    by (apply window_ext; intros; apply Hfr; lia).
  assert (E2 : window m' r' right = window m r' right)
    by (apply window_ext; intros; apply Hfr; lia).
  repeat split; auto.
  - rewrite (window_split m' left l' right), (window_split m left l' right)
      by lia.
    rewrite (window_split m' l' r' right), (window_split m l' r' right)
      by lia.
    rewrite E1, E2. apply Permutation_app_head.
    now apply Permutation_app_tail.
  - intros; apply Hfr; lia.
Qed.

(** X10. The boundary either routine returns is [left] plus the number of
    elements of the range below the pivot, and the low side holds exactly
    those elements: with no element below the pivot the boundary is
    [left], with every element below it the boundary is [right]. *)
Theorem boundary_counts_low
    numlanes num_unroll fuel m left right pivot s b :
  0 < numlanes <= 32 -> 1 <= num_unroll -> left <= right ->
  (Z.to_nat ((right - left) / numlanes) <= fuel)%nat ->
  let below := filter (fun x => x <? pivot) (window m left right) in
  exists r1 r2,
    partition_avx512 numlanes fuel m left right pivot s b = Some r1
    /\ partition_avx512_unrolled numlanes num_unroll fuel m left right
         pivot s b = Some r2
    /\ res_boundary r1 = left + Z.of_nat (length below)
    /\ res_boundary r2 = left + Z.of_nat (length below)
    /\ Permutation (window (res_arr r1) left (res_boundary r1)) below
    /\ Permutation (window (res_arr r2) left (res_boundary r2)) below
    /\ ((forall i, left <= i < right -> pivot <= cells m i) ->
        res_boundary r1 = left /\ res_boundary r2 = left)
    /\ ((forall i, left <= i < right -> cells m i < pivot) ->
        res_boundary r1 = right /\ res_boundary r2 = right).
Proof.
  intros Hn HK Hlr Hf below.
  destruct (calls_partition numlanes num_unroll fuel m left right pivot s b
              Hn HK Hlr Hf)
    as [r1 [r2 [E1 [E2 [P1 P2]]]]].
  destruct P1 as [_ [_ [_ [_ [_ [S1 [_ [B1 _]]]]]]]].
  destruct P2 as [_ [_ [_ [_ [_ [S2 [_ [B2 _]]]]]]]].
  fold below in S1, S2, B1, B2.
  assert (Hnone : (forall i, left <= i < right -> pivot <= cells m i) ->
                  below = []).
  { intro H.
    apply (proj2 (window_Forall (fun x => pivot <= x) m left right)) in H.
    apply filter_none. eapply Forall_impl; [|exact H].
    intros x Hx. simpl in Hx. destruct (Z.ltb_spec x pivot); [lia|auto]. }
  assert (Hall : (forall i, left <= i < right -> cells m i < pivot) ->
                 Z.of_nat (length below) = right - left).
  { intro H. rewrite <- (window_length m left right) by lia.
    apply (proj2 (window_Forall (fun x => x < pivot) m left right)) in H.
    unfold below. do 2 f_equal.
    apply filter_all. eapply Forall_impl; [|exact H].
    intros x Hx. simpl in Hx. destruct (Z.ltb_spec x pivot); [auto|lia]. }
  exists r1, r2.
  split; [exact E1|]. split; [exact E2|]. split; [exact B1|].
  split; [exact B2|]. split; [exact S1|]. split; [exact S2|].
  split; intro H.
  - rewrite B1, B2, (Hnone H). simpl. lia.
  - rewrite B1, B2, (Hall H). lia.
Qed.

Lemma boundary_counts_low_witness :
  let below := filter (fun x => x <? 9) (window sample 0 23) in
  exists r1 r2,
    partition_avx512 4 5 sample 0 23 9 100 (-100) = Some r1
    /\ partition_avx512_unrolled 4 2 5 sample 0 23 9 100 (-100) = Some r2
    /\ res_boundary r1 = 0 + Z.of_nat (length below)
    /\ res_boundary r2 = 0 + Z.of_nat (length below)
    /\ Permutation (window (res_arr r1) 0 (res_boundary r1)) below
    /\ Permutation (window (res_arr r2) 0 (res_boundary r2)) below
    /\ ((forall i, 0 <= i < 23 -> 9 <= cells sample i) ->
        res_boundary r1 = 0 /\ res_boundary r2 = 0)
    /\ ((forall i, 0 <= i < 23 -> cells sample i < 9) ->
        res_boundary r1 = 23 /\ res_boundary r2 = 23).
Proof.
  apply (boundary_counts_low 4 2 5 sample 0 23 9 100 (-100));
    [lia|lia|lia|vm_compute; lia].
Defined.

(** X11. Partitioning an already partitioned range again, with the same
    pivot and the bounds the first call returned, changes neither the
    boundary nor the bounds, and each side keeps its elements. *)
Theorem repartition_keeps_boundary
    numlanes num_unroll fuel m left right pivot s b :
  0 < numlanes <= 32 -> 1 <= num_unroll -> left <= right ->
  (Z.to_nat ((right - left) / numlanes) <= fuel)%nat ->
  exists r r',
    partition_avx512_unrolled numlanes num_unroll fuel m left right
      pivot s b = Some r
    /\ partition_avx512_unrolled numlanes num_unroll fuel (res_arr r)
         left right pivot (res_smallest r) (res_biggest r) = Some r'
    /\ res_boundary r' = res_boundary r
    /\ res_smallest r' = res_smallest r
    /\ res_biggest r' = res_biggest r
    /\ Permutation (window (res_arr r') left (res_boundary r'))
         (window (res_arr r) left (res_boundary r))
    /\ Permutation (window (res_arr r') (res_boundary r') right)
         (window (res_arr r) (res_boundary r) right).
Proof.
  intros Hn HK Hlr Hf.
  destruct (calls_partition numlanes num_unroll fuel m left right pivot s b
              Hn HK Hlr Hf)
    as [_ [r [_ [E [_ P]]]]].
  destruct P as [_ [_ [_ [Hp [_ [S1 [S2 [B [Hmin Hmax]]]]]]]]].
  destruct (calls_partition numlanes num_unroll fuel (res_arr r) left right
              pivot (res_smallest r) (res_biggest r) Hn HK Hlr Hf)
    as [_ [r' [_ [E' [_ P']]]]].
  destruct P' as [_ [_ [_ [_ [_ [S1' [S2' [B' [Hmin' Hmax']]]]]]]]].
  exists r, r'.
  split; [exact E|]. split; [exact E'|].
  split.
  { rewrite B', B. do 2 f_equal. apply Permutation_length.
    now apply filter_perm. }
  split.
  { rewrite Hmin', (lmin_perm _ _ _ Hp), Hmin. apply lmin_absorb.
    apply (lmin_spec s (window m left right)). }
  split.
  { rewrite Hmax', (lmax_perm _ _ _ Hp), Hmax. apply lmax_absorb.
    apply (lmax_spec b (window m left right)). }
  split.
  - rewrite S1', S1. now apply filter_perm.
  - rewrite S2', S2. now apply filter_perm.
Qed.

Lemma repartition_keeps_boundary_witness :
  exists r r',
    partition_avx512_unrolled 4 2 5 sample 0 23 9 100 (-100) = Some r
    /\ partition_avx512_unrolled 4 2 5 (res_arr r) 0 23 9
         (res_smallest r) (res_biggest r) = Some r'
    /\ res_boundary r' = res_boundary r
    /\ res_smallest r' = res_smallest r
    /\ res_biggest r' = res_biggest r
    /\ Permutation (window (res_arr r') 0 (res_boundary r'))
         (window (res_arr r) 0 (res_boundary r))
    /\ Permutation (window (res_arr r') (res_boundary r') 23)
         (window (res_arr r) (res_boundary r) 23).
Proof.
  apply (repartition_keeps_boundary 4 2 5 sample 0 23 9 100 (-100));
    [lia|lia|lia|vm_compute; lia].
Defined.

(** X12. One level of the quicksort recursion: after a call over
    [left, right) with pivot [pivot], partitioning the low side with a
    pivot [q1] and then the high side with a pivot [q2], with the running
    bounds handed on, keeps the outer split at the first boundary, splits
    each side at its own boundary, conserves the elements of the whole
    range and the cells outside it, and leaves the bounds of the first
    call unchanged. *)
Theorem nested_partition_keeps_outer_split
    numlanes num_unroll fuel m left right pivot q1 q2 s b :
  0 < numlanes <= 32 -> 1 <= num_unroll -> left <= right ->
  (Z.to_nat ((right - left) / numlanes) <= fuel)%nat ->
  exists r ra rb,
    partition_avx512_unrolled numlanes num_unroll fuel m left right
      pivot s b = Some r
    /\ partition_avx512_unrolled numlanes num_unroll fuel (res_arr r)
         left (res_boundary r) q1 (res_smallest r) (res_biggest r) = Some ra
    /\ partition_avx512_unrolled numlanes num_unroll fuel (res_arr ra)
         (res_boundary r) right q2 (res_smallest ra) (res_biggest ra)
       = Some rb
    /\ split_at (res_arr rb) left right pivot (res_boundary r)
    /\ split_at (res_arr rb) left (res_boundary r) q1 (res_boundary ra)
    /\ split_at (res_arr rb) (res_boundary r) right q2 (res_boundary rb)
    /\ Permutation (window (res_arr rb) left right) (window m left right)
    /\ (forall j, j < left \/ right <= j -> cells (res_arr rb) j = cells m j)
    /\ res_smallest rb = res_smallest r
    /\ res_biggest rb = res_biggest r.
Proof.
  intros Hn HK Hlr Hf.
  destruct (calls_partition numlanes num_unroll fuel m left right pivot s b
              Hn HK Hlr Hf)
    as [_ [r [_ [E [_ P]]]]].
  destruct P as [Hb [Hlo [Hhi [Hp [Hfr [_ [_ [_ [Hmin Hmax]]]]]]]]].
  set (mid := res_boundary r) in *.
  destruct (calls_partition numlanes num_unroll fuel (res_arr r) left mid
              q1 (res_smallest r) (res_biggest r) Hn HK ltac:(lia)
              ltac:(apply (fuel_of_subrange numlanes fuel left left mid
                             right); lia))
    as [_ [ra [_ [Ea [_ Pa]]]]].
  destruct Pa as [Hba [Hloa [Hhia [Hpa [Hfra [_ [_ [_ [Hmina Hmaxa]]]]]]]]].
  destruct (calls_partition numlanes num_unroll fuel (res_arr ra) mid right
              q2 (res_smallest ra) (res_biggest ra) Hn HK ltac:(lia)
              ltac:(apply (fuel_of_subrange numlanes fuel left mid right
                             right); lia))
    as [_ [rb [_ [Eb [_ Pb]]]]].
  destruct Pb as [Hbb [Hlob [Hhib [Hpb [Hfrb [_ [_ [_ [Hminb Hmaxb]]]]]]]]].
  destruct (subrange_lifts (res_arr r) (res_arr ra) left left mid right
              ltac:(lia) ltac:(lia) ltac:(lia) Hpa Hfra)
    as [_ [Ka [Kpa Kfa]]].
  destruct (subrange_lifts (res_arr ra) (res_arr rb) left mid right right
              ltac:(lia) ltac:(lia) ltac:(lia) Hpb Hfrb)
    as [Kb [_ [Kpb Kfb]]].
  (* the sides of the first call, as the last call leaves them *)
  assert (Hlow : Forall (fun x => x < pivot) (window (res_arr rb) left mid)).
  { rewrite Kb. eapply Permutation_Forall; [symmetry; exact Hpa|exact Hlo]. }
  assert (Hhigh : Forall (fun x => pivot <= x)
                    (window (res_arr rb) mid right)).
  { eapply Permutation_Forall; [symmetry; exact Hpb|].
    rewrite Ka. exact Hhi. }
  assert (Hwhole : Permutation (window (res_arr r) left right)
                     (window m left right)) by exact Hp.
  assert (Hin_a : Permutation
                    (window (res_arr r) left mid
                       ++ window (res_arr r) mid right)
                    (window m left right)).
  { rewrite <- window_split by lia. exact Hp. }
  exists r, ra, rb.
  split; [exact E|]. split; [exact Ea|]. split; [exact Eb|].
  split.
  { split; [lia|]. split.
    - exact (proj1 (window_Forall (fun x => x < pivot) _ _ _) Hlow).
    - exact (proj1 (window_Forall (fun x => pivot <= x) _ _ _) Hhigh). }
  split.
  { split; [lia|]. split.
    - intros i Hi. rewrite Hfrb by lia.
      exact (proj1 (window_Forall (fun x => x < q1) _ _ _) Hloa i Hi).
    - intros i Hi. rewrite Hfrb by lia.
      exact (proj1 (window_Forall (fun x => q1 <= x) _ _ _) Hhia i Hi). }
  split.
  { split; [lia|]. split.
    - exact (proj1 (window_Forall (fun x => x < q2) _ _ _) Hlob).
    - exact (proj1 (window_Forall (fun x => q2 <= x) _ _ _) Hhib). }
  split; [now rewrite Kpb, Kpa|].
  split.
  { intros j Hj. rewrite Kfb, Kfa by lia. now apply Hfr. }
  destruct (lmin_spec s (window m left right)) as [_ [Hge _]].
  destruct (lmax_spec b (window m left right)) as [_ [Hle _]].
  rewrite <- Hmin in Hge. rewrite <- Hmax in Hle.
  assert (Ea1 : res_smallest ra = res_smallest r).
  { rewrite Hmina. apply lmin_absorb.
    eapply Permutation_Forall in Hge; [|symmetry; exact Hin_a].
    apply Forall_app in Hge. tauto. }
  assert (Ea2 : res_biggest ra = res_biggest r).
  { rewrite Hmaxa. apply lmax_absorb.
    eapply Permutation_Forall in Hle; [|symmetry; exact Hin_a].
    apply Forall_app in Hle. tauto. }
  split.
  - rewrite Hminb, Ea1, Ka. apply lmin_absorb.
    eapply Permutation_Forall in Hge; [|symmetry; exact Hin_a].
    apply Forall_app in Hge. tauto.
  - rewrite Hmaxb, Ea2, Ka. apply lmax_absorb.
    eapply Permutation_Forall in Hle; [|symmetry; exact Hin_a].
    apply Forall_app in Hle. tauto.
Qed.

Lemma nested_partition_keeps_outer_split_witness :
  exists r ra rb,
    partition_avx512_unrolled 4 2 5 sample 0 23 9 100 (-100) = Some r
    /\ partition_avx512_unrolled 4 2 5 (res_arr r)
         0 (res_boundary r) 4 (res_smallest r) (res_biggest r) = Some ra
    /\ partition_avx512_unrolled 4 2 5 (res_arr ra)
         (res_boundary r) 23 14 (res_smallest ra) (res_biggest ra)
       = Some rb
    /\ split_at (res_arr rb) 0 23 9 (res_boundary r)
    /\ split_at (res_arr rb) 0 (res_boundary r) 4 (res_boundary ra)
    /\ split_at (res_arr rb) (res_boundary r) 23 14 (res_boundary rb)
    /\ Permutation (window (res_arr rb) 0 23) (window sample 0 23)
    /\ (forall j, j < 0 \/ 23 <= j -> cells (res_arr rb) j = cells sample j)
    /\ res_smallest rb = res_smallest r
    /\ res_biggest rb = res_biggest r.
Proof.
  apply (nested_partition_keeps_outer_split 4 2 5 sample 0 23 9 4 14
           100 (-100));
    [lia|lia|lia|vm_compute; lia].
Defined.

(** X13. The running bounds accumulate across calls: partitioning
    [left, mid) and then [mid, right), with the bounds the first call
    returned handed to the second, yields the minimum and the maximum of
    the initial bounds and the whole of [left, right), whatever the two
    pivots. *)
Theorem bounds_accumulate_across_calls
    numlanes num_unroll fuel m left mid right p1 p2 s b :
  0 < numlanes <= 32 -> 1 <= num_unroll -> left <= mid -> mid <= right ->
  (Z.to_nat ((right - left) / numlanes) <= fuel)%nat ->
  exists r1 r2,
    partition_avx512_unrolled numlanes num_unroll fuel m left mid p1 s b
    = Some r1
    /\ partition_avx512_unrolled numlanes num_unroll fuel (res_arr r1)
         mid right p2 (res_smallest r1) (res_biggest r1) = Some r2
    /\ res_smallest r2 = lmin s (window m left right)
    /\ res_biggest r2 = lmax b (window m left right)
    /\ Permutation (window (res_arr r2) left right) (window m left right).
Proof.
  intros Hn HK H1 H2 Hf.
  destruct (calls_partition numlanes num_unroll fuel m left mid p1 s b
              Hn HK H1
              ltac:(apply (fuel_of_subrange numlanes fuel left left mid
                             right); lia))
    as [_ [r1 [_ [E1 [_ P1]]]]].
  destruct P1 as [_ [_ [_ [Hp1 [Hfr1 [_ [_ [_ [Hmin1 Hmax1]]]]]]]]].
  destruct (calls_partition numlanes num_unroll fuel (res_arr r1) mid right
              p2 (res_smallest r1) (res_biggest r1) Hn HK H2
              ltac:(apply (fuel_of_subrange numlanes fuel left mid right
                             right); lia))
    as [_ [r2 [_ [E2 [_ P2]]]]].
  destruct P2 as [_ [_ [_ [Hp2 [Hfr2 [_ [_ [_ [Hmin2 Hmax2]]]]]]]]].
  destruct (subrange_lifts m (res_arr r1) left left mid right
              ltac:(lia) ltac:(lia) ltac:(lia) Hp1 Hfr1)
    as [_ [K1 [Kp1 _]]].
  destruct (subrange_lifts (res_arr r1) (res_arr r2) left mid right right
              ltac:(lia) ltac:(lia) ltac:(lia) Hp2 Hfr2)
    as [_ [_ [Kp2 _]]].
  exists r1, r2.
  split; [exact E1|]. split; [exact E2|].
  split.
  { rewrite Hmin2, Hmin1, K1, <- lmin_app. apply lmin_perm.
    rewrite (window_split m left mid right) by lia.
    apply Permutation_app_comm. }
  split.
  { rewrite Hmax2, Hmax1, K1, <- lmax_app. apply lmax_perm.
    rewrite (window_split m left mid right) by lia.
    apply Permutation_app_comm. }
  now rewrite Kp2, Kp1.
Qed.

Lemma bounds_accumulate_across_calls_witness :
  exists r1 r2,
    partition_avx512_unrolled 4 2 5 sample 0 10 9 100 (-100) = Some r1
    /\ partition_avx512_unrolled 4 2 5 (res_arr r1)
         10 23 12 (res_smallest r1) (res_biggest r1) = Some r2
    /\ res_smallest r2 = lmin 100 (window sample 0 23)
    /\ res_biggest r2 = lmax (-100) (window sample 0 23)
    /\ Permutation (window (res_arr r2) 0 23) (window sample 0 23).
Proof.
  apply (bounds_accumulate_across_calls 4 2 5 sample 0 10 23 9 12
           100 (-100));
    [lia|lia|lia|lia|vm_compute; lia].
Defined.

(** X14. With an unroll factor of one the unrolled routine is the plain
    one: both return the same boundary, bounds and buffer, access for
    access, although the unrolled epilogue stores its last register below
    [r_store + numlanes] where the plain one uses [l_store + numlanes]. *)
Theorem unroll_factor_one_is_plain numlanes fuel m left right pivot s b :
  0 < numlanes <= 32 -> left <= right ->
  (Z.to_nat ((right - left) / numlanes) <= fuel)%nat ->
  partition_avx512_unrolled numlanes 1 fuel m left right pivot s b
  = partition_avx512 numlanes fuel m left right pivot s b.
Proof.
  intros [Hn Hw] Hlr Hf. now apply unrolled_once_eq.
Qed.

Lemma unroll_factor_one_is_plain_witness :
  partition_avx512_unrolled 4 1 5 sample 0 23 9 100 (-100)
  = partition_avx512 4 5 sample 0 23 9 100 (-100).
Proof.
  apply (unroll_factor_one_is_plain 4 5 sample 0 23 9 100 (-100));
    [lia|lia|vm_compute; lia].
Defined.

(** ** [avx512_partial_qsort] at the edge ranks *)

(** X16. Under the contracts of the two entry points the partial sort
    behaves as follows at its extreme ranks.  With [k = arrsize] the whole
    buffer comes out sorted, although the sort is only asked for the first
    [arrsize - 1] elements: the selection has already put the maximum
    last.  With [k = 1] the sort is asked for zero elements and changes
    nothing: the result is what the selection of rank 0 left, the minimum
    in front of the other elements. *)
Theorem partial_qsort_edge_ranks
    (qselect : list Z -> Z -> Z -> list Z) (qsort : list Z -> Z -> list Z)
    arr arrsize :
  qselect_contract qselect -> qsort_contract qsort ->
  arrsize = Z.of_nat (length arr) -> 1 <= arrsize ->
  (let r := avx512_partial_qsort qselect qsort arr arrsize arrsize in
   Permutation r arr /\ StronglySorted Z.le r)
  /\ (let r := avx512_partial_qsort qselect qsort arr 1 arrsize in
      r = qselect arr 0 arrsize
      /\ Permutation r arr
      /\ exists p back, r = p :: back /\ Forall (fun y => p <= y) back).
Proof.
  intros Hsel Hsort Hsize Hk. split.
  - intro r. unfold avx512_partial_qsort in r.
    destruct (Hsel arr (arrsize - 1) arrsize Hsize ltac:(lia))
      as [Hp1 [front [p [back [E1 [Hlen [Hfront Hback]]]]]]].
    set (r1 := qselect arr (arrsize - 1) arrsize) in *.
    pose proof (Permutation_length Hp1) as Hl1.
    assert (back = []) as ->.
    { rewrite E1, length_app in Hl1. simpl in Hl1.
      destruct back; [reflexivity|simpl in Hl1; lia]. }
    destruct (Hsort r1 (arrsize - 1) ltac:(lia)) as [Hp2 [Hs2 Hk2]].
    fold r in Hp2, Hs2, Hk2.
    destruct (firstn_length_app front [p]) as [F1 F2].
    rewrite Hlen, <- E1 in F1, F2. rewrite F1 in Hp2. rewrite F2 in Hk2.
    assert (Er : r = firstn (Z.to_nat (arrsize - 1)) r ++ [p]).
    { rewrite <- Hk2. symmetry. apply firstn_skipn. }
    split.
    + rewrite Er, <- Hp1, E1. now apply Permutation_app_tail.
    + rewrite Er. apply StronglySorted_snoc.
      * apply Sorted_StronglySorted; auto. intros x y z; apply Z.le_trans.
      * eapply Permutation_Forall; [symmetry; exact Hp2|exact Hfront].
  - intro r. unfold avx512_partial_qsort in r.
    change (1 - 1) with 0 in r.
    destruct (Hsel arr 0 arrsize Hsize ltac:(lia))
      as [Hp1 [front [p [back [E1 [Hlen [_ Hback]]]]]]].
    destruct front; [|simpl in Hlen; lia]. simpl in E1.
    destruct (Hsort (qselect arr 0 arrsize) 0 ltac:(lia)) as [_ [_ Hk2]].
    change (Z.to_nat 0) with 0%nat in Hk2. simpl in Hk2. fold r in Hk2.
    split; [exact Hk2|]. rewrite Hk2. split; [exact Hp1|].
    now exists p, back.
Qed.

Lemma partial_qsort_edge_ranks_witness :
  (let r := avx512_partial_qsort ref_qselect ref_qsort [5; 2; 9; 1; 7] 5 5 in
   Permutation r [5; 2; 9; 1; 7] /\ StronglySorted Z.le r)
  /\ (let r :=
        avx512_partial_qsort ref_qselect ref_qsort [5; 2; 9; 1; 7] 1 5 in
      r = ref_qselect [5; 2; 9; 1; 7] 0 5
      /\ Permutation r [5; 2; 9; 1; 7]
      /\ exists p back, r = p :: back /\ Forall (fun y => p <= y) back).
Proof.
  apply (partial_qsort_edge_ranks ref_qselect ref_qsort [5; 2; 9; 1; 7] 5
           ref_qselect_meets_contract ref_qsort_meets_contract);
    [reflexivity|lia].
Defined.

(** ** The register loads of the unrolled routine *)

(** X17. The load loops of the unrolled routine read whole, consecutive
    registers and change no cell: the edge registers are the first and the
    last [num_unroll * numlanes] elements of the range, in buffer order,
    and a batch loaded at [base] is the [num_unroll * numlanes] elements
    from [base] on. *)
Theorem unrolled_loads_are_contiguous
    numlanes num_unroll left right base m :
  0 < numlanes <= 32 -> 0 <= num_unroll ->
  left + num_unroll * numlanes <= right ->
  let width := num_unroll * numlanes in
  let edges :=
    load_edges numlanes num_unroll (Z.to_nat num_unroll) 0 left right m in
  let batch := load_batch numlanes (Z.to_nat num_unroll) 0 base m in
  concat (fst (fst edges)) = window m left (left + width)
  /\ concat (snd (fst edges)) = window m (right - width) right
  /\ concat (fst batch) = window m base (base + width)
  /\ Z.of_nat (length (fst (fst edges))) = num_unroll
  /\ Z.of_nat (length (snd (fst edges))) = num_unroll
  /\ Z.of_nat (length (fst batch)) = num_unroll
  /\ Forall (fun v => Z.of_nat (length v) = numlanes)
       (fst (fst edges) ++ snd (fst edges) ++ fst batch)
  /\ cells (snd edges) = cells m
  /\ cells (snd batch) = cells m.
Proof.
  intros [Hn Hw] HK Hroom width edges batch.
  destruct (load_edges_spec numlanes Hn Hw num_unroll (Z.to_nat num_unroll)
              0 left right m ltac:(lia) ltac:(lia) Hroom)
    as [E1 [E2 [F1 [F2 [L1 [L2 [C1 _]]]]]]].
  destruct (load_batch_spec numlanes Hn Hw (Z.to_nat num_unroll) 0 base m
              ltac:(lia))
    as [E3 [F3 [L3 [C3 _]]]].
  fold edges in E1, E2, F1, F2, L1, L2, C1. fold batch in E3, F3, L3, C3.
  assert (Hfull : forall vs, Forall (full_vec numlanes) vs ->
                    Forall (fun v => Z.of_nat (length v) = numlanes) vs).
  { intros vs H. eapply Forall_impl; [|exact H].
    unfold full_vec. intros v Hv. lia. }
  split.
  { rewrite E1. unfold width. f_equal; lia. }
  split.
  { rewrite E2. unfold width. f_equal; lia. }
  split.
  { rewrite E3. unfold width. f_equal; lia. }
  split; [lia|]. split; [lia|]. split; [lia|].
  split; [|split; assumption].
  repeat (apply Forall_app; split); auto.
Qed.

Lemma unrolled_loads_are_contiguous_witness :
  let width := 2 * 4 in
  let edges := load_edges 4 2 (Z.to_nat 2) 0 0 23 sample in
  let batch := load_batch 4 (Z.to_nat 2) 0 8 sample in
  concat (fst (fst edges)) = window sample 0 (0 + width)
  /\ concat (snd (fst edges)) = window sample (23 - width) 23
  /\ concat (fst batch) = window sample 8 (8 + width)
  /\ Z.of_nat (length (fst (fst edges))) = 2
  /\ Z.of_nat (length (snd (fst edges))) = 2
  /\ Z.of_nat (length (fst batch)) = 2
  /\ Forall (fun v => Z.of_nat (length v) = 4)
       (fst (fst edges) ++ snd (fst edges) ++ fst batch)
  /\ cells (snd edges) = cells sample
  /\ cells (snd batch) = cells sample.
Proof.
  apply (unrolled_loads_are_contiguous 4 2 0 23 8 sample); lia.
Defined.
